(** * nox-plugin-artifact-integrity: a shallow embedding of [main.go]

    The plugin walks a workspace, classifies every file by its name and
    reports release artifacts without checksum or signature companions,
    checksum manifests whose declared SHA-256 digests do not match the
    referenced files, and lockfile entries without (or with conflicting)
    integrity hashes.

    Go strings and byte slices are byte sequences: they are embedded as
    [string] (a list of 8-bit [ascii]).  Maps used as sets are [gset string],
    the go.sum bookkeeping map is a [gmap string string].  Paths follow the
    POSIX flavour of [path/filepath] (separator [/], no volume names).  The
    functions of the Go standard library the plugin calls are modelled in the
    modules [Strings], [Filepath], [Bufio], [Regexp], [Hex] and [Sha256];
    [Strings.ToLower] and [Strings.TrimSpace] are modelled on ASCII text
    (bytes above 0x7f are left alone and are never white space).

    The response builder is threaded through the checks as the list of the
    findings appended so far.  The file tree, the readable contents and the
    moment at which the context is done are inputs of the scan;
    [json.Unmarshal] and the order in which [range] visits the packages of a
    lockfile are parameters of the checks that use them.

    The first part holds the model, the second part its properties. *)

From Stdlib Require Import ZArith Ascii String List Bool Lia Permutation.
From stdpp Require Import base gmap sets list strings.

(** ** The Go [strings] package (ASCII model) *)

Module Strings.

Definition isUpper (c : ascii) : bool :=
  let n := nat_of_ascii c in (65 <=? n)%nat && (n <=? 90)%nat.

Definition toLowerByte (c : ascii) : ascii :=
  if isUpper c then ascii_of_nat (nat_of_ascii c + 32) else c.

Fixpoint ToLower (s : string) : string :=
  match s with
  | EmptyString => EmptyString
  | String c r => String (toLowerByte c) (ToLower r)
  end.

Fixpoint HasPrefix (s prefix : string) : bool :=
  match prefix, s with
  | EmptyString, _ => true
  | String p ps, String c r => if Ascii.eqb p c then HasPrefix r ps else false
  | String _ _, EmptyString => false
  end.

Fixpoint drop (n : nat) (s : string) : string :=
  match n, s with
  | O, _ => s
  | S n', String _ r => drop n' r
  | S _, EmptyString => EmptyString
  end.

Definition HasSuffix (s suffix : string) : bool :=
  let n := String.length s in
  let m := String.length suffix in
  (m <=? n)%nat && String.eqb (drop (n - m) s) suffix.


Definition TrimPrefix (s prefix : string) : string :=
  if HasPrefix s prefix then drop (String.length prefix) s else s.

(** The ASCII white space of [strings.TrimSpace]:
    tab, line feed, vertical tab, form feed, carriage return, space. *)
Definition isSpace (c : ascii) : bool :=
  let n := nat_of_ascii c in
  ((9 <=? n)%nat && (n <=? 13)%nat) || (n =? 32)%nat.

Fixpoint TrimLeft (s : string) : string :=
  match s with
  | EmptyString => EmptyString
  | String c r => if isSpace c then TrimLeft r else s
  end.

Fixpoint TrimRight (s : string) : string :=
  match s with
  | EmptyString => EmptyString
  | String c r =>
      match TrimRight r with
      | EmptyString => if isSpace c then EmptyString else String c EmptyString
      | r' => String c r'
      end
  end.

Definition TrimSpace (s : string) : string := TrimRight (TrimLeft s).

(** [strings.Join] with separator [sep]. *)
Fixpoint Join (elems : list string) (sep : string) : string :=
  match elems with
  | [] => ""
  | [e] => e
  | e :: rest => e +:+ sep +:+ Join rest sep
  end.

(** [strings.Split(s, sep)] for a one-byte separator: always at least one
    component. *)
Fixpoint Split (s : string) (sep : ascii) : list string :=
  match s with
  | EmptyString => [""]
  | String c r =>
      if Ascii.eqb c sep then "" :: Split r sep
      else match Split r sep with
           | [] => [String c ""]
           | e :: rest => String c e :: rest
           end
  end.

End Strings.

(** ** The Go [path/filepath] package (POSIX) *)

Module Filepath.

Definition isRooted (path : string) : bool := Strings.HasPrefix path "/".

(** One step of [Clean] on the stack of elements kept so far (innermost
    element first). *)
Definition cleanStep (rooted : bool) (stack : list string) (elem : string)
  : list string :=
  if decide (elem = "" ∨ elem = ".") then stack
  else if decide (elem = "..") then
    match stack with
    | top :: below =>
        if decide (top = "..") then elem :: stack else below
    | [] => if rooted then [] else [elem]
    end
  else elem :: stack.

Definition Clean (path : string) : string :=
  if decide (path = "") then "."
  else
    let rooted := isRooted path in
    let stack := fold_left (cleanStep rooted) (Strings.Split path "/") [] in
    let body := Strings.Join (rev stack) "/" in
    if rooted then "/" +:+ body
    else if decide (body = "") then "." else body.

(** [filepath.Join] of two elements. *)
Definition Join (a b : string) : string :=
  if decide (a = "") then
    if decide (b = "") then "" else Clean b
  else Clean (a +:+ "/" +:+ b).

Definition lastNonEmpty (elems : list string) : option string :=
  List.find (λ e, negb (String.eqb e "")) (rev elems).

Definition Base (path : string) : string :=
  match lastNonEmpty (Strings.Split path "/") with
  | Some e => e
  | None => if decide (path = "") then "." else "/"
  end.

(** The part of [path] up to and including its last separator. *)
Definition dirPart (path : string) : string :=
  match rev (Strings.Split path "/") with
  | _ :: (_ :: _) as front => Strings.Join (rev front) "/" +:+ "/"
  | _ => ""
  end.

Definition Dir (path : string) : string := Clean (dirPart path).

End Filepath.

(** ** [crypto/sha256] and [encoding/hex]

    SHA-256 as in FIPS 180-4 on 32-bit words carried in [Z]; every addition
    is reduced modulo [2^32].  The round constants and the initial hash value
    are derived, as the standard defines them, from the fractional parts of
    the cube and square roots of the first primes. *)

Module Sha256.
Local Open Scope Z_scope.

Definition wrap32 (x : Z) : Z := x mod 2 ^ 32.
Definition rotr (n x : Z) : Z :=
  Z.lor (Z.shiftr x n) (wrap32 (Z.shiftl x (32 - n))).
Definition not32 (x : Z) : Z := Z.lxor x (2 ^ 32 - 1).

Definition Ch (x y z : Z) : Z := Z.lxor (Z.land x y) (Z.land (not32 x) z).
Definition Maj (x y z : Z) : Z :=
  Z.lxor (Z.lxor (Z.land x y) (Z.land x z)) (Z.land y z).
Definition bigSigma0 (x : Z) : Z := Z.lxor (Z.lxor (rotr 2 x) (rotr 13 x)) (rotr 22 x).
Definition bigSigma1 (x : Z) : Z := Z.lxor (Z.lxor (rotr 6 x) (rotr 11 x)) (rotr 25 x).
Definition smallSigma0 (x : Z) : Z := Z.lxor (Z.lxor (rotr 7 x) (rotr 18 x)) (Z.shiftr x 3).
Definition smallSigma1 (x : Z) : Z := Z.lxor (Z.lxor (rotr 17 x) (rotr 19 x)) (Z.shiftr x 10).

Definition isPrime (n : nat) : bool :=
  (2 <=? n)%nat && forallb (λ d, negb (n mod d =? 0)%nat) (seq 2 (n - 2)).

Definition primes64 : list Z :=
  Eval vm_compute in map Z.of_nat (List.filter isPrime (seq 2 310)).

(** Integer cube root of [n < 2^108], one bit at a time. *)
Definition icbrt (n : Z) : Z :=
  fold_left (λ r b, let r' := r + 2 ^ Z.of_nat b in
                    if r' * r' * r' <=? n then r' else r)
            (rev (seq 0 36)) 0.

Definition K : list Z :=
  Eval vm_compute in map (λ p, wrap32 (icbrt (p * 2 ^ 96))) primes64.

Definition H0 : list Z :=
  Eval vm_compute in map (λ p, wrap32 (Z.sqrt (p * 2 ^ 64))) (take 8 primes64).

Definition bytesOf (s : string) : list Z :=
  map (λ c, Z.of_nat (nat_of_ascii c)) (list_ascii_of_string s).

Definition bigEndian (width : nat) (x : Z) : list Z :=
  map (λ i, Z.shiftr x (8 * Z.of_nat i) mod 256) (rev (seq 0 width)).

Definition pad (msg : list Z) : list Z :=
  let len := Z.of_nat (length msg) in
  msg ++ [128] ++ repeat 0 (Z.to_nat ((55 - len) mod 64)) ++ bigEndian 8 (8 * len).

Fixpoint toWords (bs : list Z) : list Z :=
  match bs with
  | b0 :: b1 :: b2 :: b3 :: rest =>
      (((b0 * 256 + b1) * 256 + b2) * 256 + b3) :: toWords rest
  | _ => []
  end.

Definition schedule (block : list Z) : list Z :=
  fold_left
    (λ W t, W ++ [wrap32 (smallSigma1 (nth (t - 2) W 0) + nth (t - 7) W 0
                          + smallSigma0 (nth (t - 15) W 0) + nth (t - 16) W 0)])
    (seq 16 48) block.

Definition round (v : list Z) (kw : Z * Z) : list Z :=
  match v with
  | [a; b; c; d; e; f; g; h] =>
      let T1 := h + bigSigma1 e + Ch e f g + fst kw + snd kw in
      let T2 := bigSigma0 a + Maj a b c in
      [wrap32 (T1 + T2); a; b; c; wrap32 (d + T1); e; f; g]
  | _ => v
  end.

Definition compress (H block : list Z) : list Z :=
  let v := fold_left round (combine K (schedule block)) H in
  map (λ p, wrap32 (fst p + snd p)) (combine H v).

Fixpoint blocks (fuel : nat) (ws : list Z) : list (list Z) :=
  match fuel, ws with
  | S fuel', _ :: _ => take 16 ws :: blocks fuel' (List.skipn 16 ws)
  | _, _ => []
  end.

(** [sha256.Sum256]: the 32 bytes of the digest. *)
Definition Sum256 (data : string) : list Z :=
  let ws := toWords (pad (bytesOf data)) in
  concat (map (bigEndian 4) (fold_left compress (blocks (length ws) ws) H0)).

End Sha256.

Module Hex.

Definition hextable : list ascii :=
  list_ascii_of_string "0123456789abcdef".

Definition digit (n : Z) : ascii := nth (Z.to_nat n) hextable "f"%char.

(** [hex.EncodeToString]: two lower-case digits per byte. *)
Fixpoint EncodeToString (src : list Z) : string :=
  match src with
  | [] => ""
  | b :: rest =>
      String (digit (Z.shiftr b 4 mod 16))
        (String (digit (Z.land b 15)) (EncodeToString rest))
  end.

End Hex.

(** ** [bufio.Scanner] with the default [ScanLines] split function

    A line is the text before a line feed, without one trailing carriage
    return; a last line without line feed counts when it is not empty.  The
    scanner holds one token in a buffer of at most [maxTokenSize] bytes: at
    the first line that does not fit, [Scan] reports false and the loop over
    the lines ends. *)

Module Bufio.

Definition MaxScanTokenSize : nat := 64 * 1024.

Definition lineFeed : ascii := ascii_of_nat 10.
Definition carriageReturn : ascii := ascii_of_nat 13.

Fixpoint dropCR (s : string) : string :=
  match s with
  | EmptyString => EmptyString
  | String c EmptyString => if Ascii.eqb c carriageReturn then "" else s
  | String c r => String c (dropCR r)
  end.

(** [cur] is the part of the current line read so far. *)
Fixpoint scanFrom (maxTokenSize : nat) (cur rest : string) : list string :=
  match rest with
  | EmptyString =>
      if decide (cur = "") then []
      else if (String.length cur <? maxTokenSize)%nat then [dropCR cur] else []
  | String c r =>
      if Ascii.eqb c lineFeed then
        if (String.length cur <? maxTokenSize)%nat
        then dropCR cur :: scanFrom maxTokenSize "" r
        else []
      else scanFrom maxTokenSize (cur +:+ String c "") r
  end.

(** The successive values of [scanner.Text()] over a file's content. *)
Definition Lines (content : string) : list string :=
  scanFrom MaxScanTokenSize "" content.

End Bufio.

(** ** [regexp]: backtracking matchers with leftmost-first preference

    Each combinator matches one piece of a pattern at the start of the text
    and hands what it consumed and the rest to the continuation [k] for the
    remainder of the pattern; a greedy repetition tries the longer match
    first and gives characters back when the continuation fails, which yields
    the submatches Go's [regexp] reports. *)

Module Regexp.

Section Combinators.
Context {A : Type}.

(** [p+] *)
Fixpoint plusThen (p : ascii → bool) (k : string → string → option A)
    (taken s : string) : option A :=
  match s with
  | EmptyString => None
  | String c r =>
      if p c then
        let taken' := taken +:+ String c "" in
        match plusThen p k taken' r with
        | Some x => Some x
        | None => k taken' r
        end
      else None
  end.

(** [p{lo,hi}], with [count] repetitions already [taken]. *)
Fixpoint repeatThen (p : ascii → bool) (lo hi : nat)
    (k : string → string → option A) (count : nat) (taken s : string)
  : option A :=
  let stop := if (lo <=? count)%nat then k taken s else None in
  match s with
  | EmptyString => stop
  | String c r =>
      if p c && (count <? hi)%nat then
        match repeatThen p lo hi k (S count) (taken +:+ String c "") r with
        | Some x => Some x
        | None => stop
        end
      else stop
  end.

(** A literal. *)
Definition literalThen (lit : string) (k : string → option A) (s : string)
  : option A :=
  if Strings.HasPrefix s lit then k (Strings.drop (String.length lit) s)
  else None.

(** [$] without the multi-line flag: the end of the text. *)
Definition atEnd (x : A) (s : string) : option A :=
  if decide (s = "") then Some x else None.
End Combinators.

(** [[a-fA-F0-9]] *)
Definition isHexDigit (c : ascii) : bool :=
  let n := nat_of_ascii c in
  ((48 <=? n)%nat && (n <=? 57)%nat)
  || ((65 <=? n)%nat && (n <=? 70)%nat)
  || ((97 <=? n)%nat && (n <=? 102)%nat).

(** [\s] is [[\t\n\f\r ]]; [\S] is its complement. *)
Definition isWhite (c : ascii) : bool :=
  let n := nat_of_ascii c in
  (n =? 9)%nat || (n =? 10)%nat || (n =? 12)%nat || (n =? 13)%nat || (n =? 32)%nat.
Definition notWhite (c : ascii) : bool := negb (isWhite c).

(** [.] matches everything except a line feed. *)
Definition anyChar (c : ascii) : bool := negb (Ascii.eqb c Bufio.lineFeed).

(** [FindStringSubmatch] returns the whole match followed by the groups, or
    nil. *)
Definition submatches (m : option (list string)) : list string :=
  match m with Some l => l | None => [] end.

End Regexp.

(** ** The plugin SDK: findings and the response builder

    [resp.Finding(rule, severity, confidence, message)] opens a finding,
    [At] and [WithMetadata] fill it in and [Done] appends it to the
    response.  Line numbers are Go [int]s counting the lines of one file;
    they are embedded as [nat]. *)

Inductive Severity :=
  SeverityCritical | SeverityHigh | SeverityMedium | SeverityLow | SeverityInfo.
Inductive Confidence := ConfidenceHigh | ConfidenceMedium | ConfidenceLow.

Record Finding := mkFinding {
  RuleId : string;
  FindingSeverity : Severity;
  FindingConfidence : Confidence;
  Message : string;
  LocationFile : string;
  StartLine : nat;
  EndLine : nat;
  Metadata : gmap string string;
}.

#[global] Instance Severity_eq_dec : EqDecision Severity.
Proof. solve_decision. Defined.
#[global] Instance Confidence_eq_dec : EqDecision Confidence.
Proof. solve_decision. Defined.
#[global] Instance Finding_eq_dec : EqDecision Finding.
Proof. solve_decision. Defined.

(** The findings appended so far, oldest first. *)
Abbreviation ResponseBuilder := (list Finding).

Record FindingBuilder := mkFindingBuilder {
  builderResponse : ResponseBuilder;
  builderFinding : Finding;
}.

Definition NewResponse : ResponseBuilder := [].

Definition NewFinding (resp : ResponseBuilder) (rule : string) (sev : Severity)
    (conf : Confidence) (msg : string) : FindingBuilder :=
  mkFindingBuilder resp (mkFinding rule sev conf msg "" 0 0 ∅).

Definition At (file : string) (startLine endLine : nat) (b : FindingBuilder)
  : FindingBuilder :=
  let f := builderFinding b in
  mkFindingBuilder (builderResponse b)
    (mkFinding (RuleId f) (FindingSeverity f) (FindingConfidence f) (Message f)
       file startLine endLine (Metadata f)).

Definition WithMetadata (key value : string) (b : FindingBuilder) : FindingBuilder :=
  let f := builderFinding b in
  mkFindingBuilder (builderResponse b)
    (mkFinding (RuleId f) (FindingSeverity f) (FindingConfidence f) (Message f)
       (LocationFile f) (StartLine f) (EndLine f) (<[key := value]> (Metadata f))).

Definition Done (b : FindingBuilder) : ResponseBuilder :=
  builderResponse b ++ [builderFinding b].

(** The response handed to the host: its findings. *)
Definition Build (resp : ResponseBuilder) : list Finding := resp.

(** Method chaining: [x |> f] applies the next builder method. *)
Local Notation "x |> f" := (f x) (at level 45, left associativity, only parsing).

(** ** The fixed name tables of [main.go]

    Each table is a [map[string]bool] literal whose values are all true; it
    is embedded as the list of its keys.  Indexing the map is membership;
    [range] visits the keys in an order Go leaves unspecified, and every loop
    over these tables stops at the first hit, so that the order is not
    observable (lemma [existsb_Permutation] below). *)

Definition releaseArtifactExtensions : list string :=
  [".tar.gz"; ".tgz"; ".zip"; ".tar.bz2"; ".tar.xz"; ".deb"; ".rpm"; ".whl";
   ".gem"; ".jar"; ".war"; ".apk"].

Definition signatureExtensions : list string :=
  [".sig"; ".asc"; ".sign"; ".gpg"; ".minisig"].

Definition checksumExtensions : list string :=
  [".sha256"; ".sha512"; ".sha256sum"; ".sha512sum"; ".md5"; ".md5sum"].

Definition checksumFileNames : list string :=
  ["SHA256SUMS"; "SHA512SUMS"; "CHECKSUMS"; "checksums.txt"; "CHECKSUMS.txt"].

Definition lockfileNames : list string :=
  ["package-lock.json"; "yarn.lock"; "go.sum"; "Gemfile.lock"; "poetry.lock";
   "Cargo.lock"; "composer.lock"].

Definition skippedDirs : list string :=
  [".git"; "vendor"; "node_modules"; "__pycache__"; ".venv"].

(** [table[key]] *)
Definition index (table : list string) (key : string) : bool :=
  bool_decide (key ∈ table).

(** [reChecksumLine]: [^([a-fA-F0-9]{32,128})\s+(.+)$] *)
Definition reChecksumLine (line : string) : list string :=
  Regexp.submatches
    (Regexp.repeatThen Regexp.isHexDigit 32 128
       (λ hash rest1,
          Regexp.plusThen Regexp.isWhite
            (λ _ rest2,
               Regexp.plusThen Regexp.anyChar
                 (λ name rest3, Regexp.atEnd [line; hash; name] rest3)
                 "" rest2)
            "" rest1)
       0 "" line).

(** [reGoSumLine]: [^(\S+)\s+(\S+)\s+(h1:\S+)$] *)
Definition reGoSumLine (line : string) : list string :=
  Regexp.submatches
    (Regexp.plusThen Regexp.notWhite
       (λ module rest1,
          Regexp.plusThen Regexp.isWhite
            (λ _ rest2,
               Regexp.plusThen Regexp.notWhite
                 (λ ver rest3,
                    Regexp.plusThen Regexp.isWhite
                      (λ _ rest4,
                         Regexp.literalThen "h1:"
                           (λ rest5,
                              Regexp.plusThen Regexp.notWhite
                                (λ tail rest6,
                                   Regexp.atEnd [line; module; ver; "h1:" +:+ tail] rest6)
                                "" rest5)
                           rest4)
                      "" rest3)
                 "" rest2)
            "" rest1)
       "" line).

(** ** The environment of a scan *)

(** What [filepath.WalkDir] meets below a root: an entry that is not a
    directory (a regular file, a symbolic link, ...) or a directory with the
    entries [os.ReadDir] returns for it, and whether [os.ReadDir] reported an
    error along with them. *)
Unset Elimination Schemes.
Inductive DirEntry :=
| FileEntry (name : string)
| DirectoryEntry (name : string) (entries : list DirEntry) (readDirFails : bool).
Set Elimination Schemes.

Definition entryName (d : DirEntry) : string :=
  match d with FileEntry n => n | DirectoryEntry n _ _ => n end.

Definition IsDir (d : DirEntry) : bool :=
  match d with FileEntry _ => false | DirectoryEntry _ _ _ => true end.

(** [Lstat root] is the tree below [root], or [None] when the root cannot be
    accessed; [ReadFile path] is the content [os.ReadFile] (or [os.Open]
    followed by reading to the end) yields for [path], or [None] on any
    error.  One scan sees one snapshot. *)
Record FileSystem := mkFileSystem {
  Lstat : string → option DirEntry;
  ReadFile : string → option string;
}.

(** [ctx.Err()] is nil until the context is done and then stays the same
    error.  The scan observes the context only by polling it; [doneAt] is the
    number of polls that still see a live context. *)
Inductive ContextError := Canceled | DeadlineExceeded.

Record Context := mkContext {
  doneAt : option nat;
  cause : ContextError;
}.

Definition ctxErr (ctx : Context) (polls : nat) : option ContextError :=
  match doneAt ctx with
  | Some n => if (n <=? polls)%nat then Some (cause ctx) else None
  | None => None
  end.

Definition Background : Context := mkContext None Canceled.

(** The request: [req.Input] is a map to values of any type. *)
Inductive AnyValue := StringValue (s : string) | OtherValue.

Record ToolRequest := mkToolRequest {
  Input : gmap string AnyValue;
  WorkspaceRoot : string;
}.

(** [(resp, nil)] or [(nil, err)]. *)
Inductive ScanResult :=
| Response (findings : list Finding)
| Failure (err : string).

(** [package-lock.json] as [encoding/json] decodes it into [npmLockfile]. *)
Record npmPackage := mkNpmPackage {
  Version : string;
  Resolved : string;
  Integrity : string;
}.

Record npmLockfile := mkNpmLockfile {
  Packages : gmap string npmPackage;
}.

(** ** The walk *)

Inductive WalkError := SkipDir | ContextErr (e : ContextError).

Record WalkState := mkWalkState {
  allFiles : list string;
  fileSet : gset string;
  polls : nat;
}.

Definition polled (st : WalkState) : WalkState :=
  mkWalkState (allFiles st) (fileSet st) (S (polls st)).

Definition collect (path : string) (st : WalkState) : WalkState :=
  mkWalkState (allFiles st ++ [path]) ({[path]} ∪ fileSet st) (polls st).

(** The function literal handed to [filepath.WalkDir]; [err] says whether
    it is called with an error ([d] may then be nil). *)
Definition walkFn (ctx : Context) (st : WalkState) (path : string)
    (d : option DirEntry) (err : bool) : WalkState * option WalkError :=
  if err then (st, None)
  else
    match ctxErr ctx (polls st) with
    | Some e => (polled st, Some (ContextErr e))
    | None =>
        let st := polled st in
        match d with
        | Some (DirectoryEntry name _ _) =>
            if index skippedDirs name then (st, Some SkipDir) else (st, None)
        | Some (FileEntry _) => (collect path st, None)
        | None => (st, None) (* not reached: [d] is nil only with an error *)
        end
    end.

Definition isSkipDir (e : WalkError) : bool :=
  match e with SkipDir => true | ContextErr _ => false end.

(** The loop of [filepath.walkDir] over the entries of a directory, with
    [walk] for the recursive call: an error ends the loop, and [SkipDir]
    ends it without error. *)
Definition walkEntries
    (walk : string → DirEntry → WalkState → WalkState * option WalkError)
    (path : string) : list DirEntry → WalkState → WalkState * option WalkError :=
  fix loop (dirs : list DirEntry) (st : WalkState) :=
    match dirs with
    | [] => (st, None)
    | d1 :: rest =>
        let path1 := Filepath.Join path (entryName d1) in
        match walk path1 d1 st with
        | (st, Some SkipDir) => (st, None)
        | (st, Some e) => (st, Some e)
        | (st, None) => loop rest st
        end
    end.

(** [filepath.walkDir] *)
Fixpoint walkDir (ctx : Context) (path : string) (d : DirEntry) (st : WalkState)
    {struct d} : WalkState * option WalkError :=
  match walkFn ctx st path (Some d) false with
  | (st, Some e) => (st, if isSkipDir e && IsDir d then None else Some e)
  | (st, None) =>
      match d with
      | FileEntry _ => (st, None)
      | DirectoryEntry _ entries readDirFails =>
          match (if readDirFails then walkFn ctx st path (Some d) true
                 else (st, None)) with
          | (st, Some e) => (st, if isSkipDir e then None else Some e)
          | (st, None) => walkEntries (walkDir ctx) path entries st
          end
      end
  end.

(** [filepath.WalkDir] *)
Definition WalkDir (ctx : Context) (fs : FileSystem) (root : string)
    (st : WalkState) : WalkState * option WalkError :=
  match (match Lstat fs root with
         | None => walkFn ctx st root None true
         | Some d => walkDir ctx root d st
         end) with
  | (st, Some SkipDir) => (st, None)
  | r => r
  end.

(** [for scanner.Scan() { lineNum++; ... }] over the lines of a file: [body]
    is the loop body, run with the incremented line number. *)
Fixpoint scanLoop {S : Type} (body : S → nat → string → S)
    (lines : list string) (lineNum : nat) (st : S) : S :=
  match lines with
  | [] => st
  | text :: rest =>
      let lineNum := Datatypes.S lineNum in
      scanLoop body rest lineNum (body st lineNum text)
  end.

(** ** The checks of [main.go] *)

(** [isReleaseArtifact] *)
Definition isReleaseArtifact (name : string) : bool :=
  let lower := Strings.ToLower name in
  existsb (λ ext, Strings.HasSuffix lower ext) releaseArtifactExtensions.

(** [hasCompanionFile] *)
Definition hasCompanionFile (name dir : string) (fileSet : gset string)
    (extensions : list string) : bool :=
  existsb (λ ext, let companion := Filepath.Join dir (name +:+ ext) in
                  bool_decide (companion ∈ fileSet))
          extensions.

(** [checkMissingChecksum] *)
Definition checkMissingChecksum (resp : ResponseBuilder)
    (path name dir : string) (fileSet : gset string) : ResponseBuilder :=
  if hasCompanionFile name dir fileSet checksumExtensions then resp
  else if existsb (λ csName, bool_decide (Filepath.Join dir csName ∈ fileSet))
                  checksumFileNames then resp
  else
    NewFinding resp "ARTINT-001" SeverityHigh ConfidenceHigh
      ("Release artifact " +:+ name +:+ " has no corresponding checksum file")
    |> At path 0 0
    |> WithMetadata "artifact" name
    |> WithMetadata "type" "missing_checksum"
    |> Done.

(** [checkUnsignedArtifact] *)
Definition checkUnsignedArtifact (resp : ResponseBuilder)
    (path name dir : string) (fileSet : gset string) : ResponseBuilder :=
  if hasCompanionFile name dir fileSet signatureExtensions then resp
  else
    NewFinding resp "ARTINT-002" SeverityMedium ConfidenceMedium
      ("Release artifact " +:+ name +:+ " has no signature file (.sig, .asc)")
    |> At path 0 0
    |> WithMetadata "artifact" name
    |> WithMetadata "type" "unsigned_artifact"
    |> Done.

(** [s[:n]] for [n] within the length of [s]. *)
Definition sliceTo (n : nat) (s : string) : string := String.substring 0 n s.

(** The body of the loop in [checkChecksumMismatches]. *)
Definition checksumLine (fs : FileSystem) (checksumFilePath dir : string)
    (resp : ResponseBuilder) (lineNum : nat) (text : string) : ResponseBuilder :=
  let line := Strings.TrimSpace text in
  if bool_decide (line = "") || Strings.HasPrefix line "#" then resp
  else
    let matches := reChecksumLine line in
    if bool_decide (length matches ≠ 3) then resp
    else
      let declaredHash := Strings.ToLower (nth 1 matches "") in
      let referencedFile := Strings.TrimSpace (nth 2 matches "") in
      let referencedFile := Strings.TrimPrefix referencedFile "*" in
      let targetPath := Filepath.Join dir referencedFile in
      match ReadFile fs targetPath with
      | None => resp
      | Some data =>
          if bool_decide (String.length declaredHash = 64) then
            let actualHash := Hex.EncodeToString (Sha256.Sum256 data) in
            if bool_decide (actualHash ≠ declaredHash) then
              NewFinding resp "ARTINT-003" SeverityCritical ConfidenceHigh
                ("Checksum mismatch for " +:+ referencedFile
                 +:+ ": declared=" +:+ sliceTo 16 declaredHash +:+ "..."
                 +:+ " actual=" +:+ sliceTo 16 actualHash +:+ "...")
              |> At checksumFilePath lineNum lineNum
              |> WithMetadata "file" referencedFile
              |> WithMetadata "type" "checksum_mismatch"
              |> Done
            else resp
          else resp
      end.

(** [checkChecksumMismatches] *)
Definition checkChecksumMismatches (fs : FileSystem) (resp : ResponseBuilder)
    (checksumFilePath dir : string) : ResponseBuilder :=
  match ReadFile fs checksumFilePath with
  | None => resp
  | Some content =>
      scanLoop (checksumLine fs checksumFilePath dir) (Bufio.Lines content) 0 resp
  end.

(** The body of the loop in [checkGoSumIntegrity]; the state is the response
    and the map [seen] from [module@version] to the hash last read for it. *)
Definition goSumLine (filePath : string)
    (st : ResponseBuilder * gmap string string) (lineNum : nat) (text : string)
  : ResponseBuilder * gmap string string :=
  let '(resp, seen) := st in
  let line := Strings.TrimSpace text in
  if bool_decide (line = "") then st
  else
    let matches := reGoSumLine line in
    if bool_decide (length matches ≠ 4) then st
    else
      let module := nth 1 matches "" in
      let ver := nth 2 matches "" in
      let hash := nth 3 matches "" in
      let key := module +:+ "@" +:+ ver in
      let resp :=
        match seen !! key with
        | Some existing =>
            if bool_decide (existing ≠ hash) then
              NewFinding resp "ARTINT-003" SeverityCritical ConfidenceHigh
                ("Duplicate go.sum entry with different hash for " +:+ key)
              |> At filePath lineNum lineNum
              |> WithMetadata "module" module
              |> WithMetadata "version" ver
              |> WithMetadata "type" "checksum_mismatch"
              |> Done
            else resp
        | None => resp
        end in
      (resp, <[key := hash]> seen).

(** [checkGoSumIntegrity] *)
Definition checkGoSumIntegrity (fs : FileSystem) (resp : ResponseBuilder)
    (filePath : string) : ResponseBuilder :=
  match ReadFile fs filePath with
  | None => resp
  | Some content =>
      fst (scanLoop (goSumLine filePath) (Bufio.Lines content) 0 (resp, ∅))
  end.

Section Scan.

(** [json.Unmarshal(data, &lockfile)]: the decoded lockfile, or [None] when
    the decoder reports an error. *)
Variable json_Unmarshal : string → option npmLockfile.

(** The order in which [range] visits the entries of the [Packages] map of
    the lockfile at a path.  Go leaves it unspecified; a run of the scan
    fixes one. *)
Variable rangeOrder : string → gmap string npmPackage → list (string * npmPackage).

(** The body of the loop in [checkNPMLockfileIntegrity]. *)
Definition npmEntry (filePath : string) (resp : ResponseBuilder)
    (entry : string * npmPackage) : ResponseBuilder :=
  let '(pkgPath, pkg) := entry in
  if bool_decide (pkgPath = "") then resp
  else if bool_decide (Integrity pkg = "") && bool_decide (Resolved pkg ≠ "") then
    NewFinding resp "ARTINT-003" SeverityCritical ConfidenceHigh
      ("Lockfile entry missing integrity hash: " +:+ pkgPath +:+ "@" +:+ Version pkg)
    |> At filePath 0 0
    |> WithMetadata "package" pkgPath
    |> WithMetadata "version" (Version pkg)
    |> WithMetadata "type" "missing_integrity"
    |> Done
  else resp.

(** [checkNPMLockfileIntegrity] *)
Definition checkNPMLockfileIntegrity (fs : FileSystem) (resp : ResponseBuilder)
    (filePath : string) : ResponseBuilder :=
  match ReadFile fs filePath with
  | None => resp
  | Some data =>
      match json_Unmarshal data with
      | None => resp
      | Some lockfile =>
          fold_left (npmEntry filePath) (rangeOrder filePath (Packages lockfile)) resp
      end
  end.

(** [checkLockfileIntegrity] *)
Definition checkLockfileIntegrity (fs : FileSystem) (resp : ResponseBuilder)
    (filePath : string) : ResponseBuilder :=
  let name := Filepath.Base filePath in
  if bool_decide (name = "package-lock.json") then
    checkNPMLockfileIntegrity fs resp filePath
  else if bool_decide (name = "go.sum") then
    checkGoSumIntegrity fs resp filePath
  else resp.

(** The body of the loop over [allFiles] in [handleScan], after the poll of
    the context. *)
Definition analyzeFile (fs : FileSystem) (fileSet : gset string)
    (resp : ResponseBuilder) (path : string) : ResponseBuilder :=
  let name := Filepath.Base path in
  let dir := Filepath.Dir path in
  let resp :=
    if isReleaseArtifact name then
      let resp := checkMissingChecksum resp path name dir fileSet in
      checkUnsignedArtifact resp path name dir fileSet
    else resp in
  let resp :=
    if index checksumFileNames name then checkChecksumMismatches fs resp path dir
    else resp in
  if index lockfileNames name then checkLockfileIntegrity fs resp path
  else resp.

(** [for _, path := range allFiles { if ctx.Err() != nil { break }; ... }] *)
Fixpoint analyzeFiles (ctx : Context) (fs : FileSystem) (fileSet : gset string)
    (files : list string) (polls : nat) (resp : ResponseBuilder)
  : ResponseBuilder :=
  match files with
  | [] => resp
  | path :: rest =>
      match ctxErr ctx polls with
      | Some _ => resp
      | None =>
          analyzeFiles ctx fs fileSet rest (S polls) (analyzeFile fs fileSet resp path)
      end
  end.

(** [handleScan] *)
Definition handleScan (ctx : Context) (fs : FileSystem) (req : ToolRequest)
  : ScanResult :=
  let workspaceRoot :=
    match Input req !! "workspace_root" with
    | Some (StringValue s) => s
    | _ => ""
    end in
  let workspaceRoot :=
    if bool_decide (workspaceRoot = "") then WorkspaceRoot req else workspaceRoot in
  let resp := NewResponse in
  if bool_decide (workspaceRoot = "") then Response (Build resp)
  else
    let '(st, err) := WalkDir ctx fs workspaceRoot (mkWalkState [] ∅ 0) in
    match err with
    | Some (ContextErr DeadlineExceeded) =>
        Failure "walking workspace: context deadline exceeded"
    | Some SkipDir =>
        Failure "walking workspace: skip this directory"
    | Some (ContextErr Canceled) | None =>
        Response (Build (analyzeFiles ctx fs (fileSet st) (allFiles st) (polls st) resp))
    end.

End Scan.

(** ** Notions used in the statements *)

(** The root a request names: the input [workspace_root] when it is a
    non-empty string, the request's own root otherwise. *)
Definition requestedRoot (req : ToolRequest) : string :=
  let workspaceRoot :=
    match Input req !! "workspace_root" with
    | Some (StringValue s) => s
    | _ => ""
    end in
  if bool_decide (workspaceRoot = "") then WorkspaceRoot req else workspaceRoot.

(** The finding of a mismatch declared at line [lineNum] of a manifest. *)
Definition mismatchFinding (checksumFilePath : string) (lineNum : nat)
    (referencedFile declaredHash actualHash : string) : Finding :=
  mkFinding "ARTINT-003" SeverityCritical ConfidenceHigh
    ("Checksum mismatch for " +:+ referencedFile
     +:+ ": declared=" +:+ sliceTo 16 declaredHash +:+ "..."
     +:+ " actual=" +:+ sliceTo 16 actualHash +:+ "...")
    checksumFilePath lineNum lineNum
    (<["type" := "checksum_mismatch"]> (<["file" := referencedFile]> ∅)).

(** The composite key of the map [seen]. *)
Definition goSumKey (module ver : string) : string := module +:+ "@" +:+ ver.

(** The entry a line of go.sum stands for: module, version and hash of a
    line that, trimmed, is not empty and matches [reGoSumLine]. *)
Definition goSumEntry (text : string) : option (string * string * string) :=
  let line := Strings.TrimSpace text in
  if bool_decide (line = "") then None
  else match reGoSumLine line with
       | [_; module; ver; hash] => Some (module, ver, hash)
       | _ => None
       end.

(** The hash most recently recorded for [key] by the lines [earlier]: the
    hash of the last of them whose entry has this key. *)
Definition recorded (key : string) (earlier : list string) : option string :=
  last (omap (λ text,
                match goSumEntry text with
                | Some (module, ver, hash) =>
                    if bool_decide (goSumKey module ver = key) then Some hash else None
                | None => None
                end) earlier).

(** The same for a (module, version) pair: the hash of the last of the
    lines [earlier] whose entry has this module and this version. *)
Definition recordedFor (module ver : string) (earlier : list string)
  : option string :=
  last (omap (λ text,
                match goSumEntry text with
                | Some (module', ver', hash) =>
                    if bool_decide ((module', ver') = (module, ver))
                    then Some hash else None
                | None => None
                end) earlier).

(** Whether the byte [c] occurs in [s]. *)
Fixpoint hasByte (c : ascii) (s : string) : bool :=
  match s with
  | EmptyString => false
  | String c' r => Ascii.eqb c c' || hasByte c r
  end.

(** The finding of a conflicting duplicate at line [lineNum]. *)
Definition conflictFinding (filePath : string) (lineNum : nat)
    (module ver : string) : Finding :=
  mkFinding "ARTINT-003" SeverityCritical ConfidenceHigh
    ("Duplicate go.sum entry with different hash for " +:+ goSumKey module ver)
    filePath lineNum lineNum
    (<["type" := "checksum_mismatch"]>
       (<["version" := ver]> (<["module" := module]> ∅))).

(** The finding of a package entry without integrity hash. *)
Definition missingIntegrityFinding (filePath pkgPath : string) (pkg : npmPackage)
  : Finding :=
  mkFinding "ARTINT-003" SeverityCritical ConfidenceHigh
    ("Lockfile entry missing integrity hash: " +:+ pkgPath +:+ "@" +:+ Version pkg)
    filePath 0 0
    (<["type" := "missing_integrity"]>
       (<["version" := Version pkg]> (<["package" := pkgPath]> ∅))).

(** The lockfiles the dispatcher has no check for. *)
Definition uncheckedLockfiles : list string :=
  ["yarn.lock"; "Gemfile.lock"; "poetry.lock"; "Cargo.lock"; "composer.lock"].

(** How a step of the walk under [ctx] relates to the same step under a
    context that is never done: either it stopped at a poll that saw the
    context done, or it ran exactly as it would have without [ctx]. *)
Definition walkOutcome (ctx : Context)
    (r live : WalkState * option WalkError) : Prop :=
  match r.2 with
  | Some (ContextErr e) => e = cause ctx ∧ ctxErr ctx (polls r.1) = Some e
  | _ => live = r
  end.

(** A file system that holds one file. *)
Definition singleFile (path content : string) : FileSystem :=
  mkFileSystem
    (λ p, if bool_decide (p = path) then Some (FileEntry (Filepath.Base path)) else None)
    (λ p, if bool_decide (p = path) then Some content else None).

Definition scanRequest (root : string) : ToolRequest :=
  mkToolRequest (<["workspace_root" := StringValue root]> ∅) "".

(** ** An example workspace

    A release directory with an archive and a manifest that declares an
    all-zero digest for it, a version-control directory that the walk skips,
    a package-lock.json with entries without integrity hash, another one
    that does not decode, and a go.sum with a conflicting duplicate. *)

Definition newline : string := String Bufio.lineFeed "".

Definition zeroDigest : string :=
  "0000000000000000000000000000000000000000000000000000000000000000".

Definition demoTree : DirEntry :=
  DirectoryEntry "demo"
    [ DirectoryEntry ".git" [FileEntry "objects.zip"] false;
      DirectoryEntry "broken" [FileEntry "package-lock.json"] false;
      FileEntry "go.sum";
      FileEntry "package-lock.json";
      DirectoryEntry "release"
        [FileEntry "SHA256SUMS"; FileEntry "myapp.tar.gz"; FileEntry "yarn.lock"] false ]
    false.

Definition demoManifest : string :=
  "# release 1.2.0" +:+ newline
  +:+ zeroDigest +:+ "  myapp.tar.gz" +:+ newline
  +:+ zeroDigest +:+ "  *missing.tar.gz" +:+ newline
  +:+ "d41d8cd98f00b204e9800998ecf8427e  myapp.tar.gz" +:+ newline.

Definition demoGoSum : string :=
  "example.com/m v1.0.0 h1:aaaa=" +:+ newline
  +:+ "example.com/m v1.0.0/go.mod h1:bbbb=" +:+ newline
  +:+ "example.com/m v1.0.0 h1:cccc=" +:+ newline.

Definition demoLockfile : npmLockfile :=
  mkNpmLockfile
    (<["" := mkNpmPackage "1.0.0" "https://registry.example/my-app.tgz" ""]>
       (<["node_modules/lodash" :=
            mkNpmPackage "4.17.21" "https://registry.example/lodash.tgz" ""]>
          (<["node_modules/semver" :=
               mkNpmPackage "7.6.0" "https://registry.example/semver.tgz" "sha512-x"]>
             (<["node_modules/unsafe-pkg" :=
                  mkNpmPackage "0.0.1" "https://registry.example/unsafe.tgz" ""]> ∅)))).

Definition demoFS : FileSystem :=
  mkFileSystem
    (λ root, if bool_decide (root = "demo") then Some demoTree else None)
    (λ path,
       if bool_decide (path = "demo/release/SHA256SUMS") then Some demoManifest
       else if bool_decide (path = "demo/release/myapp.tar.gz")
            then Some ("binary content" +:+ newline)
       else if bool_decide (path = "demo/go.sum") then Some demoGoSum
       else if bool_decide (path = "demo/package-lock.json") then Some "{..}"
       else if bool_decide (path = "demo/broken/package-lock.json") then Some "{"
       else None).

(** A decoder for the documents of the example. *)
Definition demoDecoder (data : string) : option npmLockfile :=
  if bool_decide (data = "{..}") then Some demoLockfile else None.

(** Two orders of [range]: that of the map's list of entries, and its
    reverse. *)
Definition listOrder (path : string) (m : gmap string npmPackage)
  : list (string * npmPackage) := map_to_list m.
Definition reverseOrder (path : string) (m : gmap string npmPackage)
  : list (string * npmPackage) := reverse (map_to_list m).

Definition demoFileSet : gset string :=
  fileSet (WalkDir Background demoFS "demo" (mkWalkState [] ∅ 0)).1.


(** ** Notions used in the further properties *)

(** The files a walk has to collect below [path]: every entry that is not a
    directory, depth first in the order of the listings, except what lies
    in a directory with a skipped name. *)
Fixpoint treeFiles (path : string) (d : DirEntry) {struct d} : list string :=
  match d with
  | FileEntry _ => [path]
  | DirectoryEntry name entries _ =>
      if index skippedDirs name then []
      else flat_map (λ e, treeFiles (Filepath.Join path (entryName e)) e) entries
  end.

(** The files of the workspace of a request. *)
Definition workspaceFiles (fs : FileSystem) (root : string) : list string :=
  match Lstat fs root with
  | Some d => treeFiles root d
  | None => []
  end.

(** What a part of the walk adds to the state: [files] at the end of the
    list, and the same paths to the index. *)
Definition collected (files : list string) (st st' : WalkState) : Prop :=
  allFiles st' = allFiles st ++ files
  ∧ fileSet st' = list_to_set files ∪ fileSet st.

(** A part of the walk that has [files] to collect from state [st] and ends
    with [r]: it never ends with [SkipDir], it has collected the first of
    [files], and all of them when it ends without error. *)
Definition walkCollects (files : list string) (st : WalkState)
    (r : WalkState * option WalkError) : Prop :=
  r.2 ≠ Some SkipDir
  ∧ ∃ got, got `prefix_of` files ∧ collected got st r.1
           ∧ (r.2 = None → got = files).

(** The entries a walk visits below a directory entry, itself included: the
    walk polls the context once at each of them. *)
Fixpoint treeEntries (d : DirEntry) : nat :=
  match d with
  | FileEntry _ => 1
  | DirectoryEntry name entries _ =>
      if index skippedDirs name then 1
      else S (sum_list (map treeEntries entries))
  end.

Definition workspaceEntries (fs : FileSystem) (root : string) : nat :=
  match Lstat fs root with
  | Some d => treeEntries d
  | None => 0
  end.

(** The first [n] polls of the context see it live. *)
Definition liveFor (ctx : Context) (n : nat) : Prop :=
  ∀ p, p < n → ctxErr ctx p = None.

(** The findings of the two artifact checks. *)
Definition missingChecksumFinding (path name : string) : Finding :=
  mkFinding "ARTINT-001" SeverityHigh ConfidenceHigh
    ("Release artifact " +:+ name +:+ " has no corresponding checksum file")
    path 0 0
    (<["type" := "missing_checksum"]> (<["artifact" := name]> ∅)).

Definition unsignedArtifactFinding (path name : string) : Finding :=
  mkFinding "ARTINT-002" SeverityMedium ConfidenceMedium
    ("Release artifact " +:+ name +:+ " has no signature file (.sig, .asc)")
    path 0 0
    (<["type" := "unsigned_artifact"]> (<["artifact" := name]> ∅)).

(** The findings the file at [path], named [name], can give rise to: a
    release artifact those of a missing checksum and of a missing signature;
    a checksum manifest a mismatch at one of its lines; go.sum a conflicting
    duplicate at one of its lines; and package-lock.json an entry without
    integrity hash. *)
Definition findingFor (path name : string) (f : Finding) : Prop :=
  (isReleaseArtifact name = true
   ∧ (f = missingChecksumFinding path name ∨ f = unsignedArtifactFinding path name))
  ∨ (index checksumFileNames name = true
     ∧ ∃ lineNum referenced declared actual,
         0 < lineNum ∧ f = mismatchFinding path lineNum referenced declared actual)
  ∨ (name = "go.sum"
     ∧ ∃ lineNum module ver,
         0 < lineNum ∧ f = conflictFinding path lineNum module ver)
  ∨ (name = "package-lock.json"
     ∧ ∃ pkgPath pkg,
         pkgPath ≠ "" ∧ f = missingIntegrityFinding path pkgPath pkg).



(** Findings in the order of their lines, at most one per line, at lines
    [lo + 1] to [hi]. *)
Definition inLineOrder (lo hi : nat) (found : list Finding) : Prop :=
  (∀ i j f g, i < j → found !! i = Some f → found !! j = Some g →
              StartLine f < StartLine g)
  ∧ ∀ f, f ∈ found → lo < StartLine f ≤ hi.

(** Every byte of [s] satisfies [p]. *)
Fixpoint allOf (p : ascii → bool) (s : string) : bool :=
  match s with
  | EmptyString => true
  | String c r => p c && allOf p r
  end.

(** [s] does not start with a byte that satisfies [p]. *)
Definition notAhead (p : ascii → bool) (s : string) : bool :=
  match s with
  | EmptyString => true
  | String c _ => negb (p c)
  end.

(** The shape of a line that [reGoSumLine] matches: a module path, a version
    and a hash that starts with [h1:], none of them empty and none with
    white space inside, separated by white space. *)
Definition goSumShape (line module ver hash : string) : Prop :=
  ∃ gap1 gap2 tail,
    line = module +:+ gap1 +:+ ver +:+ gap2 +:+ hash
    ∧ hash = "h1:" +:+ tail
    ∧ module ≠ "" ∧ allOf Regexp.notWhite module = true
    ∧ gap1 ≠ "" ∧ allOf Regexp.isWhite gap1 = true
    ∧ ver ≠ "" ∧ allOf Regexp.notWhite ver = true
    ∧ gap2 ≠ "" ∧ allOf Regexp.isWhite gap2 = true
    ∧ tail ≠ "" ∧ allOf Regexp.notWhite tail = true.

(** The shape of a line that [reChecksumLine] matches: 32 to 128
    hexadecimal digits, white space, and a name without line feed. *)
Definition checksumShape (line hash name : string) : Prop :=
  ∃ gap,
    line = hash +:+ gap +:+ name
    ∧ allOf Regexp.isHexDigit hash = true
    ∧ 32 ≤ String.length hash ≤ 128
    ∧ gap ≠ "" ∧ allOf Regexp.isWhite gap = true
    ∧ name ≠ "" ∧ allOf Regexp.anyChar name = true.



(** An entry of [packages] that the lockfile check reports: not the root
    package, resolved from somewhere, and without integrity hash. *)
Definition lacksIntegrity (entry : string * npmPackage) : bool :=
  bool_decide (entry.1 ≠ "") && bool_decide (Integrity entry.2 = "")
  && bool_decide (Resolved entry.2 ≠ "").

(** The name of a directory entry: not empty, not [.] or [..], and without
    separator. *)
Definition simpleName (name : string) : Prop :=
  name ≠ "" ∧ name ≠ "." ∧ name ≠ ".." ∧ hasByte "/" name = false.

(** The stack of elements [Clean] is left with, and the path it makes of a
    stack. *)
Definition cleanStack (path : string) : list string :=
  fold_left (Filepath.cleanStep (Filepath.isRooted path)) (Strings.Split path "/") [].

Definition cleanPath (rooted : bool) (stack : list string) : string :=
  let body := Strings.Join (rev stack) "/" in
  if rooted then "/" +:+ body
  else if decide (body = "") then "." else body.

(** A stack as [Clean] builds it: names above, and below them, in a path
    that is not rooted, the [..] elements that could not be resolved; no
    element holds a separator. *)
Definition cleaned (rooted : bool) (stack : list string) : Prop :=
  ∃ names dots,
    stack = names ++ dots
    ∧ Forall (λ e, e ≠ "" ∧ e ≠ "." ∧ e ≠ "..") names
    ∧ Forall (λ e, e = "..") dots
    ∧ (rooted = true → dots = [])
    ∧ Forall (λ e, hasByte "/" e = false) stack.

(** The listing [entries] of the directory at [dirPath] is one the walk
    below the entry [d] at [path] goes through. *)
Inductive visits : string → DirEntry → string → list DirEntry → Prop :=
| visits_here path name entries readDirFails :
    index skippedDirs name = false →
    visits path (DirectoryEntry name entries readDirFails) path entries
| visits_below path name entries readDirFails e dirPath listing :
    index skippedDirs name = false →
    e ∈ entries →
    visits (Filepath.Join path (entryName e)) e dirPath listing →
    visits path (DirectoryEntry name entries readDirFails) dirPath listing.

(** ** Further example workspaces

    A directory with an archive and its checksum companion but no
    signature; a directory with an archive and a manifest that declares the
    digest of the archive; a go.sum with the two lines of one module
    version; and a go.sum whose first line does not fit the buffer of the
    scanner, followed by a conflicting duplicate. *)

Definition distTree : DirEntry :=
  DirectoryEntry "dist"
    [FileEntry "myapp.tar.gz"; FileEntry "myapp.tar.gz.sha256"] false.

Definition distFS : FileSystem :=
  mkFileSystem
    (λ root, if bool_decide (root = "dist") then Some distTree else None)
    (λ path, None).




Fixpoint replicateByte (n : nat) (c : ascii) : string :=
  match n with
  | O => ""
  | S n' => String c (replicateByte n' c)
  end.

Definition longLine : string := replicateByte Bufio.MaxScanTokenSize "0".

Definition longGoSum : string := "" +:+ longLine +:+ newline +:+ demoGoSum.

(** A tree as a file system holds it: in every listing the names are
    simple and no name occurs twice. *)
Unset Elimination Schemes.
Inductive wellFormed : DirEntry → Prop :=
| wellFormed_file name : wellFormed (FileEntry name)
| wellFormed_directory name entries readDirFails :
    Forall (λ e, simpleName (entryName e)) entries →
    NoDup (map entryName entries) →
    Forall wellFormed entries →
    wellFormed (DirectoryEntry name entries readDirFails).
Set Elimination Schemes.

(** * Properties *)

(** ** The models of the Go library on examples *)

Example Clean_examples :
  map Filepath.Clean ["a//b/./c/.."; "/../a"; "../../x/.."; ""; "/"; "a/.."; "./demo/"]
  = ["a/b"; "/a"; "../.."; "."; "/"; "."; "demo"].
Proof. reflexivity. Qed.

Example Join_Base_Dir_examples :
  (Filepath.Join "/r/rel" "app.tar.gz.sha256", Filepath.Join "." "x.zip",
   Filepath.Join "/" "x", Filepath.Join "a" "", Filepath.Join "" "")
  = ("/r/rel/app.tar.gz.sha256", "x.zip", "/x", "a", "")
  ∧ map Filepath.Base ["/r/rel/app.tar.gz"; "x"; "a/b/"; "///"; ""]
    = ["app.tar.gz"; "x"; "b"; "/"; "."]
  ∧ map Filepath.Dir ["/r/rel/app.tar.gz"; "x"; "/x"; "a/b/"; "./a.zip"]
    = ["/r/rel"; "."; "/"; "a/b"; "."].
Proof. repeat split; reflexivity. Qed.

Example Sum256_empty :
  Hex.EncodeToString (Sha256.Sum256 "")
  = "e3b0c44298fc1c149afbf4c8996fb92427ae41e4649b934ca495991b7852b855".
Proof. vm_compute. reflexivity. Qed.

Example Sum256_abc :
  Hex.EncodeToString (Sha256.Sum256 "abc")
  = "ba7816bf8f01cfea414140de5dae2223b00361a396177a9cb410ff61f20015ad".
Proof. vm_compute. reflexivity. Qed.

Example scanFrom_examples :
  let lf := String Bufio.lineFeed "" in
  let cr := String Bufio.carriageReturn "" in
  Bufio.Lines ("a" +:+ cr +:+ lf +:+ lf +:+ " b " +:+ lf +:+ "c")
    = ["a"; ""; " b "; "c"]
  ∧ Bufio.Lines ("a" +:+ lf) = ["a"]
  ∧ Bufio.Lines "" = []
  ∧ Bufio.scanFrom 4 "" ("ab" +:+ lf +:+ "abcd" +:+ lf +:+ "x" +:+ lf) = ["ab"]
  ∧ Bufio.scanFrom 4 "" ("abc" +:+ lf +:+ "abcd") = ["abc"].
Proof. repeat split; reflexivity. Qed.

Example reChecksumLine_examples :
  let h := "00000000000000000000000000000000" in
  reChecksumLine (h +:+ h +:+ "  myapp.tar.gz")
    = [h +:+ h +:+ "  myapp.tar.gz"; h +:+ h; "myapp.tar.gz"]
  ∧ reChecksumLine (h +:+ " *a b") = [h +:+ " *a b"; h; "*a b"]
  ∧ reChecksumLine ("0000000000000000000000000000000  x") = []
  ∧ reChecksumLine (h +:+ h +:+ h +:+ h +:+ "0 x") = []
  ∧ reChecksumLine (h +:+ "x") = []
  ∧ reChecksumLine (h +:+ "  ") = [h +:+ "  "; h; " "]
  ∧ reChecksumLine ("# " +:+ h +:+ " x") = [].
Proof. vm_compute. repeat split. Qed.

Example reGoSumLine_examples :
  reGoSumLine "golang.org/x/text v0.3.0 h1:abc="
    = ["golang.org/x/text v0.3.0 h1:abc="; "golang.org/x/text"; "v0.3.0"; "h1:abc="]
  ∧ reGoSumLine "m v1 h1:" = []
  ∧ reGoSumLine "m v1 sha:abc" = []
  ∧ reGoSumLine "m v1 h1:a b" = []
  ∧ reGoSumLine "m   v1/go.mod	h1:x" = ["m   v1/go.mod	h1:x"; "m"; "v1/go.mod"; "h1:x"]
  ∧ reGoSumLine "m v1" = [].
Proof. vm_compute. repeat split. Qed.

(** ** The response builder *)

Lemma Done_chain2 resp rule sev conf msg file l1 l2 k1 v1 k2 v2 :
  (NewFinding resp rule sev conf msg |> At file l1 l2
   |> WithMetadata k1 v1 |> WithMetadata k2 v2 |> Done)
  = resp ++ [mkFinding rule sev conf msg file l1 l2 (<[k2 := v2]> (<[k1 := v1]> ∅))].
Proof. reflexivity. Qed.

Lemma Done_chain3 resp rule sev conf msg file l1 l2 k1 v1 k2 v2 k3 v3 :
  (NewFinding resp rule sev conf msg |> At file l1 l2
   |> WithMetadata k1 v1 |> WithMetadata k2 v2 |> WithMetadata k3 v3 |> Done)
  = resp ++ [mkFinding rule sev conf msg file l1 l2
               (<[k3 := v3]> (<[k2 := v2]> (<[k1 := v1]> ∅)))].
Proof. reflexivity. Qed.

(** ** Loops over the fixed tables do not depend on the order of [range] *)

Lemma existsb_elem_of {A} (f : A → bool) (l : list A) :
  existsb f l = true ↔ ∃ x, x ∈ l ∧ f x = true.
Proof.
  rewrite existsb_exists. split; intros (x & Hx & Hf); exists x; split; auto;
    by apply list_elem_of_In.
Qed.

Lemma existsb_Permutation {A} (f : A → bool) (l1 l2 : list A) :
  l1 ≡ₚ l2 → existsb f l1 = existsb f l2.
Proof.
  intros Hp. apply eq_true_iff_eq. rewrite !existsb_elem_of.
  split; intros (x & Hx & Hf); exists x; split; auto.
  - by rewrite <- Hp.
  - by rewrite Hp.
Qed.

Lemma hasCompanionFile_order name dir fileSet exts1 exts2 :
  exts1 ≡ₚ exts2 →
  hasCompanionFile name dir fileSet exts1 = hasCompanionFile name dir fileSet exts2.
Proof. apply existsb_Permutation. Qed.

Lemma hasCompanionFile_spec name dir fileSet exts :
  hasCompanionFile name dir fileSet exts = true
  ↔ ∃ ext, ext ∈ exts ∧ Filepath.Join dir (name +:+ ext) ∈ fileSet.
Proof.
  unfold hasCompanionFile. rewrite existsb_elem_of.
  split; intros (ext & Hin & H); exists ext; split; auto.
  - by apply bool_decide_eq_true in H.
  - by apply bool_decide_eq_true.
Qed.

Lemma hasManifest_spec dir (fileSet : gset string) :
  existsb (λ csName, bool_decide (Filepath.Join dir csName ∈ fileSet)) checksumFileNames
    = true
  ↔ ∃ csName, csName ∈ checksumFileNames ∧ Filepath.Join dir csName ∈ fileSet.
Proof.
  rewrite existsb_elem_of.
  split; intros (cs & Hin & H); exists cs; split; auto.
  - by apply bool_decide_eq_true in H.
  - by apply bool_decide_eq_true.
Qed.

(** ** The name classes are disjoint: a release artifact is neither a
    checksum manifest nor a lockfile. *)

Ltac table_cases H :=
  unfold index in H; apply bool_decide_eq_true in H;
  repeat (apply elem_of_cons in H; destruct H as [H | H]; [subst |]);
  [.. | by apply elem_of_nil in H].

Lemma manifest_not_artifact name :
  index checksumFileNames name = true → isReleaseArtifact name = false.
Proof. intros H. table_cases H; reflexivity. Qed.

Lemma lockfile_not_artifact name :
  index lockfileNames name = true → isReleaseArtifact name = false.
Proof. intros H. table_cases H; reflexivity. Qed.

Lemma lockfile_not_manifest name :
  index lockfileNames name = true → index checksumFileNames name = false.
Proof. intros H. table_cases H; reflexivity. Qed.

Lemma artifact_only name :
  isReleaseArtifact name = true →
  index checksumFileNames name = false ∧ index lockfileNames name = false.
Proof.
  intros Ha. split.
  - destruct (index checksumFileNames name) eqn:E; [| done].
    apply manifest_not_artifact in E. congruence.
  - destruct (index lockfileNames name) eqn:E; [| done].
    apply lockfile_not_artifact in E. congruence.
Qed.

Section ArtifactChecks.

Variable json_Unmarshal : string → option npmLockfile.
Variable rangeOrder : string → gmap string npmPackage → list (string * npmPackage).

(** For a release artifact the loop body runs the two companion checks and
    nothing else. *)
Lemma analyzeFile_artifact fs (fileSet : gset string) resp path :
  isReleaseArtifact (Filepath.Base path) = true →
  analyzeFile json_Unmarshal rangeOrder fs fileSet resp path
  = checkUnsignedArtifact
      (checkMissingChecksum resp path (Filepath.Base path) (Filepath.Dir path) fileSet)
      path (Filepath.Base path) (Filepath.Dir path) fileSet.
Proof.
  intros Ha. unfold analyzeFile. rewrite Ha.
  destruct (artifact_only _ Ha) as [-> ->]. reflexivity.
Qed.



End ArtifactChecks.

(** ** Loops over the lines of a file *)


Lemma filter_none {A} (P : A → Prop) `{!∀ x, Decision (P x)} (l : list A) :
  (∀ x, x ∈ l → ¬ P x) → filter P l = [].
Proof.
  induction l as [| a l IH]; intros Hl; [done |].
  rewrite filter_cons_False by (apply Hl; left).
  apply IH. intros x Hx. apply Hl. by right.
Qed.

Lemma filter_all {A} (P : A → Prop) `{!∀ x, Decision (P x)} (l : list A) :
  (∀ x, x ∈ l → P x) → filter P l = l.
Proof.
  induction l as [| a l IH]; intros Hl; [done |].
  rewrite filter_cons_True by (apply Hl; left).
  f_equal. apply IH. intros x Hx. apply Hl. by right.
Qed.

(** ** Strings *)







(** ** The checksum manifest verifier *)

Arguments Sha256.Sum256 : simpl never.
Arguments Hex.EncodeToString : simpl never.
Arguments Filepath.Join : simpl never.
Arguments Strings.TrimSpace : simpl never.
Arguments Strings.TrimPrefix : simpl never.
Arguments reChecksumLine : simpl never.
Arguments reGoSumLine : simpl never.

Section ChecksumManifest.

Variable fs : FileSystem.
Variables checksumFilePath dir : string.


Lemma checksumLine_emits resp lineNum text :
  checksumLine fs checksumFilePath dir resp lineNum text
  = resp ++ checksumLine fs checksumFilePath dir [] lineNum text.
Proof.
  unfold checksumLine.
  repeat match goal with
         | |- context [if ?b then _ else _] => destruct b
         | |- context [match ReadFile ?f ?p with _ => _ end] => destruct (ReadFile f p)
         end;
    rewrite ?Done_chain2, ?app_nil_r; reflexivity.
Qed.

Lemma checksumLine_at lineNum text f :
  f ∈ checksumLine fs checksumFilePath dir [] lineNum text →
  StartLine f = lineNum ∧ RuleId f = "ARTINT-003".
Proof.
  unfold checksumLine.
  repeat match goal with
         | |- context [if ?b then _ else _] => destruct b
         | |- context [match ReadFile ?f ?p with _ => _ end] => destruct (ReadFile f p)
         end;
    rewrite ?Done_chain2; intros Hf;
    try (by apply elem_of_nil in Hf).
  apply list_elem_of_singleton in Hf. by subst.
Qed.

Lemma checksumLoop_emits lines lineNum resp :
  scanLoop (checksumLine fs checksumFilePath dir) lines lineNum resp
  = resp ++ scanLoop (checksumLine fs checksumFilePath dir) lines lineNum [].
Proof.
  revert lineNum resp. induction lines as [| t lines IH]; intros n resp; simpl.
  - by rewrite app_nil_r.
  - rewrite IH, (IH _ (checksumLine fs checksumFilePath dir [] _ _)), checksumLine_emits.
    by rewrite app_assoc.
Qed.


Lemma checksumLoop_file lines lineNum f :
  f ∈ scanLoop (checksumLine fs checksumFilePath dir) lines lineNum [] →
  LocationFile f = checksumFilePath.
Proof.
  revert lineNum. induction lines as [| t lines IH]; intros n; simpl.
  - intros Hf. by apply elem_of_nil in Hf.
  - rewrite checksumLoop_emits. intros [Hf | Hf]%elem_of_app; [| by apply IH in Hf].
    revert Hf. unfold checksumLine.
    repeat match goal with
           | |- context [if ?b then _ else _] => destruct b
           | |- context [match ReadFile ?f ?p with _ => _ end] => destruct (ReadFile f p)
           end;
      rewrite ?Done_chain2; intros Hf;
      try (by apply elem_of_nil in Hf).
    apply list_elem_of_singleton in Hf. by subst.
Qed.



End ChecksumManifest.



(** ** The go.sum auditor *)


(** The key determines the pair when the module paths hold no [@], as in
    every go.sum that the go command writes. *)
Lemma goSumKey_inj module ver module' ver' :
  hasByte "@" module = false → hasByte "@" module' = false →
  goSumKey module ver = goSumKey module' ver' →
  module = module' ∧ ver = ver'.
Proof.
  unfold goSumKey. revert module'.
  induction module as [| c r IH]; intros [| c' r'] Hm Hm' Hkey;
    cbv beta iota delta [String.append] in Hkey; fold String.append in Hkey;
    cbn [hasByte] in Hm, Hm'.
  - by injection Hkey as ->.
  - injection Hkey as <- _. by rewrite Ascii.eqb_refl in Hm'.
  - injection Hkey as -> _. by rewrite Ascii.eqb_refl in Hm.
  - injection Hkey as -> Hkey.
    apply orb_false_iff in Hm as [_ Hm]. apply orb_false_iff in Hm' as [_ Hm'].
    destruct (IH r' Hm Hm' Hkey) as [-> ->]. done.
Qed.

(** In a file whose module paths hold no [@], the hash recorded for a key is
    the hash recorded for the pair. *)
Lemma recorded_recordedFor module ver earlier :
  hasByte "@" module = false →
  (∀ text module' ver' hash,
     text ∈ earlier → goSumEntry text = Some (module', ver', hash) →
     hasByte "@" module' = false) →
  recorded (goSumKey module ver) earlier = recordedFor module ver earlier.
Proof.
  intros Hm Hall. unfold recorded, recordedFor. f_equal.
  induction earlier as [| text earlier IH]; [done |].
  cbn [omap list_omap].
  rewrite IH by (intros t m' v' h' Ht; apply Hall; by right).
  destruct (goSumEntry text) as [[[module' ver'] hash] |] eqn:E; [| done].
  assert (Hm' : hasByte "@" module' = false).
  { apply (Hall text module' ver' hash); [by left | done]. }
  destruct (bool_decide_reflect (goSumKey module' ver' = goSumKey module ver))
    as [Hk | Hk].
  - destruct (goSumKey_inj _ _ _ _ Hm' Hm Hk) as [-> ->].
    by rewrite bool_decide_eq_true_2.
  - rewrite bool_decide_eq_false_2; [done |]. intros [= -> ->]. by apply Hk.
Qed.

Section GoSum.

Variable filePath : string.

(** The body of the loop in terms of the entry of the line. *)
Lemma goSumLine_entry resp (seen : gmap string string) lineNum text :
  goSumLine filePath (resp, seen) lineNum text =
    match goSumEntry text with
    | None => (resp, seen)
    | Some (module, ver, hash) =>
        let key := goSumKey module ver in
        (match seen !! key with
         | Some existing =>
             if bool_decide (existing ≠ hash)
             then resp ++ [conflictFinding filePath lineNum module ver]
             else resp
         | None => resp
         end, <[key := hash]> seen)
    end.
Proof.
  unfold goSumLine, goSumEntry.
  destruct (bool_decide (Strings.TrimSpace text = "")); [done |].
  destruct (reGoSumLine (Strings.TrimSpace text))
    as [| whole [| module [| ver [| hash [| extra l]]]]]; done.
Qed.

Lemma goSumLine_emits resp seen lineNum text :
  goSumLine filePath (resp, seen) lineNum text
  = (resp ++ (goSumLine filePath ([], seen) lineNum text).1,
     (goSumLine filePath ([], seen) lineNum text).2).
Proof.
  rewrite !goSumLine_entry.
  destruct (goSumEntry text) as [[[module ver] hash] |]; simpl;
    [| by rewrite app_nil_r].
  destruct (seen !! goSumKey module ver) as [existing |]; [| by rewrite app_nil_r].
  destruct (bool_decide (existing ≠ hash)); by rewrite ?app_nil_r.
Qed.

Lemma goSumLine_at seen lineNum text f :
  f ∈ (goSumLine filePath ([], seen) lineNum text).1 → StartLine f = lineNum.
Proof.
  rewrite goSumLine_entry.
  destruct (goSumEntry text) as [[[module ver] hash] |]; simpl;
    [| by intros ?%elem_of_nil].
  destruct (seen !! goSumKey module ver) as [existing |]; [| by intros ?%elem_of_nil].
  destruct (bool_decide (existing ≠ hash)); [| by intros ?%elem_of_nil].
  intros Hf. apply list_elem_of_singleton in Hf. by subst.
Qed.

Lemma goSumLoop_emits lines lineNum resp seen :
  scanLoop (goSumLine filePath) lines lineNum (resp, seen)
  = (resp ++ (scanLoop (goSumLine filePath) lines lineNum ([], seen)).1,
     (scanLoop (goSumLine filePath) lines lineNum ([], seen)).2).
Proof.
  revert lineNum resp seen.
  induction lines as [| t lines IH]; intros n resp seen; cbn [scanLoop].
  - by rewrite app_nil_r.
  - rewrite goSumLine_emits.
    destruct (goSumLine filePath ([], seen) (S n) t) as [emitted seen'] eqn:E.
    cbn [fst snd].
    rewrite IH, (IH _ emitted). cbn [fst snd]. by rewrite app_assoc.
Qed.

Lemma goSumLoop_at lines lineNum seen f :
  f ∈ (scanLoop (goSumLine filePath) lines lineNum ([], seen)).1 →
  lineNum < StartLine f ≤ lineNum + length lines.
Proof.
  revert lineNum seen.
  induction lines as [| t lines IH]; intros n seen; cbn [scanLoop length].
  - by intros ?%elem_of_nil.
  - destruct (goSumLine filePath ([], seen) (S n) t) as [emitted seen'] eqn:E.
    rewrite goSumLoop_emits. cbn [fst snd]. intros [Hf | Hf]%elem_of_app.
    + assert (Hat : StartLine f = S n)
        by (apply (goSumLine_at seen (S n) t); by rewrite E).
      lia.
    + apply IH in Hf. lia.
Qed.

Lemma goSumLoop_file lines lineNum seen f :
  f ∈ (scanLoop (goSumLine filePath) lines lineNum ([], seen)).1 →
  LocationFile f = filePath.
Proof.
  revert lineNum seen.
  induction lines as [| t lines IH]; intros n seen; cbn [scanLoop].
  - by intros ?%elem_of_nil.
  - destruct (goSumLine filePath ([], seen) (S n) t) as [emitted seen'] eqn:E.
    rewrite goSumLoop_emits. cbn [fst snd].
    intros [Hf | Hf]%elem_of_app; [| by apply IH in Hf].
    rewrite goSumLine_entry in E.
    destruct (goSumEntry t) as [[[module ver] hash] |]; cbn zeta in E;
      [| injection E as <- _; by apply elem_of_nil in Hf].
    destruct (seen !! goSumKey module ver) as [existing |];
      [| injection E as <- _; by apply elem_of_nil in Hf].
    destruct (bool_decide (existing ≠ hash)); injection E as <- _;
      [| by apply elem_of_nil in Hf].
    apply list_elem_of_singleton in Hf. by subst.
Qed.



End GoSum.


(** C9. The key of [seen] is the concatenation [module@version]: there is a
    go.sum file whose two lines carry distinct (module, version) pairs,
    module [a@b] with version [c] and module [a] with version [b@c], that
    share one key, and scanning it emits an ARTINT-003 conflict finding at
    the second line although no pair occurs twice. *)
Theorem goSum_key_collision :
  ∃ content : string,
    omap goSumEntry (Bufio.Lines content)
      = [("a@b", "c", "h1:x"); ("a", "b@c", "h1:y")]
    ∧ ("a@b", "c") ≠ ("a", "b@c")
    ∧ goSumKey "a@b" "c" = goSumKey "a" "b@c"
    ∧ ∀ json_Unmarshal rangeOrder,
        handleScan json_Unmarshal rangeOrder Background
          (singleFile "go.sum" content) (scanRequest "go.sum")
        = Response [conflictFinding "go.sum" 2 "a" "b@c"].
Proof.
  exists ("a@b c h1:x" +:+ String Bufio.lineFeed "a b@c h1:y" +:+ String Bufio.lineFeed "").
  split; [by vm_compute |]. split; [discriminate |]. split; [reflexivity |].
  intros json_Unmarshal rangeOrder. by vm_compute.
Qed.

(** ** The lockfile auditor *)

Lemma npmEntry_cases filePath resp pkgPath pkg :
  npmEntry filePath resp (pkgPath, pkg)
  = if bool_decide (pkgPath ≠ "") && bool_decide (Integrity pkg = "")
       && bool_decide (Resolved pkg ≠ "")
    then resp ++ [missingIntegrityFinding filePath pkgPath pkg]
    else resp.
Proof.
  unfold npmEntry.
  destruct (bool_decide_reflect (pkgPath = "")) as [E | E].
  - rewrite (bool_decide_eq_false_2 (pkgPath ≠ "")) by tauto. reflexivity.
  - rewrite (bool_decide_eq_true_2 (pkgPath ≠ "")) by done. cbn [andb].
    by destruct (bool_decide (Integrity pkg = "") && bool_decide (Resolved pkg ≠ "")).
Qed.

Lemma npmLoop_emits filePath entries resp :
  fold_left (npmEntry filePath) entries resp
  = resp ++ flat_map (npmEntry filePath []) entries.
Proof.
  revert resp. induction entries as [| [pkgPath pkg] entries IH]; intros resp.
  - by rewrite app_nil_r.
  - cbn [fold_left flat_map]. rewrite IH, !npmEntry_cases.
    destruct (_ && _); by rewrite ?app_nil_r, <- ?app_assoc.
Qed.

Lemma npmEntry_package filePath pkgPath pkg f :
  f ∈ npmEntry filePath [] (pkgPath, pkg) →
  f = missingIntegrityFinding filePath pkgPath pkg ∧ pkgPath ≠ "".
Proof.
  rewrite npmEntry_cases.
  destruct (bool_decide_reflect (pkgPath ≠ "")) as [E | E]; cbn [andb];
    [| by intros ?%elem_of_nil].
  destruct (_ && _); [| by intros ?%elem_of_nil].
  intros Hf. apply list_elem_of_singleton in Hf. by subst.
Qed.

Lemma missingIntegrity_package filePath pkgPath pkg :
  Metadata (missingIntegrityFinding filePath pkgPath pkg) !! "package" = Some pkgPath.
Proof. reflexivity. Qed.

Lemma npmLoop_other filePath entries (key : string) :
  key ∉ entries.*1 →
  filter (λ f, Metadata f !! "package" = Some key)
         (flat_map (npmEntry filePath []) entries) = [].
Proof.
  intros Hkey. apply filter_none. intros f Hf.
  apply list_elem_of_In, in_flat_map in Hf as ([pkgPath pkg] & Hin & Hf).
  apply list_elem_of_In in Hin, Hf.
  apply npmEntry_package in Hf as [-> _].
  rewrite missingIntegrity_package. intros [= ->].
  apply Hkey. apply list_elem_of_fmap. by exists (key, pkg).
Qed.

(** Among the findings of a lockfile, those that carry the path of one
    package entry are the findings of that entry. *)
Lemma npmLoop_filter filePath entries key pkg :
  NoDup entries.*1 → (key, pkg) ∈ entries →
  filter (λ f, Metadata f !! "package" = Some key)
         (flat_map (npmEntry filePath []) entries)
  = npmEntry filePath [] (key, pkg).
Proof.
  induction entries as [| [k p] entries IH]; intros Hnd Hin.
  - by apply elem_of_nil in Hin.
  - cbn [fmap list_fmap fst] in Hnd. apply NoDup_cons in Hnd as [Hk Hnd].
    cbn [flat_map]. rewrite filter_app.
    apply elem_of_cons in Hin as [[= <- <-] | Hin].
    + rewrite npmLoop_other by exact Hk. rewrite app_nil_r.
      apply filter_all. intros f Hf. apply npmEntry_package in Hf as [-> _].
      apply missingIntegrity_package.
    + rewrite IH by done.
      rewrite (filter_none _ (npmEntry filePath [] (k, p))); [done |].
      intros f Hf. apply npmEntry_package in Hf as [-> _].
      rewrite missingIntegrity_package. intros [= ->].
      apply Hk. apply list_elem_of_fmap. by exists (key, pkg).
Qed.

Section Lockfiles.

Variable json_Unmarshal : string → option npmLockfile.
Variable rangeOrder : string → gmap string npmPackage → list (string * npmPackage).

Lemma analyzeFile_package_lock fs (fileSet : gset string) resp path :
  Filepath.Base path = "package-lock.json" →
  analyzeFile json_Unmarshal rangeOrder fs fileSet resp path
  = checkNPMLockfileIntegrity json_Unmarshal rangeOrder fs resp path.
Proof.
  intros Hbase. unfold analyzeFile, checkLockfileIntegrity. by rewrite Hbase.
Qed.

(** C4. For a file named package-lock.json that can be read: when the
    document decodes, every package entry with a non-empty key, a
    non-empty resolved URL and an empty integrity string has exactly one
    finding that carries its path (ARTINT-003, severity Critical,
    confidence High, metadata type missing_integrity, with the package
    path and the version); an entry with a non-empty integrity string has
    none; no finding carries the empty key of the root entry; and when the
    document does not decode, the file adds nothing to the response and the
    loop over the files goes on with the next file. *)
Theorem npm_lockfile_integrity fs (fileSet : gset string) path data :
  Filepath.Base path = "package-lock.json" →
  ReadFile fs path = Some data →
  (∀ m, rangeOrder path m ≡ₚ map_to_list m) →
  let found := analyzeFile json_Unmarshal rangeOrder fs fileSet [] path in
  match json_Unmarshal data with
  | Some lockfile =>
      (∀ pkgPath pkg,
         Packages lockfile !! pkgPath = Some pkg →
         let mine := filter (λ f, Metadata f !! "package" = Some pkgPath) found in
         (pkgPath ≠ "" → Resolved pkg ≠ "" → Integrity pkg = "" →
          ∃ f, mine = [f]
               ∧ RuleId f = "ARTINT-003"
               ∧ FindingSeverity f = SeverityCritical
               ∧ FindingConfidence f = ConfidenceHigh
               ∧ LocationFile f = path
               ∧ Metadata f !! "type" = Some "missing_integrity"
               ∧ Metadata f !! "package" = Some pkgPath
               ∧ Metadata f !! "version" = Some (Version pkg))
         ∧ (Integrity pkg ≠ "" → mine = []))
      ∧ filter (λ f, Metadata f !! "package" = Some "") found = []
  | None =>
      found = []
      ∧ ∀ ctx rest polls resp,
          ctxErr ctx polls = None →
          analyzeFiles json_Unmarshal rangeOrder ctx fs fileSet (path :: rest) polls resp
          = analyzeFiles json_Unmarshal rangeOrder ctx fs fileSet rest (S polls) resp
  end.
Proof.
  intros Hbase Hread Horder found.
  destruct (json_Unmarshal data) as [lockfile |] eqn:Hjson.
  - assert (Hfound : found
      = flat_map (npmEntry path []) (rangeOrder path (Packages lockfile))).
    { unfold found. rewrite analyzeFile_package_lock by done.
      unfold checkNPMLockfileIntegrity. rewrite Hread, Hjson.
      by rewrite npmLoop_emits. }
    rewrite Hfound. split.
    + intros pkgPath pkg Hpkg mine.
      assert (Hmine : mine = npmEntry path [] (pkgPath, pkg)).
      { unfold mine. apply npmLoop_filter.
        - rewrite (Horder (Packages lockfile)). apply NoDup_fst_map_to_list.
        - rewrite (Horder (Packages lockfile)). by apply elem_of_map_to_list. }
      rewrite Hmine, npmEntry_cases. split.
      * intros Hkey Hres Hint.
        rewrite !bool_decide_eq_true_2 by done. cbn [andb app].
        eexists. split; [reflexivity |]. by repeat split.
      * intros Hint. rewrite (bool_decide_eq_false_2 (Integrity pkg = "")) by done.
        by rewrite andb_false_r.
    + apply filter_none. intros f Hf.
      apply list_elem_of_In, in_flat_map in Hf as ([pkgPath pkg] & _ & Hf).
      apply list_elem_of_In, npmEntry_package in Hf as [-> Hkey].
      rewrite missingIntegrity_package. by intros [= ->].
  - assert (Hskip : ∀ resp,
      analyzeFile json_Unmarshal rangeOrder fs fileSet resp path = resp).
    { intros resp. rewrite analyzeFile_package_lock by done.
      unfold checkNPMLockfileIntegrity. by rewrite Hread, Hjson. }
    split; [apply Hskip |].
    intros ctx rest polls resp Hlive. cbn [analyzeFiles]. by rewrite Hlive, Hskip.
Qed.

(** C10. A file named yarn.lock, Gemfile.lock, poetry.lock, Cargo.lock or
    composer.lock never adds a finding: the lockfile dispatcher has no
    check for these names, and the analysis of such a file leaves the
    response as it was. *)
Theorem unchecked_lockfiles_silent fs (fileSet : gset string) resp path :
  Filepath.Base path ∈ uncheckedLockfiles →
  index lockfileNames (Filepath.Base path) = true
  ∧ checkLockfileIntegrity json_Unmarshal rangeOrder fs resp path = resp
  ∧ analyzeFile json_Unmarshal rangeOrder fs fileSet resp path = resp.
Proof.
  intros Hname. unfold analyzeFile, checkLockfileIntegrity.
  unfold uncheckedLockfiles in Hname.
  repeat (apply elem_of_cons in Hname; destruct Hname as [-> | Hname]);
    [by repeat split .. | by apply elem_of_nil in Hname].
Qed.

End Lockfiles.

(** ** The walk under a context *)

Lemma DirEntry_ind (P : DirEntry → Prop) :
  (∀ name, P (FileEntry name)) →
  (∀ name entries readDirFails,
     Forall P entries → P (DirectoryEntry name entries readDirFails)) →
  ∀ d, P d.
Proof.
  intros Hfile Hdir. fix IH 1. intros [name | name entries readDirFails].
  - apply Hfile.
  - apply Hdir. induction entries as [| d entries IHentries]; constructor.
    + apply IH.
    + exact IHentries.
Qed.

Lemma ctxErr_cause ctx n e : ctxErr ctx n = Some e → e = cause ctx.
Proof.
  unfold ctxErr. destruct (doneAt ctx) as [k |]; [| done].
  destruct (k <=? n)%nat; [| done]. by intros [= <-].
Qed.

Lemma ctxErr_mono ctx n m e : ctxErr ctx n = Some e → n ≤ m → ctxErr ctx m = Some e.
Proof.
  unfold ctxErr. destruct (doneAt ctx) as [k |]; [| done].
  destruct (Nat.leb_spec k n); [| done]. intros [= <-] Hnm.
  by rewrite (proj2 (Nat.leb_le k m)) by lia.
Qed.

Lemma walkFn_outcome ctx st path d err :
  walkOutcome ctx (walkFn ctx st path d err) (walkFn Background st path d err).
Proof.
  unfold walkFn, walkOutcome. destruct err; [done |].
  change (ctxErr Background (polls st)) with (@None ContextError).
  destruct (ctxErr ctx (polls st)) as [e |] eqn:E; cbn [fst snd].
  - split; [by apply ctxErr_cause in E |].
    apply (ctxErr_mono _ _ _ _ E). cbn. lia.
  - destruct d as [[name | name entries readDirFails] |]; try done.
    by destruct (index skippedDirs name).
Qed.

Lemma walkEntries_outcome ctx path entries :
  Forall (λ d, ∀ path st,
            walkOutcome ctx (walkDir ctx path d st) (walkDir Background path d st))
         entries →
  ∀ st, walkOutcome ctx (walkEntries (walkDir ctx) path entries st)
                    (walkEntries (walkDir Background) path entries st).
Proof.
  induction 1 as [| d entries Hd _ IH]; intros st; [done |].
  cbn [walkEntries].
  specialize (Hd (Filepath.Join path (entryName d)) st).
  unfold walkOutcome in Hd.
  destruct (walkDir ctx (Filepath.Join path (entryName d)) d st)
    as [st1 [[| e] |]]; cbn [fst snd] in Hd.
  - by rewrite Hd.
  - done.
  - rewrite Hd. apply IH.
Qed.

Lemma walkDir_outcome ctx d :
  ∀ path st, walkOutcome ctx (walkDir ctx path d st) (walkDir Background path d st).
Proof.
  induction d as [name | name entries readDirFails IH] using DirEntry_ind;
    intros path st; cbn [walkDir].
  - assert (H := walkFn_outcome ctx st path (Some (FileEntry name)) false).
    unfold walkOutcome in H.
    destruct (walkFn ctx st path (Some (FileEntry name)) false)
      as [st1 [[| e] |]]; cbn [fst snd] in H; try (by rewrite H); done.
  - assert (H := walkFn_outcome ctx st path
                   (Some (DirectoryEntry name entries readDirFails)) false).
    unfold walkOutcome in H.
    destruct (walkFn ctx st path (Some (DirectoryEntry name entries readDirFails)) false)
      as [st1 [[| e] |]]; cbn [fst snd] in H; try (by rewrite H); [done |].
    rewrite H.
    replace (if readDirFails
             then walkFn ctx st1 path (Some (DirectoryEntry name entries readDirFails)) true
             else (st1, None)) with (st1, @None WalkError) by (by destruct readDirFails).
    replace (if readDirFails
             then walkFn Background st1 path
                    (Some (DirectoryEntry name entries readDirFails)) true
             else (st1, None)) with (st1, @None WalkError) by (by destruct readDirFails).
    by apply walkEntries_outcome.
Qed.

Lemma WalkDir_outcome ctx fs root st :
  walkOutcome ctx (WalkDir ctx fs root st) (WalkDir Background fs root st)
  ∧ (WalkDir ctx fs root st).2 ≠ Some SkipDir.
Proof.
  unfold WalkDir. destruct (Lstat fs root) as [d |].
  - assert (H := walkDir_outcome ctx d root st). unfold walkOutcome in *.
    destruct (walkDir ctx root d st) as [st1 [[| e] |]]; cbn [fst snd] in *;
      rewrite ?H; done.
  - done.
Qed.

(** An error of [os.ReadDir] does not end the walk: the directory is walked
    with the entries that were returned. *)
Lemma walkDir_readDir_error ctx path name entries st :
  walkDir ctx path (DirectoryEntry name entries true) st
  = walkDir ctx path (DirectoryEntry name entries false) st.
Proof.
  cbn [walkDir]. unfold walkFn at 1 3.
  destruct (ctxErr ctx (polls st)); [done |].
  by destruct (index skippedDirs name).
Qed.

(** ** Every check appends to the response *)

Lemma checkMissingChecksum_emits resp path name dir (fileSet : gset string) :
  checkMissingChecksum resp path name dir fileSet
  = resp ++ checkMissingChecksum [] path name dir fileSet.
Proof.
  unfold checkMissingChecksum.
  destruct (hasCompanionFile _ _ _ _); [by rewrite app_nil_r |].
  destruct (existsb _ _); [by rewrite app_nil_r |].
  by rewrite !Done_chain2.
Qed.

Lemma checkUnsignedArtifact_emits resp path name dir (fileSet : gset string) :
  checkUnsignedArtifact resp path name dir fileSet
  = resp ++ checkUnsignedArtifact [] path name dir fileSet.
Proof.
  unfold checkUnsignedArtifact.
  destruct (hasCompanionFile _ _ _ _); [by rewrite app_nil_r |].
  by rewrite !Done_chain2.
Qed.

Lemma checkChecksumMismatches_emits fs resp checksumFilePath dir :
  checkChecksumMismatches fs resp checksumFilePath dir
  = resp ++ checkChecksumMismatches fs [] checksumFilePath dir.
Proof.
  unfold checkChecksumMismatches.
  destruct (ReadFile fs checksumFilePath); [| by rewrite app_nil_r].
  apply checksumLoop_emits.
Qed.

Lemma checkGoSumIntegrity_emits fs resp filePath :
  checkGoSumIntegrity fs resp filePath = resp ++ checkGoSumIntegrity fs [] filePath.
Proof.
  unfold checkGoSumIntegrity.
  destruct (ReadFile fs filePath); [| by rewrite app_nil_r].
  by rewrite goSumLoop_emits.
Qed.

Section Emits.

Variable json_Unmarshal : string → option npmLockfile.
Variable rangeOrder : string → gmap string npmPackage → list (string * npmPackage).

Lemma checkNPMLockfileIntegrity_emits fs resp filePath :
  checkNPMLockfileIntegrity json_Unmarshal rangeOrder fs resp filePath
  = resp ++ checkNPMLockfileIntegrity json_Unmarshal rangeOrder fs [] filePath.
Proof.
  unfold checkNPMLockfileIntegrity.
  destruct (ReadFile fs filePath) as [data |]; [| by rewrite app_nil_r].
  destruct (json_Unmarshal data); [| by rewrite app_nil_r].
  by rewrite npmLoop_emits, (npmLoop_emits _ _ []).
Qed.

Lemma checkLockfileIntegrity_emits fs resp filePath :
  checkLockfileIntegrity json_Unmarshal rangeOrder fs resp filePath
  = resp ++ checkLockfileIntegrity json_Unmarshal rangeOrder fs [] filePath.
Proof.
  unfold checkLockfileIntegrity.
  destruct (bool_decide _); [apply checkNPMLockfileIntegrity_emits |].
  destruct (bool_decide _); [apply checkGoSumIntegrity_emits |].
  by rewrite app_nil_r.
Qed.

Lemma analyzeFile_emits fs (fileSet : gset string) resp path :
  analyzeFile json_Unmarshal rangeOrder fs fileSet resp path
  = resp ++ analyzeFile json_Unmarshal rangeOrder fs fileSet [] path.
Proof.
  unfold analyzeFile.
  set (name := Filepath.Base path). set (dir := Filepath.Dir path).
  set (r1 := if isReleaseArtifact name then _ else resp).
  set (e1 := if isReleaseArtifact name then _ else []).
  assert (H1 : r1 = resp ++ e1).
  { unfold r1, e1. destruct (isReleaseArtifact name); [| by rewrite app_nil_r].
    rewrite checkUnsignedArtifact_emits, checkMissingChecksum_emits.
    rewrite (checkUnsignedArtifact_emits (checkMissingChecksum [] _ _ _ _)).
    by rewrite app_assoc. }
  set (r2 := if index checksumFileNames name then _ else r1).
  set (e2 := if index checksumFileNames name then _ else e1).
  assert (H2 : r2 = resp ++ e2).
  { unfold r2, e2. destruct (index checksumFileNames name); [| done].
    rewrite checkChecksumMismatches_emits, H1.
    rewrite (checkChecksumMismatches_emits _ e1). by rewrite app_assoc. }
  destruct (index lockfileNames name); [| done].
  rewrite checkLockfileIntegrity_emits, H2.
  rewrite (checkLockfileIntegrity_emits _ e2). by rewrite app_assoc.
Qed.

Lemma analyzeFiles_emits ctx fs (fileSet : gset string) files polls resp :
  analyzeFiles json_Unmarshal rangeOrder ctx fs fileSet files polls resp
  = resp ++ analyzeFiles json_Unmarshal rangeOrder ctx fs fileSet files polls [].
Proof.
  revert polls resp. induction files as [| path files IH]; intros n resp;
    cbn [analyzeFiles].
  - by rewrite app_nil_r.
  - destruct (ctxErr ctx n); [by rewrite app_nil_r |].
    rewrite IH, analyzeFile_emits.
    rewrite (IH _ (analyzeFile _ _ _ _ [] _)). by rewrite app_assoc.
Qed.

(** Without cancellation the findings of a scan are those of its files,
    in the order of the walk. *)
Lemma analyzeFiles_live fs (fileSet : gset string) files polls :
  analyzeFiles json_Unmarshal rangeOrder Background fs fileSet files polls []
  = flat_map (analyzeFile json_Unmarshal rangeOrder fs fileSet []) files.
Proof.
  revert polls. induction files as [| path files IH]; intros n; [done |].
  cbn [analyzeFiles flat_map]. change (ctxErr Background n) with (@None ContextError).
  by rewrite analyzeFiles_emits, IH.
Qed.

(** A scan that is cancelled returns a prefix of what it would have
    returned. *)
Lemma analyzeFiles_prefix ctx fs (fileSet : gset string) files polls polls' :
  ∃ rest,
    analyzeFiles json_Unmarshal rangeOrder Background fs fileSet files polls' []
    = analyzeFiles json_Unmarshal rangeOrder ctx fs fileSet files polls [] ++ rest.
Proof.
  revert polls polls'. induction files as [| path files IH]; intros n n'.
  - by exists [].
  - cbn [analyzeFiles]. change (ctxErr Background n') with (@None ContextError).
    destruct (ctxErr ctx n); [eexists; cbn [app]; reflexivity |].
    destruct (IH (S n) (S n')) as [rest Hrest].
    exists rest. rewrite analyzeFiles_emits, Hrest.
    rewrite (analyzeFiles_emits ctx _ _ _ _ (analyzeFile _ _ _ _ _ _)).
    by rewrite app_assoc.
Qed.

End Emits.

(** ** The scan as a whole *)

Section WholeScan.

Variable json_Unmarshal : string → option npmLockfile.
Variable rangeOrder : string → gmap string npmPackage → list (string * npmPackage).

Lemma analyzeFiles_done ctx fs (fileSet : gset string) files polls resp e :
  ctxErr ctx polls = Some e →
  analyzeFiles json_Unmarshal rangeOrder ctx fs fileSet files polls resp = resp.
Proof. intros He. destruct files; cbn [analyzeFiles]; by rewrite ?He. Qed.

Lemma WalkDir_live fs root st :
  (WalkDir Background fs root st).2 = None.
Proof.
  destruct (WalkDir_outcome Background fs root st) as [Hout Hskip].
  unfold walkOutcome in Hout.
  destruct (WalkDir Background fs root st) as [st1 [[| e] |]];
    cbn [fst snd] in *; [done | | done].
  by destruct Hout as [_ Hdone].
Qed.

(** A scan that is never cancelled reports the findings of the files of
    the walk, in its order. *)
Lemma handleScan_live fs req :
  handleScan json_Unmarshal rangeOrder Background fs req
  = if bool_decide (requestedRoot req = "") then Response []
    else
      let st := (WalkDir Background fs (requestedRoot req) (mkWalkState [] ∅ 0)).1 in
      Response (flat_map (analyzeFile json_Unmarshal rangeOrder fs (fileSet st) [])
                         (allFiles st)).
Proof.
  unfold handleScan. fold (requestedRoot req).
  destruct (bool_decide (requestedRoot req = "")); [done |].
  assert (H := WalkDir_live fs (requestedRoot req) (mkWalkState [] ∅ 0)).
  destruct (WalkDir Background fs (requestedRoot req) (mkWalkState [] ∅ 0))
    as [st err]. cbn [fst snd] in *. subst err.
  unfold Build, NewResponse. by rewrite analyzeFiles_live.
Qed.

(** Every finding of the analysis of a file is located at that file. *)
Lemma analyzeFile_located fs (fileSet : gset string) path f :
  f ∈ analyzeFile json_Unmarshal rangeOrder fs fileSet [] path →
  LocationFile f = path.
Proof.
  unfold analyzeFile.
  set (name := Filepath.Base path). set (dir := Filepath.Dir path).
  set (r1 := if isReleaseArtifact name then _ else []).
  assert (H1 : ∀ f, f ∈ r1 → LocationFile f = path).
  { unfold r1, checkMissingChecksum, checkUnsignedArtifact. intros g.
    repeat match goal with |- context [if ?b then _ else _] => destruct b end;
      rewrite ?Done_chain2; cbn [app];
      rewrite ?elem_of_cons, ?elem_of_nil; intuition (subst; reflexivity). }
  set (r2 := if index checksumFileNames name then _ else r1).
  assert (H2 : ∀ f, f ∈ r2 → LocationFile f = path).
  { unfold r2. destruct (index checksumFileNames name); [| exact H1].
    intros g. rewrite checkChecksumMismatches_emits.
    intros [Hg | Hg]%elem_of_app; [by apply H1 |].
    unfold checkChecksumMismatches in Hg.
    destruct (ReadFile fs path); [| by apply elem_of_nil in Hg].
    by apply checksumLoop_file in Hg. }
  destruct (index lockfileNames name); [| apply H2].
  rewrite checkLockfileIntegrity_emits.
  intros [Hf | Hf]%elem_of_app; [by apply H2 |].
  unfold checkLockfileIntegrity, checkNPMLockfileIntegrity, checkGoSumIntegrity in Hf.
  destruct (bool_decide _).
  - destruct (ReadFile fs path) as [data |]; [| by apply elem_of_nil in Hf].
    destruct (json_Unmarshal data) as [lockfile |]; [| by apply elem_of_nil in Hf].
    rewrite npmLoop_emits in Hf. cbn [app] in Hf.
    apply list_elem_of_In, in_flat_map in Hf as ([pkgPath pkg] & _ & Hf).
    by apply list_elem_of_In, npmEntry_package in Hf as [-> _].
  - destruct (bool_decide _); [| by apply elem_of_nil in Hf].
    destruct (ReadFile fs path); [| by apply elem_of_nil in Hf].
    by apply goSumLoop_file in Hf.
Qed.

(** In a scan that is not interrupted, the findings located at a file that
    the walk met once are the findings of the analysis of that file. *)
Lemma scan_findings_of_file fs req found before path after :
  let st := (WalkDir Background fs (requestedRoot req) (mkWalkState [] ∅ 0)).1 in
  requestedRoot req ≠ "" →
  handleScan json_Unmarshal rangeOrder Background fs req = Response found →
  allFiles st = before ++ path :: after →
  path ∉ before → path ∉ after →
  filter (λ f, LocationFile f = path) found
  = analyzeFile json_Unmarshal rangeOrder fs (fileSet st) [] path.
Proof.
  intros st Hroot Hscan Hfiles Hbefore Hafter.
  rewrite handleScan_live, bool_decide_eq_false_2 in Hscan by done.
  cbn zeta in Hscan. fold st in Hscan. injection Hscan as <-.
  rewrite Hfiles, flat_map_app. cbn [flat_map]. rewrite !filter_app.
  assert (Hother : ∀ files, path ∉ files →
    filter (λ f, LocationFile f = path)
      (flat_map (analyzeFile json_Unmarshal rangeOrder fs (fileSet st) []) files) = []).
  { intros files Hnot. apply filter_none. intros f Hf Hloc.
    apply list_elem_of_In, in_flat_map in Hf as (p & Hp & Hf).
    apply list_elem_of_In in Hp, Hf. apply analyzeFile_located in Hf.
    apply Hnot. congruence. }
  rewrite !Hother by done. rewrite app_nil_r. cbn [app].
  apply filter_all. intros f Hf. by apply analyzeFile_located in Hf.
Qed.

(** The three ways a scan ends: without a root, after a walk that was not
    interrupted, or after a walk that a poll of the context ended. *)
Lemma handleScan_cases ctx fs req :
  let root := requestedRoot req in
  let walked := WalkDir ctx fs root (mkWalkState [] ∅ 0) in
  (root = "" ∧ handleScan json_Unmarshal rangeOrder ctx fs req = Response [])
  ∨ (root ≠ "" ∧ walked.2 = None
     ∧ WalkDir Background fs root (mkWalkState [] ∅ 0) = walked
     ∧ handleScan json_Unmarshal rangeOrder ctx fs req
       = Response (analyzeFiles json_Unmarshal rangeOrder ctx fs (fileSet walked.1)
                     (allFiles walked.1) (polls walked.1) []))
  ∨ (root ≠ "" ∧ walked.2 = Some (ContextErr (cause ctx))
     ∧ handleScan json_Unmarshal rangeOrder ctx fs req
       = match cause ctx with
         | Canceled => Response []
         | DeadlineExceeded => Failure "walking workspace: context deadline exceeded"
         end).
Proof.
  intros root walked. unfold handleScan. fold (requestedRoot req). fold root.
  destruct (bool_decide_reflect (root = "")) as [E | E]; [by left |]. right.
  destruct (WalkDir_outcome ctx fs root (mkWalkState [] ∅ 0)) as [Hout Hskip].
  fold walked in Hout, Hskip |- *. unfold walkOutcome in Hout.
  destruct walked as [st [[| e] |]]; cbn [fst snd] in *; [done | right | left].
  - destruct Hout as [-> Hdone]. split; [done |]. split; [done |].
    destruct (cause ctx); [| done].
    unfold Build, NewResponse. by rewrite (analyzeFiles_done _ _ _ _ _ _ _ Hdone).
  - by repeat split.
Qed.

(** C7 (amended). The scan returns an error in one case only: the
    context's deadline has passed ([DeadlineExceeded]) and a poll during the
    walk sees it; the error is then "walking workspace: context deadline
    exceeded".  In every other case the scan returns a response whose
    findings are the first findings of the scan that is not interrupted: so
    it is when the context is cancelled ([Canceled]) before or during the
    walk or the loop over the files, and when a deadline passes during that
    loop.  A root that cannot be accessed gives the empty response, an error
    of a directory listing does not end the walk, and a file that cannot be
    read only loses the checks that read it. *)
Theorem scan_fails_only_on_deadline ctx fs req :
  let root := requestedRoot req in
  let walked := WalkDir ctx fs root (mkWalkState [] ∅ 0) in
  (∀ err, handleScan json_Unmarshal rangeOrder ctx fs req = Failure err
          ↔ err = "walking workspace: context deadline exceeded"
            ∧ root ≠ "" ∧ cause ctx = DeadlineExceeded ∧ walked.2 ≠ None)
  ∧ (∀ found, handleScan json_Unmarshal rangeOrder ctx fs req = Response found →
              ∃ rest, handleScan json_Unmarshal rangeOrder Background fs req
                      = Response (found ++ rest))
  ∧ (cause ctx = Canceled →
     ∃ found, handleScan json_Unmarshal rangeOrder ctx fs req = Response found)
  ∧ (Lstat fs root = None →
     handleScan json_Unmarshal rangeOrder ctx fs req = Response [])
  ∧ (∀ path name entries st,
       walkDir ctx path (DirectoryEntry name entries true) st
       = walkDir ctx path (DirectoryEntry name entries false) st)
  ∧ (∀ (fileSet : gset string) resp path,
       ReadFile fs path = None →
       analyzeFile json_Unmarshal rangeOrder fs fileSet resp path
       = if isReleaseArtifact (Filepath.Base path) then
           checkUnsignedArtifact
             (checkMissingChecksum resp path (Filepath.Base path)
                                   (Filepath.Dir path) fileSet)
             path (Filepath.Base path) (Filepath.Dir path) fileSet
         else resp).
Proof.
  intros root walked.
  assert (Hcases := handleScan_cases ctx fs req). cbn zeta in Hcases.
  fold root in Hcases. fold walked in Hcases.
  assert (Hlive := handleScan_live fs req). fold root in Hlive.
  split; [| split; [| split; [| split; [| split]]]].
  - intros err.
    destruct Hcases as [(Hroot & ->) | [(Hroot & Hw & _ & ->) | (Hroot & Hw & ->)]].
    + split; [discriminate | intros (_ & ? & _); contradiction].
    + split; [discriminate | intros (_ & _ & _ & ?); contradiction].
    + destruct (cause ctx).
      * split; [discriminate | intros (_ & _ & ? & _); discriminate].
      * split; [intros [= <-] | intros (-> & _)]; [| done].
        repeat split; [done | by rewrite Hw].
  - intros found Hfound. rewrite Hlive.
    destruct Hcases as [(Hroot & H) | [(Hroot & Hw & Hsame & H) | (Hroot & Hw & H)]];
      rewrite H in Hfound.
    + injection Hfound as <-. rewrite bool_decide_eq_true_2 by done. by exists [].
    + injection Hfound as <-. rewrite bool_decide_eq_false_2 by done. cbn zeta.
      rewrite Hsame, <- (analyzeFiles_live _ _ _ _ _ (polls walked.1)).
      destruct (analyzeFiles_prefix json_Unmarshal rangeOrder ctx fs
                  (fileSet walked.1) (allFiles walked.1) (polls walked.1)
                  (polls walked.1)) as [rest Hrest].
      exists rest. by rewrite Hrest.
    + destruct (cause ctx); [| discriminate]. injection Hfound as <-.
      destruct (bool_decide _); by eexists.
  - intros Hcause.
    destruct Hcases as [(_ & ->) | [(_ & _ & _ & ->) | (_ & _ & ->)]];
      rewrite ?Hcause; by eexists.
  - intros Hroot. unfold handleScan. fold (requestedRoot req). fold root.
    destruct (bool_decide (root = "")); [done |].
    unfold WalkDir. by rewrite Hroot.
  - intros path name entries st. apply walkDir_readDir_error.
  - intros fileSet resp path Hread.
    unfold analyzeFile, checkChecksumMismatches, checkLockfileIntegrity,
      checkNPMLockfileIntegrity, checkGoSumIntegrity.
    rewrite Hread.
    by repeat match goal with |- context [if ?b then _ else _] => destruct b end.
Qed.

End WholeScan.

(** ** Determinism up to the order of [range] over a map *)

Section Determinism.

Variable json_Unmarshal : string → option npmLockfile.
Variables order1 order2 :
  string → gmap string npmPackage → list (string * npmPackage).
Hypothesis order1_range : ∀ path m, order1 path m ≡ₚ map_to_list m.
Hypothesis order2_range : ∀ path m, order2 path m ≡ₚ map_to_list m.

Lemma checkLockfileIntegrity_perm fs filePath :
  checkLockfileIntegrity json_Unmarshal order1 fs [] filePath
  ≡ₚ checkLockfileIntegrity json_Unmarshal order2 fs [] filePath.
Proof.
  unfold checkLockfileIntegrity, checkNPMLockfileIntegrity.
  destruct (bool_decide _); [| done].
  destruct (ReadFile fs filePath) as [data |]; [| done].
  destruct (json_Unmarshal data) as [lockfile |]; [| done].
  rewrite !npmLoop_emits. cbn [app]. apply Permutation_flat_map.
  by rewrite order1_range, order2_range.
Qed.

Lemma analyzeFile_perm fs (fileSet : gset string) path :
  analyzeFile json_Unmarshal order1 fs fileSet [] path
  ≡ₚ analyzeFile json_Unmarshal order2 fs fileSet [] path.
Proof.
  unfold analyzeFile.
  destruct (index lockfileNames (Filepath.Base path)); [| done].
  rewrite (checkLockfileIntegrity_emits json_Unmarshal order1).
  rewrite (checkLockfileIntegrity_emits json_Unmarshal order2).
  apply Permutation_app_head, checkLockfileIntegrity_perm.
Qed.

Lemma analyzeFiles_perm ctx fs (fileSet : gset string) files polls :
  analyzeFiles json_Unmarshal order1 ctx fs fileSet files polls []
  ≡ₚ analyzeFiles json_Unmarshal order2 ctx fs fileSet files polls [].
Proof.
  revert polls. induction files as [| path files IH]; intros n; [done |].
  cbn [analyzeFiles]. destruct (ctxErr ctx n); [done |].
  rewrite (analyzeFiles_emits json_Unmarshal order1).
  rewrite (analyzeFiles_emits json_Unmarshal order2).
  apply Permutation_app; [apply analyzeFile_perm | apply IH].
Qed.

(** C8. Two scans of the same tree report the same findings up to their
    order: whatever order [range] takes over the packages of a lockfile in
    each run, both runs return a response (or both the same error), and
    the findings of one are a permutation of the findings of the other. *)
Theorem scan_deterministic ctx fs req :
  match handleScan json_Unmarshal order1 ctx fs req,
        handleScan json_Unmarshal order2 ctx fs req with
  | Response found1, Response found2 => found1 ≡ₚ found2
  | Failure err1, Failure err2 => err1 = err2
  | _, _ => False
  end.
Proof.
  unfold handleScan. destruct (bool_decide _); [done |].
  destruct (WalkDir ctx fs _ _) as [st [[| [|]] |]]; try done;
    apply analyzeFiles_perm.
Qed.

End Determinism.

(** * Worked examples *)

Example demo_archive_digest :
  Hex.EncodeToString (Sha256.Sum256 ("binary content" +:+ newline))
  = "8eb840b888b2aa3cbbc9b0655b8653dbd3efadb9e16605905d0db5ba9cff9979".
Proof. vm_compute. reflexivity. Qed.

Example demo_walk :
  allFiles (WalkDir Background demoFS "demo" (mkWalkState [] ∅ 0)).1
  = ["demo/broken/package-lock.json"; "demo/go.sum"; "demo/package-lock.json";
     "demo/release/SHA256SUMS"; "demo/release/myapp.tar.gz";
     "demo/release/yarn.lock"].
Proof. vm_compute. reflexivity. Qed.

Example demo_scan :
  match handleScan demoDecoder listOrder Background demoFS (scanRequest "demo") with
  | Response found =>
      map (λ f, (RuleId f, LocationFile f, StartLine f, Metadata f !! "type")) found
      = [("ARTINT-003", "demo/go.sum", 3, Some "checksum_mismatch");
         ("ARTINT-003", "demo/package-lock.json", 0, Some "missing_integrity");
         ("ARTINT-003", "demo/package-lock.json", 0, Some "missing_integrity");
         ("ARTINT-003", "demo/release/SHA256SUMS", 2, Some "checksum_mismatch");
         ("ARTINT-002", "demo/release/myapp.tar.gz", 0, Some "unsigned_artifact")]
  | Failure _ => False
  end.
Proof. vm_compute. reflexivity. Qed.

(** The two orders give the findings of the lockfile in different orders. *)
Example demo_orders_differ :
  checkNPMLockfileIntegrity demoDecoder listOrder demoFS [] "demo/package-lock.json"
  ≠ checkNPMLockfileIntegrity demoDecoder reverseOrder demoFS [] "demo/package-lock.json".
Proof. vm_compute. discriminate. Qed.

(** ** The theorems at the example workspace *)




(** The entry of lodash in the example lockfile has a resolved URL and no
    integrity hash: one finding for it. *)
Lemma npm_lockfile_integrity_witness :
  Filepath.Base "demo/package-lock.json" = "package-lock.json"
  ∧ ReadFile demoFS "demo/package-lock.json" = Some "{..}"
  ∧ (∀ m, listOrder "demo/package-lock.json" m ≡ₚ map_to_list m)
  ∧ ∃ f, filter (λ f, Metadata f !! "package" = Some "node_modules/lodash")
                (analyzeFile demoDecoder listOrder demoFS demoFileSet []
                             "demo/package-lock.json") = [f]
         ∧ Metadata f !! "type" = Some "missing_integrity"
         ∧ Metadata f !! "version" = Some "4.17.21".
Proof.
  split; [reflexivity |]. split; [reflexivity |]. split; [reflexivity |].
  assert (H := npm_lockfile_integrity demoDecoder listOrder demoFS demoFileSet
                 "demo/package-lock.json" "{..}" eq_refl eq_refl
                 (λ m, reflexivity (map_to_list m))).
  change (demoDecoder "{..}") with (Some demoLockfile) in H.
  destruct H as [H _].
  destruct (H "node_modules/lodash"
              (mkNpmPackage "4.17.21" "https://registry.example/lodash.tgz" "")
              eq_refl) as [Hflag _].
  destruct Hflag as (f & Hf & _ & _ & _ & _ & Htype & _ & Hver);
    [discriminate | discriminate | reflexivity |].
  exists f. by repeat split.
Defined.



(** C7 as stated fails: the deadline of the context passes while the walk
    of the example is at its fourth entry, and [handleScan] returns the
    error instead of a response. *)
Lemma deadline_during_walk_fails :
  handleScan demoDecoder listOrder (mkContext (Some 3) DeadlineExceeded) demoFS
    (scanRequest "demo")
  = Failure "walking workspace: context deadline exceeded".
Proof. reflexivity. Qed.

(** Cancelling the scan of the example at its thirteenth poll, after the ten
    polls of the walk and two files, gives the first findings of the whole
    scan; cancelling it during the walk gives none; a deadline that passes
    in the loop over the files acts like a cancellation. *)
Example demo_cancelled_scan :
  handleScan demoDecoder listOrder (mkContext (Some 12) Canceled) demoFS
    (scanRequest "demo")
  = Response [conflictFinding "demo/go.sum" 3 "example.com/m" "v1.0.0"]
  ∧ handleScan demoDecoder listOrder (mkContext (Some 3) Canceled) demoFS
      (scanRequest "demo")
    = Response []
  ∧ handleScan demoDecoder listOrder (mkContext (Some 12) DeadlineExceeded) demoFS
      (scanRequest "demo")
    = Response [conflictFinding "demo/go.sum" 3 "example.com/m" "v1.0.0"].
Proof. repeat split; reflexivity. Qed.

(** The scans of the example under the two orders of [range] agree up to
    the order of their findings. *)
Lemma scan_deterministic_witness :
  (∀ path m, listOrder path m ≡ₚ map_to_list m)
  ∧ (∀ path m, reverseOrder path m ≡ₚ map_to_list m)
  ∧ match handleScan demoDecoder listOrder Background demoFS (scanRequest "demo"),
          handleScan demoDecoder reverseOrder Background demoFS (scanRequest "demo") with
    | Response found1, Response found2 => found1 ≡ₚ found2
    | Failure err1, Failure err2 => err1 = err2
    | _, _ => False
    end.
Proof.
  split; [intros path m; reflexivity |].
  split; [intros path m; apply reverse_Permutation |].
  apply (scan_deterministic demoDecoder listOrder reverseOrder
           (λ path m, reflexivity (map_to_list m))
           (λ path m, reverse_Permutation (map_to_list m))
           Background demoFS (scanRequest "demo")).
Defined.

(** The yarn.lock of the example adds nothing to the response. *)
Lemma unchecked_lockfiles_silent_witness :
  Filepath.Base "demo/release/yarn.lock" ∈ uncheckedLockfiles
  ∧ analyzeFile demoDecoder listOrder demoFS demoFileSet [] "demo/release/yarn.lock" = [].
Proof.
  assert (Hname : Filepath.Base "demo/release/yarn.lock" ∈ uncheckedLockfiles)
    by (apply (bool_decide_eq_true_1 _); reflexivity).
  split; [exact Hname |].
  apply (unchecked_lockfiles_silent demoDecoder listOrder demoFS demoFileSet []
           "demo/release/yarn.lock" Hname).
Defined.

(** * Further properties of the code *)

(** ** What the walk collects *)

Lemma collected_nil st n : collected [] st (mkWalkState (allFiles st) (fileSet st) n).
Proof. split; cbn; [by rewrite app_nil_r | by rewrite union_empty_l_L]. Qed.

Lemma collected_app files1 files2 st1 st2 st3 :
  collected files1 st1 st2 → collected files2 st2 st3 →
  collected (files1 ++ files2) st1 st3.
Proof.
  intros [Hfiles Hset] [Hfiles' Hset']. split.
  - by rewrite Hfiles', Hfiles, app_assoc.
  - rewrite Hset', Hset, list_to_set_app_L.
    apply set_eq. intros x. rewrite !elem_of_union. tauto.
Qed.

Lemma walkEntries_walked ctx path entries :
  Forall (λ d, ∀ path st, walkCollects (treeFiles path d) st (walkDir ctx path d st))
         entries →
  ∀ st, walkCollects (flat_map (λ e, treeFiles (Filepath.Join path (entryName e)) e) entries)
          st (walkEntries (walkDir ctx) path entries st).
Proof.
  induction 1 as [| d entries Hd _ IH]; intros st.
  - split; [done |]. exists []. split; [done |]. split; [| done].
    destruct st. apply collected_nil.
  - cbn [walkEntries flat_map].
    destruct (Hd (Filepath.Join path (entryName d)) st)
      as (Hskip & got & Hpre & Hcol & Hfull).
    destruct (walkDir ctx (Filepath.Join path (entryName d)) d st)
      as [st1 [[| e] |]]; cbn [fst snd] in *; [done | |].
    + split; [done |]. exists got. split; [| split; [done | done]].
      by apply prefix_app_r.
    + rewrite (Hfull eq_refl) in *.
      destruct (IH st1) as (Hskip' & got' & Hpre' & Hcol' & Hfull').
      split; [done |]. exists (treeFiles (Filepath.Join path (entryName d)) d ++ got').
      split; [by apply prefix_app |]. split; [by eapply collected_app |].
      intros Hnone. by rewrite (Hfull' Hnone).
Qed.

Lemma walkDir_walked ctx d :
  ∀ path st, walkCollects (treeFiles path d) st (walkDir ctx path d st).
Proof.
  induction d as [name | name entries readDirFails IH] using DirEntry_ind;
    intros path st.
  - cbn [walkDir treeFiles]. unfold walkFn.
    destruct (ctxErr ctx (polls st)); cbn.
    + split; [done |]. exists []. split; [apply prefix_nil |].
      split; [apply collected_nil | done].
    + split; [done |]. exists [path]. split; [done |]. split; [| done].
      split; cbn; [done | by rewrite union_empty_r_L].
  - cbn [walkDir treeFiles]. unfold walkFn at 1.
    destruct (ctxErr ctx (polls st)); cbn [isSkipDir IsDir andb fst snd].
    + split; [done |]. exists []. split; [apply prefix_nil |].
      split; [apply collected_nil | done].
    + destruct (index skippedDirs name); cbn [isSkipDir IsDir andb fst snd].
      * split; [done |]. exists []. split; [done |]. split; [apply collected_nil | done].
      * replace (if readDirFails
                 then walkFn ctx (polled st) path
                        (Some (DirectoryEntry name entries readDirFails)) true
                 else (polled st, None))
          with (polled st, @None WalkError) by (by destruct readDirFails).
        destruct (walkEntries_walked ctx path entries IH (polled st))
          as (Hskip & got & Hpre & Hcol & Hfull).
        split; [done |]. by exists got.
Qed.

Lemma WalkDir_walked ctx fs root st :
  walkCollects (workspaceFiles fs root) st (WalkDir ctx fs root st).
Proof.
  unfold WalkDir, workspaceFiles. destruct (Lstat fs root) as [d |].
  - pose proof (walkDir_walked ctx d root st) as Hw.
    destruct (walkDir ctx root d st) as [st1 [[| e] |]]; [| done | done].
    by destruct Hw as [Hw _].
  - cbn. split; [done |]. exists []. split; [done |]. split; [| done].
    destruct st. apply collected_nil.
Qed.

(** X1.  The walk of [handleScan] collects the files of the workspace in
    depth-first order of the directory listings, leaving out what lies in a
    directory named [.git], [vendor], [node_modules], [__pycache__] or
    [.venv]: whatever the context, the list it has built when it ends is a
    prefix of these files, the index holds exactly the paths of the list,
    and a walk that ends without error has collected all of them.  Under a
    context that is never done the walk ends without error. *)
Theorem walk_collects_workspace ctx fs root :
  let files := workspaceFiles fs root in
  let r := WalkDir ctx fs root (mkWalkState [] ∅ 0) in
  allFiles r.1 `prefix_of` files
  ∧ fileSet r.1 = list_to_set (allFiles r.1)
  ∧ (r.2 = None → allFiles r.1 = files)
  ∧ (WalkDir Background fs root (mkWalkState [] ∅ 0)).2 = None.
Proof.
  intros files r.
  destruct (WalkDir_walked ctx fs root (mkWalkState [] ∅ 0))
    as (_ & got & Hpre & [Hfiles Hset] & Hfull).
  fold r in Hfiles, Hset, Hfull. cbn in Hfiles, Hset.
  rewrite union_empty_r_L in Hset. rewrite Hfiles, Hset.
  split; [done |]. split; [done |]. split; [done |]. apply WalkDir_live.
Qed.

(** ** The scan as a function of the workspace *)

Lemma WalkDir_Background fs root :
  let st := (WalkDir Background fs root (mkWalkState [] ∅ 0)).1 in
  allFiles st = workspaceFiles fs root
  ∧ fileSet st = list_to_set (workspaceFiles fs root).
Proof.
  intros st.
  destruct (WalkDir_walked Background fs root (mkWalkState [] ∅ 0))
    as (_ & got & _ & [Hfiles Hset] & Hfull).
  rewrite (Hfull (WalkDir_live fs root _)) in *.
  fold st in Hfiles, Hset. cbn in Hfiles, Hset.
  by rewrite union_empty_r_L in Hset.
Qed.

Lemma walkFn_live_dir st path name entries r :
  walkFn Background st path (Some (DirectoryEntry name entries r)) false
  = (polled st, if index skippedDirs name then Some SkipDir else None).
Proof. unfold walkFn. cbn. by destruct (index skippedDirs name). Qed.

Lemma walkFn_while_live ctx st path d :
  ctxErr ctx (polls st) = None →
  walkFn ctx st path d false = walkFn Background st path d false.
Proof. unfold walkFn. by intros ->. Qed.

Lemma walkEntries_Background_polls path entries :
  Forall (λ d, ∀ path st,
            (walkDir Background path d st).2 = None
            ∧ polls (walkDir Background path d st).1 = polls st + treeEntries d)
         entries →
  ∀ st, (walkEntries (walkDir Background) path entries st).2 = None
        ∧ polls (walkEntries (walkDir Background) path entries st).1
          = polls st + sum_list (map treeEntries entries).
Proof.
  induction 1 as [| d entries Hd _ IH]; intros st.
  - cbn. split; [done | lia].
  - cbn [walkEntries map sum_list sum_list_with id].
    destruct (Hd (Filepath.Join path (entryName d)) st) as [Herr Hpolls].
    destruct (walkDir Background (Filepath.Join path (entryName d)) d st)
      as [st1 err]. cbn [fst snd] in *. subst err.
    destruct (IH st1) as [Herr' Hpolls']. split; [done | lia].
Qed.

Lemma walkDir_Background_polls d :
  ∀ path st, (walkDir Background path d st).2 = None
             ∧ polls (walkDir Background path d st).1 = polls st + treeEntries d.
Proof.
  induction d as [name | name entries readDirFails IH] using DirEntry_ind;
    intros path st.
  - cbn. split; [done | lia].
  - cbn [walkDir treeEntries]. rewrite walkFn_live_dir.
    destruct (index skippedDirs name); cbn [isSkipDir IsDir andb fst snd].
    + cbn. split; [done | lia].
    + replace (if readDirFails
               then walkFn Background (polled st) path
                      (Some (DirectoryEntry name entries readDirFails)) true
               else (polled st, None))
        with (polled st, @None WalkError) by (by destruct readDirFails).
      destruct (walkEntries_Background_polls path entries IH (polled st))
        as [Herr Hpolls].
      split; [done |]. rewrite Hpolls. cbn. lia.
Qed.

Lemma liveFor_le ctx n m : liveFor ctx m → n ≤ m → liveFor ctx n.
Proof. intros Hlive Hle p Hp. apply Hlive. lia. Qed.

Lemma walkEntries_while_live ctx path entries :
  Forall (λ d, ∀ path st,
            liveFor ctx (polls st + treeEntries d) →
            walkDir ctx path d st = walkDir Background path d st)
         entries →
  ∀ st, liveFor ctx (polls st + sum_list (map treeEntries entries)) →
        walkEntries (walkDir ctx) path entries st
        = walkEntries (walkDir Background) path entries st.
Proof.
  induction 1 as [| d entries Hd _ IH]; intros st Hlive; [done |].
  cbn [walkEntries map sum_list sum_list_with id] in *.
  rewrite Hd by (eapply liveFor_le; [done | lia]).
  destruct (walkDir_Background_polls d (Filepath.Join path (entryName d)) st)
    as [Herr Hpolls].
  destruct (walkDir Background (Filepath.Join path (entryName d)) d st)
    as [st1 err]. cbn [fst snd] in *. subst err.
  apply IH. eapply liveFor_le; [done | lia].
Qed.

Lemma walkDir_while_live ctx d :
  ∀ path st, liveFor ctx (polls st + treeEntries d) →
             walkDir ctx path d st = walkDir Background path d st.
Proof.
  induction d as [name | name entries readDirFails IH] using DirEntry_ind;
    intros path st Hlive.
  - cbn [walkDir]. rewrite walkFn_while_live; [done |]. apply Hlive. cbn. lia.
  - cbn [walkDir treeEntries] in *.
    rewrite walkFn_while_live
      by (apply Hlive; destruct (index skippedDirs name); lia).
    rewrite walkFn_live_dir.
    destruct (index skippedDirs name); cbn [isSkipDir IsDir andb fst snd]; [done |].
    replace (if readDirFails
             then walkFn ctx (polled st) path
                    (Some (DirectoryEntry name entries readDirFails)) true
             else (polled st, None))
      with (polled st, @None WalkError) by (by destruct readDirFails).
    replace (if readDirFails
             then walkFn Background (polled st) path
                    (Some (DirectoryEntry name entries readDirFails)) true
             else (polled st, None))
      with (polled st, @None WalkError) by (by destruct readDirFails).
    apply (walkEntries_while_live ctx path entries IH).
    eapply liveFor_le; [done | cbn; lia].
Qed.

(** A context that is live for as many polls as the workspace has entries
    does not disturb the walk, which polls it that many times. *)
Lemma WalkDir_while_live ctx fs root :
  liveFor ctx (workspaceEntries fs root) →
  WalkDir ctx fs root (mkWalkState [] ∅ 0)
  = WalkDir Background fs root (mkWalkState [] ∅ 0)
  ∧ polls (WalkDir Background fs root (mkWalkState [] ∅ 0)).1
    = workspaceEntries fs root.
Proof.
  unfold WalkDir, workspaceEntries. intros Hlive.
  destruct (Lstat fs root) as [d |]; [| done].
  rewrite walkDir_while_live by done.
  destruct (walkDir_Background_polls d root (mkWalkState [] ∅ 0)) as [Herr Hpolls].
  destruct (walkDir Background root d (mkWalkState [] ∅ 0)) as [st1 err].
  cbn [fst snd] in *. by subst err.
Qed.

Lemma liveFor_before ctx n m : doneAt ctx = Some n → m ≤ n → liveFor ctx m.
Proof.
  intros Hdone Hle p Hp. unfold ctxErr. rewrite Hdone.
  destruct (Nat.leb_spec n p); [lia | done].
Qed.

Lemma ctxErr_after ctx n p :
  doneAt ctx = Some n → n ≤ p → ctxErr ctx p = Some (cause ctx).
Proof.
  intros Hdone Hle. unfold ctxErr. rewrite Hdone.
  destruct (Nat.leb_spec n p); [done | lia].
Qed.

Lemma ctxErr_before ctx n p :
  doneAt ctx = Some n → p < n → ctxErr ctx p = None.
Proof.
  intros Hdone Hlt. unfold ctxErr. rewrite Hdone.
  destruct (Nat.leb_spec n p); [lia | done].
Qed.

Lemma walkEntries_interrupted ctx n path entries :
  doneAt ctx = Some n →
  Forall (λ d, ∀ path st,
            n < polls st + treeEntries d →
            (walkDir ctx path d st).2 = Some (ContextErr (cause ctx)))
         entries →
  ∀ st, polls st ≤ n < polls st + sum_list (map treeEntries entries) →
        (walkEntries (walkDir ctx) path entries st).2
        = Some (ContextErr (cause ctx)).
Proof.
  intros Hdone. induction 1 as [| d entries Hd _ IH]; intros st Hn.
  - cbn in Hn. lia.
  - cbn [walkEntries map sum_list sum_list_with id] in *.
    destruct (Nat.lt_ge_cases n (polls st + treeEntries d)) as [Hlt | Hge].
    + specialize (Hd (Filepath.Join path (entryName d)) st Hlt).
      destruct (walkDir ctx (Filepath.Join path (entryName d)) d st)
        as [st1 err]. cbn [snd] in Hd. by subst err.
    + rewrite walkDir_while_live by by eapply liveFor_before.
      destruct (walkDir_Background_polls d (Filepath.Join path (entryName d)) st)
        as [Herr Hpolls].
      destruct (walkDir Background (Filepath.Join path (entryName d)) d st)
        as [st1 err]. cbn [fst snd] in *. subst err.
      apply IH. lia.
Qed.

(** A context that is done before the walk has polled it at every entry
    ends the walk with its error. *)
Lemma walkDir_interrupted ctx n d :
  doneAt ctx = Some n →
  ∀ path st, n < polls st + treeEntries d →
             (walkDir ctx path d st).2 = Some (ContextErr (cause ctx)).
Proof.
  intros Hdone.
  induction d as [name | name entries readDirFails IH] using DirEntry_ind;
    intros path st Hn.
  - cbn [walkDir treeEntries] in *. unfold walkFn.
    by rewrite (ctxErr_after ctx n (polls st) Hdone) by lia.
  - cbn [walkDir treeEntries] in *.
    destruct (Nat.le_gt_cases n (polls st)) as [Hle | Hgt].
    { unfold walkFn at 1. by rewrite (ctxErr_after ctx n (polls st) Hdone Hle). }
    rewrite walkFn_while_live by by eapply ctxErr_before.
    rewrite walkFn_live_dir.
    destruct (index skippedDirs name); [lia |].
    cbn [isSkipDir IsDir andb fst snd].
    replace (if readDirFails
             then walkFn ctx (polled st) path
                    (Some (DirectoryEntry name entries readDirFails)) true
             else (polled st, None))
      with (polled st, @None WalkError) by (by destruct readDirFails).
    apply (walkEntries_interrupted ctx n path entries Hdone IH). cbn. lia.
Qed.

Lemma WalkDir_interrupted ctx n fs root :
  doneAt ctx = Some n → n < workspaceEntries fs root →
  (WalkDir ctx fs root (mkWalkState [] ∅ 0)).2 = Some (ContextErr (cause ctx)).
Proof.
  unfold WalkDir, workspaceEntries. intros Hdone Hn.
  destruct (Lstat fs root) as [d |]; [| lia].
  pose proof (walkDir_interrupted ctx n d Hdone root (mkWalkState [] ∅ 0) Hn) as Herr.
  destruct (walkDir ctx root d (mkWalkState [] ∅ 0)) as [st err].
  cbn [snd] in Herr. by subst err.
Qed.

Section ScanOfWorkspace.

Variable json_Unmarshal : string → option npmLockfile.
Variable rangeOrder : string → gmap string npmPackage → list (string * npmPackage).

(** The findings of the files [files] of a workspace, each analysed against
    the index of all of them. *)
Lemma analyzeFiles_take ctx fs (fileSet : gset string) files polls :
  analyzeFiles json_Unmarshal rangeOrder ctx fs fileSet files polls []
  = flat_map (analyzeFile json_Unmarshal rangeOrder fs fileSet [])
      (take (match doneAt ctx with
             | Some n => n - polls
             | None => length files
             end) files).
Proof.
  revert polls. induction files as [| path files IH]; intros polls.
  - by rewrite take_nil.
  - cbn [analyzeFiles]. unfold ctxErr.
    destruct (doneAt ctx) as [n |] eqn:Hdone.
    + destruct (Nat.leb_spec n polls) as [Hle | Hlt].
      * by replace (n - polls) with 0 by lia.
      * replace (n - polls) with (S (n - S polls)) by lia. cbn [take flat_map].
        by rewrite analyzeFiles_emits, IH.
    + cbn [length take flat_map]. by rewrite analyzeFiles_emits, IH.
Qed.

(** A context that is live for the polls of the walk leaves to the scan
    the files that the polls left over allow. *)
Lemma handleScan_after_walk ctx fs req :
  let root := requestedRoot req in
  let files := workspaceFiles fs root in
  root ≠ "" → liveFor ctx (workspaceEntries fs root) →
  handleScan json_Unmarshal rangeOrder ctx fs req
  = Response
      (flat_map (analyzeFile json_Unmarshal rangeOrder fs (list_to_set files) [])
                (take (match doneAt ctx with
                       | Some n => n - workspaceEntries fs root
                       | None => length files
                       end) files)).
Proof.
  intros root files Hroot Hlive.
  destruct (WalkDir_while_live ctx fs root Hlive) as [Hwalk Hpolls].
  destruct (WalkDir_Background fs root) as [Hfiles Hset].
  pose proof (WalkDir_live fs root (mkWalkState [] ∅ 0)) as Herr.
  unfold handleScan. fold (requestedRoot req). fold root.
  rewrite (bool_decide_eq_false_2 (root = "")) by done.
  rewrite Hwalk.
  destruct (WalkDir Background fs root (mkWalkState [] ∅ 0)) as [st err].
  cbn [fst snd] in *. subst err. unfold Build, NewResponse.
  by rewrite analyzeFiles_take, Hfiles, Hset, Hpolls.
Qed.

(** X2.  What [handleScan] returns, for every context, file system and
    request: nothing for a request without root; under a context that is
    done at poll [n], before the walk has polled it at each of the entries
    of the workspace, nothing if the context was cancelled and the error if
    its deadline has passed; and otherwise the findings of the files of the
    workspace in the order of the walk, each analysed against the index of
    all of them, up to the file at which the context is done. *)
Theorem handleScan_total ctx fs req :
  let root := requestedRoot req in
  let files := workspaceFiles fs root in
  let findings paths :=
    flat_map (analyzeFile json_Unmarshal rangeOrder fs (list_to_set files) []) paths in
  handleScan json_Unmarshal rangeOrder ctx fs req
  = if bool_decide (root = "") then Response []
    else match doneAt ctx with
         | None => Response (findings files)
         | Some n =>
             if n <? workspaceEntries fs root then
               match cause ctx with
               | Canceled => Response []
               | DeadlineExceeded =>
                   Failure "walking workspace: context deadline exceeded"
               end
             else Response (findings (take (n - workspaceEntries fs root) files))
         end.
Proof.
  intros root files findings.
  destruct (bool_decide_reflect (root = "")) as [Hroot | Hroot].
  { destruct (handleScan_cases json_Unmarshal rangeOrder ctx fs req)
      as [[_ Hnone] | [(Hne & _) | (Hne & _)]]; done. }
  destruct (doneAt ctx) as [n |] eqn:Hdone.
  - destruct (Nat.ltb_spec n (workspaceEntries fs root)) as [Hlt | Hge].
    + pose proof (WalkDir_interrupted ctx n fs root Hdone Hlt) as Herr.
      destruct (handleScan_cases json_Unmarshal rangeOrder ctx fs req)
        as [[Hnil _] | [(_ & Hnone & _) | (_ & _ & Hstop)]]; [done | | done].
      fold root in Hnone. congruence.
    + rewrite handleScan_after_walk by (done || by eapply liveFor_before).
      by rewrite Hdone.
  - rewrite handleScan_after_walk.
    + rewrite Hdone. unfold findings, files, root. by rewrite firstn_all.
    + done.
    + intros p _. unfold ctxErr. by rewrite Hdone.
Qed.

End ScanOfWorkspace.

(** ** The findings a file can give rise to *)

Lemma checkMissingChecksum_finding path name dir (fileSet : gset string) f :
  f ∈ checkMissingChecksum [] path name dir fileSet →
  f = missingChecksumFinding path name.
Proof.
  unfold checkMissingChecksum.
  repeat match goal with |- context [if ?b then _ else _] => destruct b end;
    rewrite ?Done_chain2; cbn [app];
    rewrite ?elem_of_cons, ?elem_of_nil; tauto.
Qed.

Lemma checkUnsignedArtifact_finding path name dir (fileSet : gset string) f :
  f ∈ checkUnsignedArtifact [] path name dir fileSet →
  f = unsignedArtifactFinding path name.
Proof.
  unfold checkUnsignedArtifact.
  destruct (hasCompanionFile _ _ _ _); rewrite ?Done_chain2; cbn [app];
    rewrite ?elem_of_cons, ?elem_of_nil; tauto.
Qed.

Lemma checksumLine_finding fs checksumFilePath dir lineNum text f :
  f ∈ checksumLine fs checksumFilePath dir [] lineNum text →
  ∃ referenced declared actual,
    f = mismatchFinding checksumFilePath lineNum referenced declared actual.
Proof.
  unfold checksumLine.
  repeat match goal with
         | |- context [if ?b then _ else _] => destruct b
         | |- context [match ReadFile ?fs ?p with _ => _ end] => destruct (ReadFile fs p)
         end;
    rewrite ?Done_chain2; cbn [app];
    rewrite ?elem_of_cons, ?elem_of_nil; try tauto.
  intros [-> | []]. by eexists _, _, _.
Qed.

(** The findings of a loop over the lines of a manifest are those of its
    lines, each at the number of its line. *)
Lemma checksumLoop_elem fs checksumFilePath dir lines lineNum f :
  f ∈ scanLoop (checksumLine fs checksumFilePath dir) lines lineNum [] ↔
  ∃ i text, lines !! i = Some text
            ∧ f ∈ checksumLine fs checksumFilePath dir [] (S (lineNum + i)) text.
Proof.
  revert lineNum. induction lines as [| text lines IH]; intros n.
  - cbn. rewrite elem_of_nil. split; [done |]. by intros (i & t & Hi & _).
  - cbn [scanLoop]. rewrite checksumLoop_emits, elem_of_app, IH. split.
    + intros [Hf | (i & t & Hi & Hf)].
      * exists 0, text. split; [done |]. by rewrite Nat.add_0_r.
      * exists (S i), t. split; [done |]. by rewrite Nat.add_succ_r.
    + intros ([| i] & t & Hi & Hf).
      * injection Hi as <-. left. by rewrite Nat.add_0_r in Hf.
      * right. exists i, t. split; [done |]. by rewrite Nat.add_succ_r in Hf.
Qed.

Lemma goSumLine_finding filePath seen lineNum text f :
  f ∈ (goSumLine filePath ([], seen) lineNum text).1 →
  ∃ module ver hash previous,
    goSumEntry text = Some (module, ver, hash)
    ∧ seen !! goSumKey module ver = Some previous ∧ previous ≠ hash
    ∧ f = conflictFinding filePath lineNum module ver.
Proof.
  rewrite goSumLine_entry.
  destruct (goSumEntry text) as [[[module ver] hash] |];
    cbn [fst]; [| by rewrite elem_of_nil].
  destruct (seen !! goSumKey module ver) as [previous |] eqn:Hseen;
    [| by rewrite elem_of_nil].
  destruct (bool_decide_reflect (previous ≠ hash)) as [Hne |];
    [| by rewrite elem_of_nil].
  cbn [app]. rewrite elem_of_cons, elem_of_nil. intros [-> | []].
  by exists module, ver, hash, previous.
Qed.

Lemma goSumLoop_finding filePath lines lineNum seen f :
  f ∈ (scanLoop (goSumLine filePath) lines lineNum ([], seen)).1 →
  ∃ module ver, f = conflictFinding filePath (StartLine f) module ver.
Proof.
  revert lineNum seen. induction lines as [| text lines IH]; intros n seen.
  - cbn. by rewrite elem_of_nil.
  - cbn [scanLoop].
    destruct (goSumLine filePath ([], seen) (S n) text) as [resp seen'] eqn:Hline.
    rewrite goSumLoop_emits. cbn [fst]. rewrite elem_of_app.
    intros [Hf | Hf]; [| by eapply IH].
    assert (f ∈ (goSumLine filePath ([], seen) (S n) text).1) as Hf'
      by (by rewrite Hline).
    apply goSumLine_finding in Hf' as (module & ver & _ & _ & _ & _ & _ & ->).
    by exists module, ver.
Qed.

Section FindingsOfFiles.

Variable json_Unmarshal : string → option npmLockfile.
Variable rangeOrder : string → gmap string npmPackage → list (string * npmPackage).

Lemma checkLockfileIntegrity_finding fs filePath f :
  f ∈ checkLockfileIntegrity json_Unmarshal rangeOrder fs [] filePath →
  findingFor filePath (Filepath.Base filePath) f.
Proof.
  unfold checkLockfileIntegrity, checkNPMLockfileIntegrity, checkGoSumIntegrity.
  destruct (bool_decide_reflect (Filepath.Base filePath = "package-lock.json"))
    as [Hnpm | _].
  - destruct (ReadFile fs filePath) as [data |]; [| by rewrite elem_of_nil].
    destruct (json_Unmarshal data) as [lockfile |]; [| by rewrite elem_of_nil].
    rewrite npmLoop_emits. cbn [app].
    intros ([pkgPath pkg] & _ & Hf)%list_elem_of_In%in_flat_map.
    apply list_elem_of_In, npmEntry_package in Hf as [-> Hroot].
    right; right; right. split; [done |]. by exists pkgPath, pkg.
  - destruct (bool_decide_reflect (Filepath.Base filePath = "go.sum"))
      as [Hsum | _]; [| by rewrite elem_of_nil].
    destruct (ReadFile fs filePath) as [content |]; [| by rewrite elem_of_nil].
    intros Hf. pose proof (goSumLoop_at _ _ _ _ _ Hf) as Hline.
    apply goSumLoop_finding in Hf as (module & ver & Hf).
    right; right; left. split; [done |].
    exists (StartLine f), module, ver. split; [lia | done].
Qed.

(** The findings of the analysis of a file are those its name allows. *)
Lemma analyzeFile_finding fs (fileSet : gset string) path f :
  f ∈ analyzeFile json_Unmarshal rangeOrder fs fileSet [] path →
  findingFor path (Filepath.Base path) f.
Proof.
  unfold analyzeFile.
  set (name := Filepath.Base path). set (dir := Filepath.Dir path).
  set (r1 := if isReleaseArtifact name then _ else []).
  assert (H1 : ∀ f, f ∈ r1 → findingFor path name f).
  { unfold r1. intros g. destruct (isReleaseArtifact name) eqn:Hart;
      [| by rewrite elem_of_nil].
    rewrite checkUnsignedArtifact_emits.
    intros [Hg | Hg]%elem_of_app; left; (split; [done |]).
    - left. by eapply checkMissingChecksum_finding.
    - right. by eapply checkUnsignedArtifact_finding. }
  set (r2 := if index checksumFileNames name then _ else r1).
  assert (H2 : ∀ f, f ∈ r2 → findingFor path name f).
  { unfold r2. destruct (index checksumFileNames name) eqn:Hman; [| exact H1].
    intros g. rewrite checkChecksumMismatches_emits.
    intros [Hg | Hg]%elem_of_app; [by apply H1 |].
    unfold checkChecksumMismatches in Hg.
    destruct (ReadFile fs path); [| by apply elem_of_nil in Hg].
    apply checksumLoop_elem in Hg as (i & text & _ & Hg).
    apply checksumLine_finding in Hg as (referenced & declared & actual & ->).
    right; left. split; [done |].
    exists (S (0 + i)), referenced, declared, actual. split; [lia | done]. }
  destruct (index lockfileNames name); [| apply H2].
  rewrite checkLockfileIntegrity_emits.
  intros [Hf | Hf]%elem_of_app; [by apply H2 |].
  by apply checkLockfileIntegrity_finding in Hf.
Qed.


End FindingsOfFiles.

(** ** Line numbers *)

Lemma inLineOrder_step lineNum hi (first rest : list Finding) :
  length first ≤ 1 →
  (∀ f, f ∈ first → StartLine f = S lineNum) →
  S lineNum ≤ hi →
  inLineOrder (S lineNum) hi rest →
  inLineOrder lineNum hi (first ++ rest).
Proof.
  intros Hlen Hfirst Hle [Hsorted Hrange].
  assert (∀ f, f ∈ rest → lineNum < StartLine f ≤ hi) as Hrange'.
  { intros f Hf. apply Hrange in Hf. lia. }
  destruct first as [| f [| g first]]; [by split | | cbn in Hlen; lia].
  pose proof (Hfirst f (list_elem_of_here _ _)) as Hf. cbn [app]. split.
  - intros [| i] [| j] f1 f2 Hij H1 H2; try lia; cbn in H1, H2.
    + injection H1 as <-. apply list_elem_of_lookup_2, Hrange in H2. lia.
    + apply (Hsorted i j); [lia | done | done].
  - intros g [-> | Hg]%elem_of_cons; [lia | by apply Hrange'].
Qed.

Lemma checksumLine_one fs checksumFilePath dir lineNum text :
  length (checksumLine fs checksumFilePath dir [] lineNum text) ≤ 1.
Proof.
  unfold checksumLine.
  repeat match goal with
         | |- context [if ?b then _ else _] => destruct b
         | |- context [match ReadFile ?fs ?p with _ => _ end] => destruct (ReadFile fs p)
         end;
    rewrite ?Done_chain2; cbn; lia.
Qed.

Lemma checksumLoop_inLineOrder fs checksumFilePath dir lines lineNum :
  inLineOrder lineNum (lineNum + length lines)
    (scanLoop (checksumLine fs checksumFilePath dir) lines lineNum []).
Proof.
  revert lineNum. induction lines as [| text lines IH]; intros n.
  - split; [by intros i j f g _ Hi | by intros f Hf%elem_of_nil].
  - cbn [scanLoop length]. rewrite checksumLoop_emits.
    apply inLineOrder_step.
    + apply checksumLine_one.
    + intros f Hf. by apply checksumLine_at in Hf as [Hf _].
    + lia.
    + replace (n + S (length lines)) with (S n + length lines) by lia. apply IH.
Qed.

Lemma goSumLine_one filePath seen lineNum text :
  length (goSumLine filePath ([], seen) lineNum text).1 ≤ 1.
Proof.
  rewrite goSumLine_entry.
  destruct (goSumEntry text) as [[[module ver] hash] |]; [| cbn; lia].
  cbn [fst]. destruct (seen !! goSumKey module ver); [| cbn; lia].
  destruct (bool_decide _); cbn; lia.
Qed.

Lemma goSumLoop_inLineOrder filePath lines lineNum seen :
  inLineOrder lineNum (lineNum + length lines)
    (scanLoop (goSumLine filePath) lines lineNum ([], seen)).1.
Proof.
  revert lineNum seen. induction lines as [| text lines IH]; intros n seen.
  - split; [by intros i j f g _ Hi | by intros f Hf%elem_of_nil].
  - cbn [scanLoop length].
    pose proof (goSumLine_one filePath seen (S n) text) as Hone.
    pose proof (goSumLine_at filePath seen (S n) text) as Hat.
    destruct (goSumLine filePath ([], seen) (S n) text) as [resp seen'].
    rewrite goSumLoop_emits. cbn [fst] in *.
    apply inLineOrder_step; [done | done | lia |].
    replace (n + S (length lines)) with (S n + length lines) by lia. apply IH.
Qed.

(** X4.  The findings of a checksum manifest and those of a go.sum come in
    the order of the lines of the file, at most one for a line, each at a
    line the scanner has read. *)
Theorem findings_in_line_order fs path dir content :
  ReadFile fs path = Some content →
  inLineOrder 0 (length (Bufio.Lines content)) (checkChecksumMismatches fs [] path dir)
  ∧ inLineOrder 0 (length (Bufio.Lines content)) (checkGoSumIntegrity fs [] path).
Proof.
  intros Hread. unfold checkChecksumMismatches, checkGoSumIntegrity.
  rewrite Hread. split.
  - apply (checksumLoop_inLineOrder fs path dir (Bufio.Lines content) 0).
  - apply (goSumLoop_inLineOrder path (Bufio.Lines content) 0 ∅).
Qed.

(** ** go.sum as a whole *)




(** ** The regular expressions *)

Lemma append_String c s t : String c s +:+ t = String c (s +:+ t).
Proof. reflexivity. Qed.

Lemma append_nil_l s : "" +:+ s = s.
Proof. reflexivity. Qed.

Lemma append_nil_r s : s +:+ "" = s.
Proof. induction s as [| c s IH]; [done |]. by rewrite append_String, IH. Qed.

Lemma append_assoc s t u : (s +:+ t) +:+ u = s +:+ t +:+ u.
Proof. induction s as [| c s IH]; [done |]. by rewrite !append_String, IH. Qed.

Lemma length_append s t : String.length (s +:+ t) = String.length s + String.length t.
Proof. induction s as [| c s IH]; [done |]. rewrite append_String. cbn. by rewrite IH. Qed.

Section Matchers.
Context {A : Type}.
Implicit Types (p : ascii → bool) (k : string → string → option A).

(** What a successful match of [p+] has consumed. *)
Lemma plusThen_sound p k taken s x :
  Regexp.plusThen p k taken s = Some x →
  ∃ run rest, s = run +:+ rest ∧ run ≠ "" ∧ allOf p run = true
              ∧ k (taken +:+ run) rest = Some x.
Proof.
  revert taken. induction s as [| c r IH]; intros taken; [done |].
  cbn [Regexp.plusThen]. destruct (p c) eqn:Hc; [| done].
  destruct (Regexp.plusThen p k (taken +:+ String c "") r) as [y |] eqn:Hrec.
  - intros [= ->]. apply IH in Hrec as (run & rest & -> & _ & Hall & Hk).
    exists (String c run), rest. rewrite append_assoc in Hk.
    split; [done |]. split; [done |]. split; [| done]. cbn. by rewrite Hc.
  - intros Hk. exists (String c ""), r.
    split; [done |]. split; [done |]. split; [| done]. cbn. by rewrite Hc.
Qed.

Lemma plusThen_notAhead p k taken s :
  notAhead p s = true → Regexp.plusThen p k taken s = None.
Proof. destruct s as [| c r]; [done |]. cbn. by intros ->%negb_true_iff. Qed.

(** [p+] is greedy: it takes the whole run of bytes that satisfy [p] when
    the rest of the pattern matches after it. *)
Lemma plusThen_greedy p k taken run rest x :
  run ≠ "" → allOf p run = true → notAhead p rest = true →
  k (taken +:+ run) rest = Some x →
  Regexp.plusThen p k taken (run +:+ rest) = Some x.
Proof.
  revert taken. induction run as [| c run IH]; intros taken Hne Hall Hahead Hk;
    [done |].
  rewrite append_String. cbn [Regexp.plusThen].
  cbn in Hall. apply andb_true_iff in Hall as [-> Hall].
  destruct run as [| c' run].
  - rewrite append_nil_l, plusThen_notAhead by done. done.
  - rewrite (IH (taken +:+ String c "")); [done | done | done | done |].
    by rewrite append_assoc.
Qed.

(** What a successful match of [p{lo,hi}] has consumed. *)
Lemma repeatThen_sound p lo hi k count taken s x :
  count ≤ hi →
  Regexp.repeatThen p lo hi k count taken s = Some x →
  ∃ run rest, s = run +:+ rest ∧ allOf p run = true
              ∧ lo ≤ count + String.length run ≤ hi
              ∧ k (taken +:+ run) rest = Some x.
Proof.
  revert count taken. induction s as [| c r IH]; intros count taken Hcount.
  - cbn. destruct (Nat.leb_spec lo count); [| done]. intros Hk.
    exists "", "". rewrite (append_nil_r taken). cbn. split; [done |]. split; [done |].
    split; [lia | done].
  - cbn [Regexp.repeatThen].
    assert ((if (lo <=? count)%nat then k taken (String c r) else None) = Some x →
            ∃ run rest, String c r = run +:+ rest ∧ allOf p run = true
                        ∧ lo ≤ count + String.length run ≤ hi
                        ∧ k (taken +:+ run) rest = Some x) as Hstop.
    { destruct (Nat.leb_spec lo count); [| done]. intros Hk.
      exists "", (String c r). rewrite (append_nil_r taken). cbn.
      split; [done |]. split; [done |]. split; [lia | done]. }
    destruct (p c) eqn:Hc; [| exact Hstop].
    destruct (Nat.ltb_spec count hi); cbn [andb]; [| exact Hstop].
    destruct (Regexp.repeatThen p lo hi k (S count) (taken +:+ String c "") r)
      as [y |] eqn:Hrec; [| exact Hstop].
    intros [= ->]. apply IH in Hrec as (run & rest & -> & Hall & Hlen & Hk); [| lia].
    exists (String c run), rest. rewrite append_assoc in Hk.
    split; [done |]. split; [cbn; by rewrite Hc |]. split; [cbn; lia | done].
Qed.

(** [p{lo,hi}] is greedy as well. *)
Lemma repeatThen_greedy p lo hi k count taken run rest x :
  allOf p run = true → notAhead p rest = true →
  lo ≤ count + String.length run ≤ hi →
  k (taken +:+ run) rest = Some x →
  Regexp.repeatThen p lo hi k count taken (run +:+ rest) = Some x.
Proof.
  revert count taken. induction run as [| c run IH]; intros count taken Hall Hahead Hlen Hk.
  - rewrite append_nil_l. rewrite append_nil_r in Hk. cbn in Hlen.
    destruct rest as [| c r]; cbn [Regexp.repeatThen].
    + by rewrite (proj2 (Nat.leb_le lo count)) by lia.
    + cbn in Hahead. apply negb_true_iff in Hahead. rewrite Hahead. cbn [andb].
      by rewrite (proj2 (Nat.leb_le lo count)) by lia.
  - rewrite append_String. cbn [Regexp.repeatThen].
    cbn in Hall, Hlen. apply andb_true_iff in Hall as [-> Hall].
    rewrite (proj2 (Nat.ltb_lt count hi)) by lia. cbn [andb].
    rewrite (IH (S count) (taken +:+ String c "")); [done | done | done | lia |].
    by rewrite append_assoc.
Qed.

(** A failed match of [p+]: the rest of the pattern fails after every run
    of bytes that satisfy [p]. *)
Lemma plusThen_None p k taken s run rest :
  Regexp.plusThen p k taken s = None →
  s = run +:+ rest → run ≠ "" → allOf p run = true →
  k (taken +:+ run) rest = None.
Proof.
  revert taken run. induction s as [| c r IH]; intros taken run Hnone Hs Hne Hall.
  - by destruct run.
  - destruct run as [| c' run]; [done |].
    rewrite append_String in Hs. injection Hs as <- ->.
    cbn in Hall. apply andb_true_iff in Hall as [Hc Hall].
    cbn [Regexp.plusThen] in Hnone. rewrite Hc in Hnone.
    destruct (Regexp.plusThen p k (taken +:+ String c "") (run +:+ rest))
      as [y |] eqn:Hrec; [done |].
    destruct run as [| c'' run]; [done |].
    rewrite <- (IH _ (String c'' run) Hrec eq_refl) by done.
    by rewrite append_assoc.
Qed.

(** [p+] prefers the longer run: the run it has consumed is the longest
    after which the rest of the pattern matches. *)
Lemma plusThen_longest p k taken s x :
  Regexp.plusThen p k taken s = Some x →
  ∃ run rest,
    s = run +:+ rest ∧ run ≠ "" ∧ allOf p run = true
    ∧ k (taken +:+ run) rest = Some x
    ∧ ∀ more rest', rest = more +:+ rest' → more ≠ "" → allOf p more = true →
                    k (taken +:+ run +:+ more) rest' = None.
Proof.
  revert taken. induction s as [| c r IH]; intros taken; [done |].
  cbn [Regexp.plusThen]. destruct (p c) eqn:Hc; [| done].
  destruct (Regexp.plusThen p k (taken +:+ String c "") r) as [y |] eqn:Hrec.
  - intros [= ->]. apply IH in Hrec as (run & rest & -> & _ & Hall & Hk & Hmax).
    exists (String c run), rest. rewrite append_assoc in Hk.
    split; [done |]. split; [done |]. split; [cbn; by rewrite Hc |].
    split; [done |]. intros more rest' Hrest Hne Hmore.
    rewrite <- (Hmax more rest' Hrest Hne Hmore). by rewrite append_assoc.
  - intros Hk. exists (String c ""), r.
    split; [done |]. split; [done |]. split; [cbn; by rewrite Hc |].
    split; [done |]. intros more rest' Hrest Hne Hmore.
    rewrite <- append_assoc. by eapply plusThen_None.
Qed.

(** Conversely, a run after which the rest of the pattern matches, and
    after no longer one, is the match of [p+]. *)
Lemma plusThen_complete p k taken run rest x :
  run ≠ "" → allOf p run = true →
  k (taken +:+ run) rest = Some x →
  (∀ more rest', rest = more +:+ rest' → more ≠ "" → allOf p more = true →
                 k (taken +:+ run +:+ more) rest' = None) →
  Regexp.plusThen p k taken (run +:+ rest) = Some x.
Proof.
  revert taken. induction run as [| c run IH]; intros taken Hne Hall Hk Hmax;
    [done |].
  rewrite append_String. cbn [Regexp.plusThen].
  cbn in Hall. apply andb_true_iff in Hall as [-> Hall].
  destruct run as [| c' run].
  - rewrite append_nil_l.
    destruct (Regexp.plusThen p k (taken +:+ String c "") rest) as [y |] eqn:Hrec;
      [| done].
    apply plusThen_sound in Hrec as (more & rest' & Hrest & Hmne & Hmall & Hy).
    rewrite append_assoc, (Hmax more rest' Hrest Hmne Hmall) in Hy. done.
  - rewrite (IH (taken +:+ String c "")); [done | done | done | |].
    + by rewrite append_assoc.
    + intros more rest' Hrest Hmne Hmall.
      rewrite append_assoc. by apply Hmax.
Qed.

End Matchers.

Lemma HasPrefix_append s lit :
  Strings.HasPrefix s lit = true → s = lit +:+ Strings.drop (String.length lit) s.
Proof.
  revert s. induction lit as [| p lit IH]; intros s; [done |].
  destruct s as [| c s]; [done |]. cbn.
  destruct (Ascii.eqb_spec p c) as [-> |]; [| done].
  intros Hs. rewrite append_String. f_equal. by apply IH.
Qed.

Lemma HasPrefix_here lit s :
  Strings.HasPrefix (lit +:+ s) lit = true
  ∧ Strings.drop (String.length lit) (lit +:+ s) = s.
Proof.
  induction lit as [| p lit IH]; [by destruct s |].
  rewrite append_String. cbn. by rewrite Ascii.eqb_refl.
Qed.

Lemma reGoSumLine_sound line whole module ver hash :
  reGoSumLine line = [whole; module; ver; hash] →
  whole = line ∧ goSumShape line module ver hash.
Proof.
  unfold reGoSumLine.
  destruct (Regexp.plusThen _ _ _ _) as [l |] eqn:H1; [| done].
  cbn [Regexp.submatches]. intros ->.
  apply plusThen_sound in H1 as (m & r1 & -> & Hm & Hma & H2).
  apply plusThen_sound in H2 as (g1 & r2 & -> & Hg1 & Hg1a & H3).
  apply plusThen_sound in H3 as (v & r3 & -> & Hv & Hva & H4).
  apply plusThen_sound in H4 as (g2 & r4 & -> & Hg2 & Hg2a & H5).
  unfold Regexp.literalThen in H5.
  destruct (Strings.HasPrefix r4 "h1:") eqn:Hlit; [| done].
  apply HasPrefix_append in Hlit.
  apply plusThen_sound in H5 as (t & r6 & Hr5 & Ht & Hta & H6).
  unfold Regexp.atEnd in H6. destruct (decide (r6 = "")) as [-> |]; [| done].
  rewrite append_nil_r in Hr5. rewrite Hr5 in Hlit. subst r4.
  rewrite !append_nil_l in H6. injection H6 as <- <- <- <-.
  split; [done |]. by exists g1, g2, t.
Qed.

Lemma notWhite_isWhite_ahead s t :
  s ≠ "" → allOf Regexp.isWhite s = true → notAhead Regexp.notWhite (s +:+ t) = true.
Proof.
  destruct s as [| c s]; [done |]. rewrite append_String. cbn.
  unfold Regexp.notWhite. by intros _ [-> _]%andb_true_iff.
Qed.

Lemma isWhite_notWhite_ahead s t :
  s ≠ "" → allOf Regexp.notWhite s = true → notAhead Regexp.isWhite (s +:+ t) = true.
Proof.
  destruct s as [| c s]; [done |]. rewrite append_String. cbn.
  unfold Regexp.notWhite. by intros _ [-> _]%andb_true_iff.
Qed.

Lemma reGoSumLine_complete line module ver hash :
  goSumShape line module ver hash →
  reGoSumLine line = [line; module; ver; hash].
Proof.
  intros (g1 & g2 & t & -> & -> & Hm & Hma & Hg1 & Hg1a & Hv & Hva
          & Hg2 & Hg2a & Ht & Hta).
  unfold reGoSumLine.
  match goal with
  | |- Regexp.submatches ?m = ?l => cut (m = Some l); [by intros -> |]
  end.
  apply plusThen_greedy; [done | done | by apply notWhite_isWhite_ahead |].
  apply plusThen_greedy; [done | done | by apply isWhite_notWhite_ahead |].
  apply plusThen_greedy; [done | done | by apply notWhite_isWhite_ahead |].
  apply plusThen_greedy; [done | done | done |].
  unfold Regexp.literalThen. destruct (HasPrefix_here "h1:" t) as [-> ->].
  rewrite <- (append_nil_r t) at 1.
  apply plusThen_greedy; [done | done | done |].
  by rewrite !append_nil_l.
Qed.

Lemma reGoSumLine_cases line :
  reGoSumLine line = []
  ∨ ∃ module ver hash, reGoSumLine line = [line; module; ver; hash].
Proof.
  destruct (reGoSumLine line) as [| whole l] eqn:Hre; [by left |]. right.
  revert Hre. unfold reGoSumLine.
  destruct (Regexp.plusThen _ _ _ _) as [l' |] eqn:H1; [| done].
  cbn [Regexp.submatches]. intros ->.
  apply plusThen_sound in H1 as (m & r1 & _ & _ & _ & H2).
  apply plusThen_sound in H2 as (g1 & r2 & _ & _ & _ & H3).
  apply plusThen_sound in H3 as (v & r3 & _ & _ & _ & H4).
  apply plusThen_sound in H4 as (g2 & r4 & _ & _ & _ & H5).
  unfold Regexp.literalThen in H5.
  destruct (Strings.HasPrefix r4 "h1:"); [| done].
  apply plusThen_sound in H5 as (t & r6 & _ & _ & _ & H6).
  unfold Regexp.atEnd in H6. destruct (decide (r6 = "")); [| done].
  injection H6 as <- <-. by eexists _, _, _.
Qed.

(** X6.  [reGoSumLine] matches exactly the lines made of a module path, a
    version and a hash that starts with [h1:], each without white space
    and not empty, separated by white space; its groups are these three
    parts, and a line of another shape gives no match. *)
Theorem reGoSumLine_shape line :
  (∀ whole module ver hash,
     reGoSumLine line = [whole; module; ver; hash]
     ↔ whole = line ∧ goSumShape line module ver hash)
  ∧ (reGoSumLine line = []
     ∨ ∃ module ver hash, reGoSumLine line = [line; module; ver; hash]).
Proof.
  split; [| apply reGoSumLine_cases].
  intros whole module ver hash. split; [apply reGoSumLine_sound |].
  intros [-> Hshape]. by apply reGoSumLine_complete.
Qed.

Lemma isWhite_not_hex c : Regexp.isWhite c = true → Regexp.isHexDigit c = false.
Proof. by destruct c as [[] [] [] [] [] [] [] []]. Qed.

Lemma isHexDigit_isWhite_ahead s t :
  s ≠ "" → allOf Regexp.isWhite s = true →
  notAhead Regexp.isHexDigit (s +:+ t) = true.
Proof.
  destruct s as [| c s]; [done |]. rewrite append_String. cbn.
  intros _ [Hc _]%andb_true_iff. by rewrite (isWhite_not_hex c Hc).
Qed.

(** The name of a match of [reChecksumLine] starts after all the white
    space, unless nothing but white space follows the digits: the name is
    then the last byte of the line. *)
Lemma reChecksumLine_sound line whole hash name :
  reChecksumLine line = [whole; hash; name] →
  whole = line ∧ checksumShape line hash name
  ∧ (notAhead Regexp.isWhite name = true ∨ String.length name = 1).
Proof.
  unfold reChecksumLine.
  destruct (Regexp.repeatThen _ _ _ _ _ _ _) as [l |] eqn:H1; [| done].
  cbn [Regexp.submatches]. intros ->.
  apply repeatThen_sound in H1 as (h & r1 & -> & Hha & Hhl & H2); [| lia].
  apply plusThen_longest in H2 as (g & r2 & -> & Hg & Hga & H3 & Hmax).
  apply plusThen_sound in H3 as (n & r3 & -> & Hn & Hna & H4).
  unfold Regexp.atEnd in H4. destruct (decide (r3 = "")) as [-> |]; [| done].
  rewrite !append_nil_l in H4. injection H4 as <- <- <-.
  rewrite append_nil_r in *.
  split; [done |]. split; [by exists g |].
  destruct n as [| c [| c' n]]; [done | by right | left].
  cbn. apply negb_true_iff. destruct (Regexp.isWhite c) eqn:Hc; [exfalso | done].
  cbn in Hna. apply andb_true_iff in Hna as [_ Hna].
  assert (Hfail := Hmax (String c "") (String c' n) eq_refl
                     ltac:(done) ltac:(by cbn; rewrite Hc)).
  apply (plusThen_None _ _ _ _ (String c' n) "") in Hfail;
    [| by rewrite append_nil_r | done | done].
  done.
Qed.

Lemma reChecksumLine_complete line hash name :
  checksumShape line hash name →
  notAhead Regexp.isWhite name = true ∨ String.length name = 1 →
  reChecksumLine line = [line; hash; name].
Proof.
  intros (g & -> & Hha & Hhl & Hg & Hga & Hn & Hna) Hname.
  unfold reChecksumLine.
  match goal with
  | |- Regexp.submatches ?m = ?l => cut (m = Some l); [by intros -> |]
  end.
  apply repeatThen_greedy;
    [done | by apply isHexDigit_isWhite_ahead | cbn; lia |].
  apply plusThen_complete; [done | done | |].
  - rewrite <- (append_nil_r name) at 1.
    apply plusThen_greedy; [done | done | done |]. by rewrite !append_nil_l.
  - intros more rest' -> Hmore Hmorea.
    destruct more as [| c more]; [done |].
    cbn in Hmorea. apply andb_true_iff in Hmorea as [Hc _].
    destruct Hname as [Hahead | Hlen].
    + rewrite append_String in Hahead. cbn in Hahead. by rewrite Hc in Hahead.
    + rewrite append_String in Hlen. cbn in Hlen.
      destruct more as [| c' more]; [| done].
      rewrite append_nil_l in Hlen. by destruct rest'.
Qed.

Lemma reChecksumLine_cases line :
  reChecksumLine line = []
  ∨ ∃ hash name, reChecksumLine line = [line; hash; name].
Proof.
  destruct (reChecksumLine line) as [| whole l] eqn:Hre; [by left |]. right.
  revert Hre. unfold reChecksumLine.
  destruct (Regexp.repeatThen _ _ _ _ _ _ _) as [l' |] eqn:H1; [| done].
  cbn [Regexp.submatches]. intros ->.
  apply repeatThen_sound in H1 as (h & r1 & _ & _ & _ & H2); [| lia].
  apply plusThen_sound in H2 as (g & r2 & _ & _ & _ & H3).
  apply plusThen_sound in H3 as (n & r3 & _ & _ & _ & H4).
  unfold Regexp.atEnd in H4. destruct (decide (r3 = "")); [| done].
  injection H4 as <- <-. by eexists _, _.
Qed.

(** X7.  [reChecksumLine] matches exactly the lines made of 32 to 128
    hexadecimal digits, white space and a name without line feed; its groups
    are the digits and the name, where the name starts after all the white
    space unless nothing follows it, when the name is the last byte of the
    line; a line of another shape gives no match. *)
Theorem reChecksumLine_shape line :
  (∀ whole hash name,
     reChecksumLine line = [whole; hash; name]
     ↔ whole = line ∧ checksumShape line hash name
       ∧ (notAhead Regexp.isWhite name = true ∨ String.length name = 1))
  ∧ (reChecksumLine line = []
     ∨ ∃ hash name, reChecksumLine line = [line; hash; name]).
Proof.
  split; [| apply reChecksumLine_cases].
  intros whole hash name. split; [apply reChecksumLine_sound |].
  intros (-> & Hshape & Hname). by apply reChecksumLine_complete.
Qed.


(** ** A manifest written by [sha256sum] *)























(** ** Names of release artifacts *)

Lemma drop_append pre s : Strings.drop (String.length pre) (pre +:+ s) = s.
Proof. induction pre as [| c pre IH]; [by destruct s | done]. Qed.

Lemma drop_split n s : ∃ pre, s = pre +:+ Strings.drop n s.
Proof.
  revert s. induction n as [| n IH]; intros s; [by exists "" |].
  destruct s as [| c s]; [by exists "" |].
  destruct (IH s) as [pre Hpre]. exists (String c pre).
  rewrite append_String. cbn [Strings.drop]. by rewrite <- Hpre.
Qed.

Lemma HasSuffix_spec s suffix :
  Strings.HasSuffix s suffix = true ↔ ∃ pre, s = pre +:+ suffix.
Proof.
  unfold Strings.HasSuffix. split.
  - intros [_ Heq%String.eqb_eq]%andb_true_iff.
    destruct (drop_split (String.length s - String.length suffix) s) as [pre Hpre].
    exists pre. by rewrite Heq in Hpre.
  - intros [pre ->]. rewrite length_append.
    replace (String.length pre + String.length suffix - String.length suffix)
      with (String.length pre) by lia.
    rewrite drop_append, String.eqb_refl, andb_true_r.
    apply Nat.leb_le. lia.
Qed.

Lemma ToLower_append s t :
  Strings.ToLower (s +:+ t) = Strings.ToLower s +:+ Strings.ToLower t.
Proof.
  induction s as [| c s IH]; [done |].
  rewrite append_String. cbn. by rewrite IH.
Qed.



Lemma append_eq_append a b pre e :
  a +:+ b = pre +:+ e →
  (∃ m, e = m +:+ b) ∨ (∃ m, b = m +:+ e).
Proof.
  revert pre. induction a as [| c a IH]; intros pre Heq.
  - right. by exists pre.
  - destruct pre as [| c' pre].
    + left. exists (String c a). by rewrite append_nil_l in Heq.
    + rewrite !append_String in Heq. injection Heq as _ Heq. by eapply IH.
Qed.

(** A suffix of [a +:+ b] is a suffix of [b], or [b] is a suffix of it. *)
Lemma HasSuffix_overlap a b e :
  Strings.HasSuffix (a +:+ b) e = true →
  Strings.HasSuffix b e = true ∨ Strings.HasSuffix e b = true.
Proof.
  intros [pre Hpre]%HasSuffix_spec.
  destruct (append_eq_append a b pre e Hpre) as [[m Hm] | [m Hm]].
  - right. apply HasSuffix_spec. by exists m.
  - left. apply HasSuffix_spec. by exists m.
Qed.

(** X10.  The companion of a file is never itself a release artifact:
    whatever the name, adding one of the checksum or signature extensions to
    it gives a name that [isReleaseArtifact] rejects, so that the scan asks
    neither checksum nor signature for a checksum or a signature. *)
Theorem companion_not_artifact name ext :
  ext ∈ checksumExtensions ++ signatureExtensions →
  isReleaseArtifact (name +:+ ext) = false.
Proof.
  intros Hext. apply not_true_is_false. unfold isReleaseArtifact. cbn zeta.
  rewrite existsb_elem_of. intros (e & He & Hsuffix).
  rewrite ToLower_append in Hsuffix. apply HasSuffix_overlap in Hsuffix.
  assert (forallb (λ c, forallb (λ e, negb (Strings.HasSuffix (Strings.ToLower c) e)
                                      && negb (Strings.HasSuffix e (Strings.ToLower c)))
                                releaseArtifactExtensions)
                  (checksumExtensions ++ signatureExtensions) = true) as Hcheck
    by reflexivity.
  rewrite forallb_forall in Hcheck.
  specialize (Hcheck ext (proj1 (list_elem_of_In _ _) Hext)).
  rewrite forallb_forall in Hcheck.
  specialize (Hcheck e (proj1 (list_elem_of_In _ _) He)).
  apply andb_true_iff in Hcheck as [H1%negb_true_iff H2%negb_true_iff].
  destruct Hsuffix; congruence.
Qed.


(** ** package-lock.json as a whole *)

Lemma npmLoop_lacksIntegrity filePath entries :
  flat_map (npmEntry filePath []) entries
  = map (λ entry, missingIntegrityFinding filePath entry.1 entry.2)
        (List.filter lacksIntegrity entries).
Proof.
  induction entries as [| [pkgPath pkg] entries IH]; [done |].
  cbn [flat_map List.filter]. rewrite IH, npmEntry_cases.
  unfold lacksIntegrity at 2. cbn [fst snd].
  by destruct (_ && _ && _).
Qed.

Lemma filter_Permutation {A} (f : A → bool) (l1 l2 : list A) :
  l1 ≡ₚ l2 → List.filter f l1 ≡ₚ List.filter f l2.
Proof.
  induction 1 as [| x l1 l2 _ IH | x y l | l1 l2 l3 _ IH1 _ IH2]; cbn.
  - done.
  - destruct (f x); [by constructor | done].
  - destruct (f x), (f y); try done. apply perm_swap.
  - by etrans.
Qed.

Section LockfileAsAWhole.

Variable json_Unmarshal : string → option npmLockfile.
Variable rangeOrder : string → gmap string npmPackage → list (string * npmPackage).

(** X11.  The findings of a package-lock.json that can be read and decoded
    are, up to the order of [range], one finding of a missing integrity hash
    for each entry of [packages] other than the root that is resolved from
    somewhere and has no integrity hash, and nothing else. *)
Theorem npm_findings_exact fs filePath data lockfile :
  ReadFile fs filePath = Some data →
  json_Unmarshal data = Some lockfile →
  rangeOrder filePath (Packages lockfile) ≡ₚ map_to_list (Packages lockfile) →
  checkNPMLockfileIntegrity json_Unmarshal rangeOrder fs [] filePath
  ≡ₚ map (λ entry, missingIntegrityFinding filePath entry.1 entry.2)
         (List.filter lacksIntegrity (map_to_list (Packages lockfile))).
Proof.
  intros Hread Hjson Horder. unfold checkNPMLockfileIntegrity.
  rewrite Hread, Hjson, npmLoop_emits, npmLoop_lacksIntegrity. cbn [app].
  apply Permutation_map, filter_Permutation, Horder.
Qed.

End LockfileAsAWhole.

(** ** More files, fewer findings *)

Lemma hasCompanionFile_mono name dir (fileSet fileSet' : gset string) exts :
  fileSet ⊆ fileSet' →
  hasCompanionFile name dir fileSet exts = true →
  hasCompanionFile name dir fileSet' exts = true.
Proof.
  intros Hsub. rewrite !hasCompanionFile_spec.
  intros (ext & Hext & Hin). exists ext. split; [done |]. by apply Hsub.
Qed.

Lemma checkMissingChecksum_mono path name dir (fileSet fileSet' : gset string) :
  fileSet ⊆ fileSet' →
  checkMissingChecksum [] path name dir fileSet'
  `sublist_of` checkMissingChecksum [] path name dir fileSet.
Proof.
  intros Hsub. unfold checkMissingChecksum.
  destruct (hasCompanionFile name dir fileSet' checksumExtensions) eqn:Hcomp';
    [apply sublist_nil_l |].
  destruct (existsb (λ csName, bool_decide (Filepath.Join dir csName ∈ fileSet'))
                    checksumFileNames) eqn:Hman'; [apply sublist_nil_l |].
  destruct (hasCompanionFile name dir fileSet checksumExtensions) eqn:Hcomp.
  { by rewrite (hasCompanionFile_mono _ _ _ _ _ Hsub Hcomp) in Hcomp'. }
  destruct (existsb (λ csName, bool_decide (Filepath.Join dir csName ∈ fileSet))
                    checksumFileNames) eqn:Hman; [| done].
  apply hasManifest_spec in Hman as (csName & Hname & Hin).
  apply not_true_iff_false in Hman'. destruct Hman'.
  apply hasManifest_spec. exists csName. split; [done |]. by apply Hsub.
Qed.

Lemma checkUnsignedArtifact_mono path name dir (fileSet fileSet' : gset string) :
  fileSet ⊆ fileSet' →
  checkUnsignedArtifact [] path name dir fileSet'
  `sublist_of` checkUnsignedArtifact [] path name dir fileSet.
Proof.
  intros Hsub. unfold checkUnsignedArtifact.
  destruct (hasCompanionFile name dir fileSet' signatureExtensions) eqn:Hcomp';
    [apply sublist_nil_l |].
  destruct (hasCompanionFile name dir fileSet signatureExtensions) eqn:Hcomp;
    [| done].
  by rewrite (hasCompanionFile_mono _ _ _ _ _ Hsub Hcomp) in Hcomp'.
Qed.

Section MoreFiles.

Variable json_Unmarshal : string → option npmLockfile.
Variable rangeOrder : string → gmap string npmPackage → list (string * npmPackage).

(** X12.  With the content of the files unchanged, a larger index never
    adds a finding to a file: what the analysis of a file reports against
    an index that holds more paths is a sublist of what it reports against
    the smaller one.  Only the findings of a missing checksum and of a
    missing signature depend on the index at all. *)
Theorem more_files_fewer_findings fs (fileSet fileSet' : gset string) path :
  fileSet ⊆ fileSet' →
  analyzeFile json_Unmarshal rangeOrder fs fileSet' [] path
  `sublist_of` analyzeFile json_Unmarshal rangeOrder fs fileSet [] path.
Proof.
  intros Hsub. unfold analyzeFile.
  set (name := Filepath.Base path). set (dir := Filepath.Dir path).
  set (r1 := if isReleaseArtifact name then _ else []).
  set (r1' := if isReleaseArtifact name then _ else []).
  assert (r1 `sublist_of` r1') as H1.
  { unfold r1, r1'. destruct (isReleaseArtifact name); [| done].
    rewrite (checkUnsignedArtifact_emits (checkMissingChecksum _ _ _ _ fileSet')).
    rewrite (checkUnsignedArtifact_emits (checkMissingChecksum _ _ _ _ fileSet)).
    apply sublist_app;
      [by apply checkMissingChecksum_mono | by apply checkUnsignedArtifact_mono]. }
  set (r2 := if index checksumFileNames name then _ else r1).
  set (r2' := if index checksumFileNames name then _ else r1').
  assert (r2 `sublist_of` r2') as H2.
  { unfold r2, r2'. destruct (index checksumFileNames name); [| done].
    rewrite (checkChecksumMismatches_emits fs r1).
    rewrite (checkChecksumMismatches_emits fs r1').
    by apply sublist_app. }
  destruct (index lockfileNames name); [| done].
  rewrite (checkLockfileIntegrity_emits _ _ fs r2).
  rewrite (checkLockfileIntegrity_emits _ _ fs r2').
  by apply sublist_app.
Qed.

End MoreFiles.

(** ** Lines that do not fit the buffer of the scanner *)

Lemma scanFrom_long maxTokenSize cur rest :
  cur ≠ "" → maxTokenSize ≤ String.length cur →
  Bufio.scanFrom maxTokenSize cur rest = [].
Proof.
  revert cur. induction rest as [| c r IH]; intros cur Hne Hlen;
    cbn [Bufio.scanFrom].
  - destruct (decide (cur = "")); [done |].
    by rewrite (proj2 (Nat.ltb_ge _ _) Hlen).
  - destruct (Ascii.eqb c Bufio.lineFeed).
    + by rewrite (proj2 (Nat.ltb_ge _ _) Hlen).
    + apply IH; [by destruct cur |]. rewrite length_append. cbn [String.length]. lia.
Qed.

Lemma scanFrom_run maxTokenSize cur run rest :
  allOf Regexp.anyChar run = true →
  Bufio.scanFrom maxTokenSize cur (run +:+ rest)
  = Bufio.scanFrom maxTokenSize (cur +:+ run) rest.
Proof.
  revert cur. induction run as [| c run IH]; intros cur Hrun.
  - by rewrite append_nil_l, append_nil_r.
  - rewrite append_String. cbn [allOf] in Hrun. cbn [Bufio.scanFrom].
    apply andb_true_iff in Hrun as [Hc Hrun]. unfold Regexp.anyChar in Hc.
    apply negb_true_iff in Hc. rewrite Hc, IH by done.
    by rewrite append_assoc.
Qed.

Lemma scanFrom_tail maxTokenSize cur head tail :
  Bufio.scanFrom maxTokenSize "" tail = [] →
  (head = "" → cur = "") →
  (head ≠ "" → ∃ front, head = front +:+ newline) →
  Bufio.scanFrom maxTokenSize cur (head +:+ tail)
  = Bufio.scanFrom maxTokenSize cur head.
Proof.
  intros Htail. revert cur. induction head as [| c head IH]; intros cur Hcur Hend.
  - rewrite append_nil_l, (Hcur eq_refl), Htail. done.
  - assert (head ≠ "" → ∃ front, head = front +:+ newline) as Hend'.
    { intros Hne. destruct (Hend ltac:(done)) as [[| c' front] Hfront].
      - injection Hfront as _ ->. done.
      - rewrite append_String in Hfront. injection Hfront as _ ->. by exists front. }
    rewrite append_String. cbn [Bufio.scanFrom].
    destruct (Ascii.eqb c Bufio.lineFeed) eqn:Hc.
    + destruct (String.length cur <? maxTokenSize); [| done].
      f_equal. by apply IH.
    + apply IH; [| done]. intros ->.
      destruct (Hend ltac:(done)) as [[| c' front] Hfront].
      * injection Hfront as ->. by rewrite Ascii.eqb_refl in Hc.
      * rewrite append_String in Hfront. injection Hfront as _ Hfront.
        by destruct front.
Qed.

(** The lines of a file up to a line that does not fit the buffer. *)
Lemma Lines_long_line head long rest :
  head = "" ∨ Strings.HasSuffix head newline = true →
  allOf Regexp.anyChar long = true →
  Bufio.MaxScanTokenSize ≤ String.length long →
  Bufio.Lines (head +:+ long +:+ rest) = Bufio.Lines head.
Proof.
  intros Hhead Hlong Hlen. unfold Bufio.Lines. apply scanFrom_tail.
  - rewrite scanFrom_run, append_nil_l by done.
    apply scanFrom_long; [| done]. intros ->.
    unfold Bufio.MaxScanTokenSize in Hlen. cbn [String.length] in Hlen. lia.
  - done.
  - intros Hne. destruct Hhead as [-> | Hsuffix]; [done |].
    by apply HasSuffix_spec in Hsuffix.
Qed.

(** X13.  Neither loop over the lines of a file looks at the error of the
    scanner: a line of 64 KiB or more ends the check of a manifest or of a
    go.sum without a finding of its own, and the lines after it are not
    examined; the findings are those of the lines before it. *)
Theorem long_line_ends_check fs path dir head long rest :
  ReadFile fs path = Some (head +:+ long +:+ rest) →
  head = "" ∨ Strings.HasSuffix head newline = true →
  allOf Regexp.anyChar long = true →
  Bufio.MaxScanTokenSize ≤ String.length long →
  checkChecksumMismatches fs [] path dir
  = scanLoop (checksumLine fs path dir) (Bufio.Lines head) 0 []
  ∧ checkGoSumIntegrity fs [] path
    = (scanLoop (goSumLine path) (Bufio.Lines head) 0 ([], ∅)).1.
Proof.
  intros Hread Hhead Hlong Hlen.
  unfold checkChecksumMismatches, checkGoSumIntegrity.
  by rewrite Hread, Lines_long_line.
Qed.

(** ** go.sum without repeated entries *)

Lemma NoDup_map_inj {A B} (f : A → B) (l : list A) x y :
  NoDup (map f l) → x ∈ l → y ∈ l → f x = f y → x = y.
Proof.
  induction l as [| a l IH]; intros Hnodup Hx Hy Hf; [by apply elem_of_nil in Hx |].
  cbn in Hnodup. apply NoDup_cons in Hnodup as [Ha Hnodup].
  apply elem_of_cons in Hx as [-> | Hx]; apply elem_of_cons in Hy as [-> | Hy].
  - done.
  - destruct Ha. rewrite Hf. apply list_elem_of_In, in_map. by apply list_elem_of_In.
  - destruct Ha. rewrite <- Hf. apply list_elem_of_In, in_map. by apply list_elem_of_In.
  - by apply IH.
Qed.



(** ** Paths: how the checks find the neighbours of a file *)

Lemma Split_nonempty s sep : Strings.Split s sep ≠ [].
Proof.
  induction s as [| c s IH]; [done |]. cbn.
  destruct (Ascii.eqb c sep); [done |]. by destruct (Strings.Split s sep).
Qed.

Lemma Split_append s t sep :
  Strings.Split (s +:+ String sep t) sep = Strings.Split s sep ++ Strings.Split t sep.
Proof.
  induction s as [| c s IH].
  - rewrite append_nil_l. cbn. by rewrite Ascii.eqb_refl.
  - rewrite append_String. cbn [Strings.Split]. rewrite IH.
    destruct (Ascii.eqb c sep); [done |].
    pose proof (Split_nonempty s sep). by destruct (Strings.Split s sep).
Qed.

Lemma Split_simple s sep : hasByte sep s = false → Strings.Split s sep = [s].
Proof.
  induction s as [| c s IH]; [done |]. cbn.
  intros [Hc Hs]%orb_false_iff. rewrite Ascii.eqb_sym, Hc. by rewrite IH.
Qed.

Lemma Split_slash_free s sep :
  Forall (λ e, hasByte sep e = false) (Strings.Split s sep).
Proof.
  induction s as [| c s IH]; [by constructor |]. cbn.
  destruct (Ascii.eqb c sep) eqn:Hc; [by constructor |].
  pose proof (Split_nonempty s sep).
  destruct (Strings.Split s sep) as [| e rest]; [done |].
  apply Forall_cons in IH as [He Hrest]. constructor; [| done].
  cbn. by rewrite Ascii.eqb_sym, Hc.
Qed.

Lemma Join_cons e e' rest sep :
  Strings.Join (e :: e' :: rest) sep = e +:+ sep +:+ Strings.Join (e' :: rest) sep.
Proof. done. Qed.

Lemma Split_Join elems :
  elems ≠ [] → Forall (λ e, hasByte "/" e = false) elems →
  Strings.Split (Strings.Join elems "/") "/" = elems.
Proof.
  induction elems as [| e [| e' rest] IH]; intros Hne Hall; [done | |].
  - apply Split_simple. by apply Forall_cons in Hall as [He _].
  - rewrite Join_cons. apply Forall_cons in Hall as [He Hall].
    change ("/" +:+ Strings.Join (e' :: rest) "/")
      with (String "/" (Strings.Join (e' :: rest) "/")).
    rewrite Split_append, (Split_simple e) by done.
    by rewrite IH.
Qed.

Lemma Join_nonempty elems sep :
  elems ≠ [] → Forall (λ e, e ≠ "") elems → Strings.Join elems sep ≠ "".
Proof.
  destruct elems as [| e [| e' rest]]; intros Hne Hall; [done | |].
  - by apply Forall_cons in Hall as [He _].
  - apply Forall_cons in Hall as [He _]. rewrite Join_cons. by destruct e.
Qed.

Lemma cleanStep_skip rooted stack elem :
  elem = "" ∨ elem = "." → Filepath.cleanStep rooted stack elem = stack.
Proof. intros He. unfold Filepath.cleanStep. by rewrite decide_True. Qed.

Lemma cleanStep_name rooted stack elem :
  elem ≠ "" ∧ elem ≠ "." ∧ elem ≠ ".." →
  Filepath.cleanStep rooted stack elem = elem :: stack.
Proof.
  intros (H1 & H2 & H3). unfold Filepath.cleanStep.
  rewrite decide_False by tauto. by rewrite decide_False.
Qed.

Lemma cleanStep_dots stack :
  Forall (λ e, e = "..") stack →
  Filepath.cleanStep false stack ".." = ".." :: stack.
Proof.
  intros Hdots. unfold Filepath.cleanStep.
  rewrite decide_False by (by intros [|]). rewrite decide_True by done.
  destruct stack as [| top below]; [done |].
  apply Forall_cons in Hdots as [-> _]. by rewrite decide_True.
Qed.

Lemma cleanStep_cleaned rooted stack elem :
  hasByte "/" elem = false →
  cleaned rooted stack → cleaned rooted (Filepath.cleanStep rooted stack elem).
Proof.
  intros Helem (names & dots & -> & Hnames & Hdots & Hrooted & Hfree).
  destruct (decide (elem = "" ∨ elem = ".")) as [Hskip | Hskip].
  { rewrite cleanStep_skip by done. by exists names, dots. }
  destruct (decide (elem = "..")) as [-> | Hname].
  - destruct names as [| top names].
    + destruct rooted.
      * rewrite (Hrooted eq_refl). by exists [], [].
      * cbn [app]. rewrite cleanStep_dots by done.
        exists [], (".." :: dots). cbn [app].
        split; [done |]. split; [done |]. split; [by constructor |].
        split; [done |]. by constructor.
    + apply Forall_cons in Hnames as [(_ & _ & Htop) Hnames].
      apply Forall_cons in Hfree as [_ Hfree].
      unfold Filepath.cleanStep. rewrite decide_False by done.
      rewrite decide_True by done. cbn [app]. rewrite decide_False by done.
      by exists names, dots.
  - rewrite cleanStep_name by tauto. exists (elem :: names), dots.
    split; [done |]. split; [constructor; [tauto | done] |].
    split; [done |]. split; [done |]. by constructor.
Qed.

Lemma fold_cleaned rooted elems stack :
  Forall (λ e, hasByte "/" e = false) elems →
  cleaned rooted stack →
  cleaned rooted (fold_left (Filepath.cleanStep rooted) elems stack).
Proof.
  revert stack. induction elems as [| e elems IH]; intros stack Hfree Hstack;
    [done |].
  apply Forall_cons in Hfree as [He Hfree]. cbn [fold_left].
  apply IH; [done |]. by apply cleanStep_cleaned.
Qed.

Lemma cleaned_nil rooted : cleaned rooted [].
Proof. by exists [], []. Qed.

Lemma cleanStack_cleaned path : cleaned (Filepath.isRooted path) (cleanStack path).
Proof.
  apply fold_cleaned; [apply Split_slash_free | apply cleaned_nil].
Qed.

Lemma fold_names rooted names stack :
  Forall (λ e, e ≠ "" ∧ e ≠ "." ∧ e ≠ "..") names →
  fold_left (Filepath.cleanStep rooted) names stack = rev names ++ stack.
Proof.
  revert stack. induction names as [| e names IH]; intros stack Hnames; [done |].
  apply Forall_cons in Hnames as [He Hnames]. cbn [fold_left rev].
  rewrite cleanStep_name, IH by done. by rewrite <- app_assoc.
Qed.

Lemma fold_dots dots stack :
  Forall (λ e, e = "..") dots → Forall (λ e, e = "..") stack →
  fold_left (Filepath.cleanStep false) dots stack = rev dots ++ stack.
Proof.
  revert stack. induction dots as [| e dots IH]; intros stack Hdots Hstack; [done |].
  apply Forall_cons in Hdots as [-> Hdots]. cbn [fold_left rev].
  rewrite cleanStep_dots, IH by (try constructor; done). by rewrite <- app_assoc.
Qed.

(** Cleaning the elements of a clean stack gives the stack back. *)
Lemma fold_cleaned_stack rooted stack :
  cleaned rooted stack →
  fold_left (Filepath.cleanStep rooted) (rev stack) [] = stack.
Proof.
  intros (names & dots & -> & Hnames & Hdots & Hrooted & _).
  rewrite rev_app_distr, fold_left_app.
  assert (fold_left (Filepath.cleanStep rooted) (rev dots) [] = dots) as ->.
  { destruct rooted; [by rewrite (Hrooted eq_refl) |].
    rewrite fold_dots, rev_involutive, app_nil_r; [done | | done].
    by apply Forall_rev. }
  rewrite fold_names, rev_involutive; [done |]. by apply Forall_rev.
Qed.

Lemma Clean_cleanStack path :
  path ≠ "" → Filepath.Clean path = cleanPath (Filepath.isRooted path) (cleanStack path).
Proof. intros Hne. unfold Filepath.Clean. by rewrite decide_False. Qed.

Lemma cleaned_nonempty rooted stack :
  cleaned rooted stack → Forall (λ e, e ≠ "") stack.
Proof.
  intros (names & dots & -> & Hnames & Hdots & _). apply Forall_app. split.
  - eapply Forall_impl; [exact Hnames |]. cbn. tauto.
  - eapply Forall_impl; [exact Hdots |]. by intros e ->.
Qed.

Lemma cleaned_free rooted stack :
  cleaned rooted stack → Forall (λ e, hasByte "/" e = false) stack.
Proof. by intros (names & dots & _ & _ & _ & _ & Hfree). Qed.

Lemma cleaned_push rooted stack name :
  simpleName name → cleaned rooted stack → cleaned rooted (name :: stack).
Proof.
  intros (H1 & H2 & H3 & H4) (names & dots & -> & Hnames & Hdots & Hrooted & Hfree).
  exists (name :: names), dots.
  split; [done |]. split; [by constructor |]. split; [done |]. split; [done |].
  by constructor.
Qed.

Lemma cleanPath_nonempty rooted stack : cleanPath rooted stack ≠ "".
Proof.
  unfold cleanPath. cbn zeta. destruct rooted; [done |].
  by destruct (decide (Strings.Join (rev stack) "/" = "")).
Qed.

Lemma HasPrefix_nil s : Strings.HasPrefix s "" = true.
Proof. by destruct s. Qed.

Lemma isRooted_String c s : Filepath.isRooted (String c s) = Ascii.eqb "/" c.
Proof.
  unfold Filepath.isRooted. cbn [Strings.HasPrefix]. rewrite HasPrefix_nil.
  by destruct (Ascii.eqb "/" c).
Qed.

Lemma isRooted_append s t : s ≠ "" → Filepath.isRooted (s +:+ t) = Filepath.isRooted s.
Proof.
  destruct s as [| c s]; [done |]. intros _.
  by rewrite append_String, !isRooted_String.
Qed.

Lemma isRooted_free s : s ≠ "" → hasByte "/" s = false → Filepath.isRooted s = false.
Proof.
  destruct s as [| c s]; [done |]. cbn [hasByte].
  intros _ [Hc _]%orb_false_iff. by rewrite isRooted_String.
Qed.

Lemma Join_head e rest sep : ∃ tail, Strings.Join (e :: rest) sep = e +:+ tail.
Proof.
  destruct rest as [| e' rest]; [exists ""; by rewrite append_nil_r |].
  rewrite Join_cons. by eexists.
Qed.

Lemma Join_empty_nil elems :
  Forall (λ e, e ≠ "") elems → Strings.Join elems "/" = "" → elems = [].
Proof.
  intros Hall Hjoin. destruct elems as [| e rest]; [done |].
  by apply Join_nonempty in Hjoin.
Qed.

Lemma isRooted_cleanPath rooted stack :
  cleaned rooted stack →
  Filepath.isRooted (cleanPath rooted stack) = rooted.
Proof.
  intros Hstack. unfold cleanPath. cbn zeta.
  destruct rooted; [exact (isRooted_String "/" _) |].
  destruct (decide (Strings.Join (rev stack) "/" = "")) as [| Hne]; [done |].
  pose proof (Forall_rev (cleaned_nonempty _ _ Hstack)) as Hnonempty.
  pose proof (Forall_rev (cleaned_free _ _ Hstack)) as Hfree.
  destruct (rev stack) as [| e rest]; [done |].
  apply Forall_cons in Hnonempty as [He _]. apply Forall_cons in Hfree as [He' _].
  destruct (Join_head e rest "/") as [tail ->].
  rewrite isRooted_append by done. by apply isRooted_free.
Qed.

Lemma rev_nil_inv {A} (l : list A) : rev l = [] → l = [].
Proof. intros H. by rewrite <- (rev_involutive l), H. Qed.

Lemma fold_Join_stack rooted stack :
  cleaned rooted stack →
  fold_left (Filepath.cleanStep rooted)
            (Strings.Split (Strings.Join (rev stack) "/") "/") [] = stack.
Proof.
  intros Hstack. destruct (rev stack) as [| e rest] eqn:Hrev.
  - by rewrite (rev_nil_inv stack Hrev).
  - rewrite <- Hrev, Split_Join.
    + by apply fold_cleaned_stack.
    + by rewrite Hrev.
    + apply Forall_rev. by eapply cleaned_free.
Qed.

Lemma cleanStack_cleanPath rooted stack :
  cleaned rooted stack → cleanStack (cleanPath rooted stack) = stack.
Proof.
  intros Hstack. unfold cleanStack. rewrite isRooted_cleanPath by done.
  unfold cleanPath. cbn zeta. destruct rooted.
  - change ("/" +:+ Strings.Join (rev stack) "/")
      with (String "/" (Strings.Join (rev stack) "/")).
    cbn [Strings.Split]. rewrite Ascii.eqb_refl. cbn [fold_left].
    rewrite cleanStep_skip by by left. by apply fold_Join_stack.
  - destruct (decide (Strings.Join (rev stack) "/" = "")) as [Hnil | Hne];
      [| by apply fold_Join_stack].
    apply Join_empty_nil in Hnil; [by rewrite (rev_nil_inv stack Hnil) |].
    apply Forall_rev. by eapply cleaned_nonempty.
Qed.

(** [Clean] leaves a clean path as it is. *)
Lemma Clean_idemp path : Filepath.Clean (Filepath.Clean path) = Filepath.Clean path.
Proof.
  destruct (decide (path = "")) as [-> | Hne]; [done |].
  rewrite (Clean_cleanStack path Hne).
  rewrite Clean_cleanStack by apply cleanPath_nonempty.
  pose proof (cleanStack_cleaned path) as Hstack.
  by rewrite isRooted_cleanPath, cleanStack_cleanPath.
Qed.

Lemma cleanStack_child dir name :
  dir ≠ "" → simpleName name →
  Filepath.isRooted (dir +:+ "/" +:+ name) = Filepath.isRooted dir
  ∧ cleanStack (dir +:+ "/" +:+ name) = name :: cleanStack dir.
Proof.
  intros Hdir (H1 & H2 & H3 & H4).
  assert (Filepath.isRooted (dir +:+ "/" +:+ name) = Filepath.isRooted dir) as Hrooted
    by by apply isRooted_append.
  split; [done |]. unfold cleanStack. rewrite Hrooted.
  change ("/" +:+ name) with (String "/" name).
  rewrite Split_append, fold_left_app, (Split_simple name) by done.
  cbn [fold_left]. by apply cleanStep_name.
Qed.

(** The path of an entry [name] of the directory at [dir]. *)
Lemma Join_child dir name :
  dir ≠ "" → simpleName name →
  Filepath.Join dir name = cleanPath (Filepath.isRooted dir) (name :: cleanStack dir).
Proof.
  intros Hdir Hname. unfold Filepath.Join. rewrite decide_False by done.
  destruct (cleanStack_child dir name Hdir Hname) as [Hrooted Hstack].
  rewrite Clean_cleanStack by by destruct dir.
  by rewrite Hrooted, Hstack.
Qed.

(** Joining a name to a directory or to its clean path is the same. *)
Lemma Join_Clean dir name :
  dir ≠ "" → simpleName name →
  Filepath.Join (Filepath.Clean dir) name = Filepath.Join dir name.
Proof.
  intros Hdir Hname. rewrite (Join_child dir) by done.
  rewrite (Clean_cleanStack dir Hdir).
  rewrite Join_child by (apply cleanPath_nonempty || done).
  pose proof (cleanStack_cleaned dir) as Hstack.
  by rewrite isRooted_cleanPath, cleanStack_cleanPath.
Qed.

Lemma Split_cleanPath_child rooted stack name :
  cleaned rooted stack → simpleName name →
  Strings.Split (cleanPath rooted (name :: stack)) "/"
  = (if rooted then [""] else []) ++ rev stack ++ [name].
Proof.
  intros Hstack Hname. pose proof (cleaned_push _ _ _ Hname Hstack) as Hpush.
  assert (Strings.Split (Strings.Join (rev (name :: stack)) "/") "/"
          = rev stack ++ [name]) as Hsplit.
  { rewrite Split_Join; [done | cbn; by destruct (rev stack) |].
    apply Forall_rev. by eapply cleaned_free. }
  unfold cleanPath. cbn zeta. destruct rooted.
  - change ("/" +:+ Strings.Join (rev (name :: stack)) "/")
      with (String "/" (Strings.Join (rev (name :: stack)) "/")).
    cbn [Strings.Split]. by rewrite Ascii.eqb_refl, Hsplit.
  - rewrite decide_False; [done |].
    apply Join_nonempty; [cbn; by destruct (rev stack) |].
    apply Forall_rev. by eapply cleaned_nonempty.
Qed.

Lemma Base_child rooted stack name :
  cleaned rooted stack → simpleName name →
  Filepath.Base (cleanPath rooted (name :: stack)) = name.
Proof.
  intros Hstack Hname. unfold Filepath.Base, Filepath.lastNonEmpty.
  rewrite Split_cleanPath_child by done.
  rewrite !rev_app_distr. cbn [rev app find].
  destruct Hname as (Hne & _). by rewrite (proj2 (String.eqb_neq name "") Hne).
Qed.

Lemma Clean_trailing_separator rooted stack :
  cleaned rooted stack →
  Filepath.Clean (cleanPath rooted stack +:+ "/") = cleanPath rooted stack.
Proof.
  intros Hstack. pose proof (cleanPath_nonempty rooted stack) as Hne.
  rewrite Clean_cleanStack by (by destruct (cleanPath rooted stack)).
  rewrite isRooted_append, isRooted_cleanPath by done. f_equal.
  unfold cleanStack. rewrite isRooted_append, isRooted_cleanPath by done.
  change "/" with (String "/" ""). rewrite Split_append, fold_left_app.
  pose proof (cleanStack_cleanPath rooted stack Hstack) as Hfold.
  unfold cleanStack in Hfold. rewrite isRooted_cleanPath in Hfold by done.
  rewrite Hfold. cbn. by apply cleanStep_skip; left.
Qed.

Lemma Dir_child rooted stack name :
  cleaned rooted stack → simpleName name →
  Filepath.Dir (cleanPath rooted (name :: stack)) = cleanPath rooted stack.
Proof.
  intros Hstack Hname. unfold Filepath.Dir, Filepath.dirPart.
  rewrite Split_cleanPath_child by done.
  rewrite !rev_app_distr, rev_involutive. cbn [rev app].
  destruct (stack ++ rev (if rooted then [""] else [])) as [| e front] eqn:Hfront.
  - apply app_eq_nil in Hfront as [-> Hpre]. by destruct rooted.
  - rewrite <- Hfront, rev_app_distr, rev_involutive.
    destruct rooted.
    + cbn [rev app]. destruct (rev stack) as [| e' rest] eqn:Hrev.
      * by rewrite (rev_nil_inv stack Hrev).
      * rewrite <- Hrev. rewrite <- (Clean_trailing_separator true stack Hstack).
        f_equal. unfold cleanPath. cbn zeta. rewrite Hrev. by rewrite Join_cons.
    + cbn [rev app] in *. rewrite app_nil_r in Hfront.
      rewrite <- (Clean_trailing_separator false stack Hstack).
      f_equal. unfold cleanPath. cbn zeta. rewrite decide_False; [done |].
      apply Join_nonempty.
      * intros Hrev%rev_nil_inv. by rewrite Hrev in Hfront.
      * apply Forall_rev. by eapply cleaned_nonempty.
Qed.

(** The entry [name] of the directory at [dir], as the walk names it: its
    base is [name], its directory the clean path of [dir], and a name joined
    to its directory is the entry of that name in the same directory. *)
Lemma child_path dir name :
  dir ≠ "" → simpleName name →
  Filepath.Base (Filepath.Join dir name) = name
  ∧ Filepath.Dir (Filepath.Join dir name) = Filepath.Clean dir
  ∧ ∀ other, simpleName other →
      Filepath.Join (Filepath.Dir (Filepath.Join dir name)) other
      = Filepath.Join dir other.
Proof.
  intros Hdir Hname. pose proof (cleanStack_cleaned dir) as Hstack.
  rewrite Join_child by done.
  rewrite Base_child, Dir_child by done.
  rewrite <- Clean_cleanStack by done.
  split; [done |]. split; [done |]. intros other Hother. by apply Join_Clean.
Qed.

Lemma hasByte_append c s t : hasByte c (s +:+ t) = hasByte c s || hasByte c t.
Proof.
  induction s as [| c' s IH]; [done |].
  rewrite append_String. cbn. by rewrite IH, orb_assoc.
Qed.

Lemma simpleName_ext name ext :
  simpleName name → ext ≠ "" → hasByte "/" ext = false →
  simpleName (name +:+ ext).
Proof.
  intros (H1 & H2 & H3 & H4) Hext Hfree.
  split; [by destruct name |]. split; [| split].
  - destruct name as [| c [| c' name]]; [done | by destruct ext | done].
  - destruct name as [| c [| c' name]]; [done | | ].
    + destruct ext as [| e [| e' ext]]; [done | | done].
      intros [= -> ->]. done.
    + destruct name; [by destruct ext | done].
  - by rewrite hasByte_append, H4, Hfree.
Qed.

Lemma companion_simple name ext :
  simpleName name → ext ∈ checksumExtensions ++ signatureExtensions →
  simpleName (name +:+ ext).
Proof.
  intros Hname Hext. apply simpleName_ext; [done | |].
  - intros ->. revert Hext. by apply (bool_decide_eq_false_1 _).
  - assert (forallb (λ e, negb (hasByte "/" e))
                    (checksumExtensions ++ signatureExtensions) = true) as Hall
      by reflexivity.
    rewrite forallb_forall in Hall.
    apply negb_true_iff, Hall. by apply list_elem_of_In.
Qed.

Lemma manifest_simple csName : csName ∈ checksumFileNames → simpleName csName.
Proof.
  unfold checksumFileNames. rewrite !elem_of_cons, elem_of_nil.
  intros [-> | [-> | [-> | [-> | [-> | []]]]]]; by repeat split.
Qed.

Section Neighbours.

Variable json_Unmarshal : string → option npmLockfile.
Variable rangeOrder : string → gmap string npmPackage → list (string * npmPackage).

(** The analysis of the entry [name] of the directory at [dir] looks for
    its companions and for a manifest among the entries of that
    directory. *)
Lemma neighbours dir name (fileSet : gset string) :
  dir ≠ "" → simpleName name →
  let path := Filepath.Join dir name in
  (∀ exts, (∀ ext, ext ∈ exts → ext ∈ checksumExtensions ++ signatureExtensions) →
     hasCompanionFile (Filepath.Base path) (Filepath.Dir path) fileSet exts = true
     ↔ ∃ ext, ext ∈ exts ∧ Filepath.Join dir (name +:+ ext) ∈ fileSet)
  ∧ (existsb (λ csName, bool_decide (Filepath.Join (Filepath.Dir path) csName ∈ fileSet))
             checksumFileNames = true
     ↔ ∃ csName, csName ∈ checksumFileNames ∧ Filepath.Join dir csName ∈ fileSet).
Proof.
  intros Hdir Hname path.
  destruct (child_path dir name Hdir Hname) as (Hbase & _ & Hjoin). fold path in Hbase, Hjoin.
  split.
  - intros exts Hexts. rewrite hasCompanionFile_spec, Hbase.
    split; intros (ext & Hext & Hin); exists ext; (split; [done |]).
    + rewrite <- Hjoin; [done |]. apply companion_simple; [done | by apply Hexts].
    + rewrite Hjoin; [done |]. apply companion_simple; [done | by apply Hexts].
  - rewrite hasManifest_spec.
    split; intros (csName & Hcs & Hin); exists csName; (split; [done |]).
    + rewrite <- Hjoin; [done | by apply manifest_simple].
    + rewrite Hjoin; [done | by apply manifest_simple].
Qed.

(** The findings of the artifact checks in terms of the paths of the
    neighbours. *)
Lemma artifact_neighbours_aux fs (fileSet : gset string) dir name :
  dir ≠ "" → simpleName name → isReleaseArtifact name = true →
  let found := analyzeFile json_Unmarshal rangeOrder fs fileSet []
                 (Filepath.Join dir name) in
  (filter (λ f, RuleId f = "ARTINT-001") found = []
   ↔ (∃ ext, ext ∈ checksumExtensions ∧ Filepath.Join dir (name +:+ ext) ∈ fileSet)
     ∨ (∃ csName, csName ∈ checksumFileNames ∧ Filepath.Join dir csName ∈ fileSet))
  ∧ (filter (λ f, RuleId f = "ARTINT-002") found = []
     ↔ ∃ ext, ext ∈ signatureExtensions ∧ Filepath.Join dir (name +:+ ext) ∈ fileSet).
Proof.
  intros Hdir Hname Hart found.
  destruct (neighbours dir name fileSet Hdir Hname) as [Hcomp Hman].
  destruct (child_path dir name Hdir Hname) as (Hbase & _ & _).
  assert (found = checkMissingChecksum [] (Filepath.Join dir name)
                    (Filepath.Base (Filepath.Join dir name))
                    (Filepath.Dir (Filepath.Join dir name)) fileSet
                  ++ checkUnsignedArtifact [] (Filepath.Join dir name)
                       (Filepath.Base (Filepath.Join dir name))
                       (Filepath.Dir (Filepath.Join dir name)) fileSet) as ->.
  { unfold found. rewrite analyzeFile_artifact by by rewrite Hbase.
    apply checkUnsignedArtifact_emits. }
  rewrite !filter_app.
  rewrite <- (Hcomp checksumExtensions) by (intros ext Hext; apply elem_of_app; by left).
  rewrite <- (Hcomp signatureExtensions) by (intros ext Hext; apply elem_of_app; by right).
  rewrite <- Hman. unfold checkMissingChecksum, checkUnsignedArtifact.
  destruct (hasCompanionFile _ _ _ checksumExtensions);
    destruct (existsb _ checksumFileNames);
    destruct (hasCompanionFile _ _ _ signatureExtensions);
    rewrite ?Done_chain2; cbn [app];
    rewrite ?filter_cons_True, ?filter_cons_False, ?filter_nil by done;
    cbn [app]; split; split; intros H; try done; try tauto;
    destruct H as [H | H]; done.
Qed.

(** X15.  The artifact checks look for the neighbours of an artifact where
    the walk has put them: for the entry [name] of the directory at [dir],
    the analysis reports no missing checksum exactly when the index holds
    the path the walk gives to an entry of the same directory named [name]
    plus a checksum extension, or to a manifest of that directory, and no
    missing signature exactly when it holds that of [name] plus a signature
    extension. *)
Theorem artifact_neighbours fs (fileSet : gset string) dir name :
  dir ≠ "" → simpleName name → isReleaseArtifact name = true →
  let found := analyzeFile json_Unmarshal rangeOrder fs fileSet []
                 (Filepath.Join dir name) in
  (filter (λ f, RuleId f = "ARTINT-001") found = []
   ↔ (∃ ext, ext ∈ checksumExtensions ∧ Filepath.Join dir (name +:+ ext) ∈ fileSet)
     ∨ (∃ csName, csName ∈ checksumFileNames ∧ Filepath.Join dir csName ∈ fileSet))
  ∧ (filter (λ f, RuleId f = "ARTINT-002") found = []
     ↔ ∃ ext, ext ∈ signatureExtensions ∧ Filepath.Join dir (name +:+ ext) ∈ fileSet).
Proof. apply artifact_neighbours_aux. Qed.

End Neighbours.

(** ** Companions in the workspace *)

Lemma Clean_nonempty path : Filepath.Clean path ≠ "".
Proof.
  destruct (decide (path = "")) as [-> | Hne]; [done |].
  rewrite Clean_cleanStack by done. apply cleanPath_nonempty.
Qed.

Lemma Join_nonempty_l dir name : dir ≠ "" → Filepath.Join dir name ≠ "".
Proof.
  intros Hdir. unfold Filepath.Join. rewrite decide_False by done.
  apply Clean_nonempty.
Qed.

Lemma visits_nonempty path d dirPath listing :
  visits path d dirPath listing → path ≠ "" → dirPath ≠ "".
Proof.
  induction 1 as [| path name entries r e dirPath listing _ _ _ IH]; [done |].
  intros Hpath. by apply IH, Join_nonempty_l.
Qed.

(** The walk collects the files of the listings it goes through. *)
Lemma visits_files path d dirPath listing name :
  visits path d dirPath listing → FileEntry name ∈ listing →
  Filepath.Join dirPath name ∈ treeFiles path d.
Proof.
  induction 1 as [path dname entries r Hskip
                 | path dname entries r e dirPath listing Hskip He _ IH];
    intros Hname; cbn [treeFiles]; rewrite Hskip;
    apply list_elem_of_In, in_flat_map.
  - exists (FileEntry name). split; [by apply list_elem_of_In |]. by left.
  - exists e. split; [by apply list_elem_of_In |]. by apply list_elem_of_In, IH.
Qed.

Section CompanionsInWorkspace.

Variable json_Unmarshal : string → option npmLockfile.
Variable rangeOrder : string → gmap string npmPackage → list (string * npmPackage).

(** A finding of a scan comes from the analysis of the file it is located
    at, against the index of all the files of the workspace. *)
Lemma scan_finding_origin ctx fs req found f :
  handleScan json_Unmarshal rangeOrder ctx fs req = Response found →
  f ∈ found →
  f ∈ analyzeFile json_Unmarshal rangeOrder fs
        (list_to_set (workspaceFiles fs (requestedRoot req))) [] (LocationFile f).
Proof.
  intros Hscan Hf.
  destruct (handleScan_cases json_Unmarshal rangeOrder ctx fs req)
    as [[_ Hnone] | [(_ & Herr & _ & Hrun) | (_ & _ & Hstop)]].
  - rewrite Hnone in Hscan. injection Hscan as <-. by apply elem_of_nil in Hf.
  - rewrite Hrun in Hscan. injection Hscan as <-.
    rewrite analyzeFiles_take in Hf.
    apply list_elem_of_In, in_flat_map in Hf as (path & _ & Hf).
    apply list_elem_of_In in Hf.
    rewrite (analyzeFile_located _ _ _ _ _ _ Hf).
    destruct (WalkDir_walked ctx fs (requestedRoot req) (mkWalkState [] ∅ 0))
      as (_ & got & _ & [_ Hset] & Hfull).
    rewrite (Hfull Herr) in Hset. cbn in Hset. rewrite union_empty_r_L in Hset.
    by rewrite <- Hset.
  - rewrite Hstop in Hscan. destruct (cause ctx); [| done].
    injection Hscan as <-. by apply elem_of_nil in Hf.
Qed.

(** X16.  Whatever the context, a scan reports no missing checksum for a
    file that has, among the entries of its directory, a file with its name
    plus a checksum extension or a checksum manifest, and no missing
    signature for a file that has there a file with its name plus a
    signature extension, wherever in the workspace the walk has gone through
    that directory. *)
Theorem companions_in_workspace ctx fs req tree dirPath listing name found f :
  requestedRoot req ≠ "" →
  Lstat fs (requestedRoot req) = Some tree →
  visits (requestedRoot req) tree dirPath listing →
  simpleName name →
  handleScan json_Unmarshal rangeOrder ctx fs req = Response found →
  f ∈ found → LocationFile f = Filepath.Join dirPath name →
  ((∃ ext, ext ∈ checksumExtensions ∧ FileEntry (name +:+ ext) ∈ listing)
   ∨ (∃ csName, csName ∈ checksumFileNames ∧ FileEntry csName ∈ listing) →
   RuleId f ≠ "ARTINT-001")
  ∧ ((∃ ext, ext ∈ signatureExtensions ∧ FileEntry (name +:+ ext) ∈ listing) →
     RuleId f ≠ "ARTINT-002").
Proof.
  intros Hroot Htree Hvisits Hname Hscan Hf Hloc.
  apply (scan_finding_origin ctx fs req found f Hscan) in Hf.
  rewrite Hloc in Hf. set (index := list_to_set _) in Hf.
  assert (∀ n, FileEntry n ∈ listing → Filepath.Join dirPath n ∈ index) as Hin.
  { intros n Hn. apply elem_of_list_to_set. unfold workspaceFiles. rewrite Htree.
    by eapply visits_files. }
  pose proof (visits_nonempty _ _ _ _ Hvisits Hroot) as Hdir.
  pose proof (analyzeFile_finding _ _ _ _ _ _ Hf) as Hkind.
  destruct (child_path dirPath name Hdir Hname) as (Hbase & _ & _).
  rewrite Hbase in Hkind.
  assert (RuleId f = "ARTINT-001" ∨ RuleId f = "ARTINT-002" →
          isReleaseArtifact name = true) as Hart.
  { destruct Hkind as [(Hart & _) | [(_ & l & r & d & a & _ & ->)
                      | [(_ & l & m & v & _ & ->) | (_ & k & pkg & _ & ->)]]];
      [done | | |]; by intros [|]. }
  split.
  - intros Hcompanion Hrule.
    pose proof (artifact_neighbours_aux json_Unmarshal rangeOrder fs index dirPath name Hdir Hname
                  (Hart (or_introl Hrule))) as [Hnone _].
    assert (f ∈ filter (λ f, RuleId f = "ARTINT-001")
              (analyzeFile json_Unmarshal rangeOrder fs index []
                 (Filepath.Join dirPath name))) as Hfound
      by (by apply list_elem_of_filter).
    rewrite (proj2 Hnone) in Hfound; [by apply elem_of_nil in Hfound |].
    destruct Hcompanion as [(ext & Hext & Hentry) | (csName & Hcs & Hentry)].
    + left. exists ext. split; [done | by apply Hin].
    + right. exists csName. split; [done | by apply Hin].
  - intros (ext & Hext & Hentry) Hrule.
    pose proof (artifact_neighbours_aux json_Unmarshal rangeOrder fs index dirPath name Hdir Hname
                  (Hart (or_intror Hrule))) as [_ Hnone].
    assert (f ∈ filter (λ f, RuleId f = "ARTINT-002")
              (analyzeFile json_Unmarshal rangeOrder fs index []
                 (Filepath.Join dirPath name))) as Hfound
      by (by apply list_elem_of_filter).
    rewrite (proj2 Hnone) in Hfound; [by apply elem_of_nil in Hfound |].
    exists ext. split; [done | by apply Hin].
Qed.

End CompanionsInWorkspace.


(** ** One check for a file *)

Section Dispatch.

Variable json_Unmarshal : string → option npmLockfile.
Variable rangeOrder : string → gmap string npmPackage → list (string * npmPackage).

(** The analysis of a file by the class of its name. *)
Lemma analyzeFile_by_class fs (fileSet : gset string) path :
  let name := Filepath.Base path in
  let dir := Filepath.Dir path in
  analyzeFile json_Unmarshal rangeOrder fs fileSet [] path
  = if isReleaseArtifact name then
      checkMissingChecksum [] path name dir fileSet
      ++ checkUnsignedArtifact [] path name dir fileSet
    else if index checksumFileNames name then
      checkChecksumMismatches fs [] path dir
    else if index lockfileNames name then
      checkLockfileIntegrity json_Unmarshal rangeOrder fs [] path
    else [].
Proof.
  intros name dir. unfold analyzeFile. fold name dir.
  destruct (isReleaseArtifact name) eqn:Hart.
  - destruct (artifact_only name Hart) as [-> ->].
    apply checkUnsignedArtifact_emits.
  - destruct (index checksumFileNames name) eqn:Hman; [| done].
    destruct (index lockfileNames name) eqn:Hlock; [| done].
    apply lockfile_not_manifest in Hlock. congruence.
Qed.


End Dispatch.

(** ** Every file once *)

Lemma cleanStack_Join dir name :
  dir ≠ "" → simpleName name →
  cleanStack (Filepath.Join dir name) = name :: cleanStack dir.
Proof.
  intros Hdir Hname. rewrite Join_child by done.
  apply cleanStack_cleanPath, cleaned_push; [done | apply cleanStack_cleaned].
Qed.

Lemma wellFormed_entries name entries readDirFails :
  wellFormed (DirectoryEntry name entries readDirFails) →
  Forall (λ e, simpleName (entryName e)) entries
  ∧ NoDup (map entryName entries)
  ∧ Forall wellFormed entries.
Proof. by inversion 1. Qed.

(** The files below a path have the elements of that path at the bottom of
    their own. *)
Lemma treeFiles_below d :
  ∀ path file, path ≠ "" → wellFormed d → file ∈ treeFiles path d →
               ∃ above, cleanStack file = above ++ cleanStack path.
Proof.
  induction d as [name | name entries readDirFails IH] using DirEntry_ind;
    intros path file Hpath Hwf; cbn [treeFiles].
  - intros ->%list_elem_of_singleton. by exists [].
  - destruct (index skippedDirs name); [by intros ?%elem_of_nil |].
    destruct (wellFormed_entries _ _ _ Hwf) as (Hnames & _ & Hwfs).
    intros (e & He & Hfile)%list_elem_of_In%in_flat_map.
    apply list_elem_of_In in He, Hfile.
    rewrite Forall_forall in IH, Hnames, Hwfs.
    destruct (IH e He (Filepath.Join path (entryName e)) file) as [above Habove];
      [by apply Join_nonempty_l | by apply Hwfs | done |].
    rewrite cleanStack_Join in Habove by (try apply Hnames; done).
    exists (above ++ [entryName e]). by rewrite <- app_assoc.
Qed.

Lemma treeFiles_NoDup d :
  ∀ path, path ≠ "" → wellFormed d → NoDup (treeFiles path d).
Proof.
  induction d as [name | name entries readDirFails IH] using DirEntry_ind;
    intros path Hpath Hwf; cbn [treeFiles].
  - apply NoDup_singleton.
  - destruct (index skippedDirs name); [apply NoDup_nil_2 |].
    destruct (wellFormed_entries _ _ _ Hwf) as (Hnames & Hnodup & Hwfs).
    clear Hwf. induction entries as [| e entries IHentries]; [apply NoDup_nil_2 |].
    apply Forall_cons in IH as [IHe IH], Hnames as [Hname Hnames],
      Hwfs as [Hwf Hwfs].
    cbn [map] in Hnodup. apply NoDup_cons in Hnodup as [Hfresh Hnodup].
    cbn [flat_map]. apply NoDup_app. split; [| split].
    + apply IHe; [by apply Join_nonempty_l | done].
    + intros file Hfile (e' & He' & Hfile')%list_elem_of_In%in_flat_map.
      apply list_elem_of_In in He', Hfile'.
      rewrite Forall_forall in Hnames, Hwfs.
      apply treeFiles_below in Hfile as [above Habove];
        [| by apply Join_nonempty_l | done].
      apply treeFiles_below in Hfile' as [above' Habove'];
        [| by apply Join_nonempty_l | by apply Hwfs].
      rewrite cleanStack_Join in Habove, Habove'
        by (first [done | by apply Hnames]).
      rewrite Habove in Habove'.
      change (above ++ entryName e :: cleanStack path)
        with (above ++ [entryName e] ++ cleanStack path) in Habove'.
      change (above' ++ entryName e' :: cleanStack path)
        with (above' ++ [entryName e'] ++ cleanStack path) in Habove'.
      rewrite !app_assoc in Habove'.
      apply app_inv_tail, app_inj_tail in Habove' as [_ Heq].
      apply Hfresh. rewrite Heq. apply list_elem_of_In, in_map.
      by apply list_elem_of_In.
    + by apply IHentries.
Qed.

Section EveryFileOnce.

Variable json_Unmarshal : string → option npmLockfile.
Variable rangeOrder : string → gmap string npmPackage → list (string * npmPackage).

(** The walk of a well-formed workspace meets no file twice, and the
    findings located at a file are those of its analysis. *)
Lemma scan_findings_by_file fs req tree found :
  let root := requestedRoot req in
  let files := workspaceFiles fs root in
  root ≠ "" → Lstat fs root = Some tree → wellFormed tree →
  handleScan json_Unmarshal rangeOrder Background fs req = Response found →
  NoDup files
  ∧ ∀ path, path ∈ files →
      filter (λ f, LocationFile f = path) found
      = analyzeFile json_Unmarshal rangeOrder fs (list_to_set files) [] path.
Proof.
  intros root files Hroot Htree Hwf Hscan.
  assert (NoDup files) as Hnodup.
  { unfold files, workspaceFiles. rewrite Htree. by apply treeFiles_NoDup. }
  split; [done |]. intros path Hpath.
  apply list_elem_of_split in Hpath as (before & after & Hfiles).
  destruct (WalkDir_Background fs root) as [Hall Hset]. fold files in Hall, Hset.
  rewrite Hfiles in Hnodup. apply NoDup_app in Hnodup as (_ & Hbefore & Hafter).
  apply NoDup_cons in Hafter as [Hafter _].
  rewrite <- Hset. subst files root.
  apply (scan_findings_of_file json_Unmarshal rangeOrder fs req found before path after);
    [done | done | by rewrite Hall | | done].
  intros Hin. apply (Hbefore path Hin). by left.
Qed.

(** X18.  In a workspace whose listings hold simple names, each once, the
    walk meets no file twice, and the findings that a scan under a context
    that is never done locates at a file of the workspace are exactly those
    of the analysis of that file against the index of all the files. *)
Theorem findings_of_each_file fs req tree found :
  let root := requestedRoot req in
  let files := workspaceFiles fs root in
  root ≠ "" → Lstat fs root = Some tree → wellFormed tree →
  handleScan json_Unmarshal rangeOrder Background fs req = Response found →
  NoDup files
  ∧ ∀ path, path ∈ files →
      filter (λ f, LocationFile f = path) found
      = analyzeFile json_Unmarshal rangeOrder fs (list_to_set files) [] path.
Proof. apply scan_findings_by_file. Qed.

End EveryFileOnce.

(** ** The artifacts of a workspace *)

Lemma visits_wellFormed path d dirPath listing :
  visits path d dirPath listing → wellFormed d →
  Forall (λ e, simpleName (entryName e)) listing
  ∧ NoDup (map entryName listing)
  ∧ Forall wellFormed listing.
Proof.
  induction 1 as [path name entries r Hskip
                 | path name entries r e dirPath listing Hskip He _ IH];
    intros Hwf; destruct (wellFormed_entries _ _ _ Hwf) as (Hnames & Hnodup & Hwfs);
    [done |].
  apply IH. rewrite Forall_forall in Hwfs. by apply Hwfs.
Qed.

(** The directory of a listing the walk goes through lies below the root of
    the walk. *)
Lemma visits_stack path d dirPath listing :
  visits path d dirPath listing → path ≠ "" → wellFormed d →
  ∃ above, cleanStack dirPath = above ++ cleanStack path.
Proof.
  induction 1 as [path name entries r Hskip
                 | path name entries r e dirPath listing Hskip He _ IH];
    intros Hpath Hwf; [by exists [] |].
  destruct (wellFormed_entries _ _ _ Hwf) as (Hnames & _ & Hwfs).
  rewrite Forall_forall in Hnames, Hwfs.
  destruct IH as [above Habove]; [by apply Join_nonempty_l | by apply Hwfs |].
  rewrite cleanStack_Join in Habove by (first [done | by apply Hnames]).
  exists (above ++ [entryName e]). by rewrite <- app_assoc.
Qed.

Lemma entry_by_name entries e e' :
  NoDup (map entryName entries) → e ∈ entries → e' ∈ entries →
  entryName e = entryName e' → e = e'.
Proof. apply NoDup_map_inj. Qed.

(** Two listings at the same clean path are the same listing. *)
Lemma visits_unique path d dirPath listing :
  visits path d dirPath listing →
  ∀ dirPath' listing',
    visits path d dirPath' listing' → path ≠ "" → wellFormed d →
    cleanStack dirPath = cleanStack dirPath' → listing = listing'.
Proof.
  induction 1 as [path name entries r Hskip
                 | path name entries r e dirPath listing Hskip He Hvisits IH];
    intros dirPath' listing' Hvisits' Hpath Hwf Hstack;
    destruct (wellFormed_entries _ _ _ Hwf) as (Hnames & Hnodup & Hwfs);
    rewrite Forall_forall in Hnames, Hwfs;
    inversion Hvisits' as [| ? ? ? ? e' ? ? _ He' Hbelow']; subst.
  - done.
  - exfalso.
    destruct (visits_stack _ _ _ _ Hbelow') as [above Habove];
      [by apply Join_nonempty_l | by apply Hwfs |].
    rewrite cleanStack_Join in Habove by (first [done | by apply Hnames]).
    rewrite <- Hstack in Habove. apply (f_equal length) in Habove.
    rewrite length_app in Habove. cbn in Habove. lia.
  - exfalso.
    destruct (visits_stack _ _ _ _ Hvisits) as [above Habove];
      [by apply Join_nonempty_l | by apply Hwfs |].
    rewrite cleanStack_Join in Habove by (first [done | by apply Hnames]).
    rewrite Hstack in Habove. apply (f_equal length) in Habove.
    rewrite length_app in Habove. cbn in Habove. lia.
  - destruct (visits_stack _ _ _ _ Hvisits) as [above Habove];
      [by apply Join_nonempty_l | by apply Hwfs |].
    destruct (visits_stack _ _ _ _ Hbelow') as [above' Habove'];
      [by apply Join_nonempty_l | by apply Hwfs |].
    rewrite cleanStack_Join in Habove, Habove' by (first [done | by apply Hnames]).
    rewrite Hstack, Habove' in Habove.
    change (above' ++ entryName e' :: cleanStack path)
      with (above' ++ [entryName e'] ++ cleanStack path) in Habove.
    change (above ++ entryName e :: cleanStack path)
      with (above ++ [entryName e] ++ cleanStack path) in Habove.
    rewrite !app_assoc in Habove.
    apply app_inv_tail, app_inj_tail in Habove as [_ Heq].
    assert (e' = e) as -> by by eapply entry_by_name.
    apply (IH dirPath' listing' Hbelow');
      [by apply Join_nonempty_l | by apply Hwfs | done].
Qed.

(** Every file the walk collects is the root itself or an entry of a
    listing it goes through. *)
Lemma treeFiles_visits d :
  ∀ path file, file ∈ treeFiles path d →
    (∃ name, d = FileEntry name ∧ file = path)
    ∨ ∃ dirPath listing name,
        visits path d dirPath listing ∧ FileEntry name ∈ listing
        ∧ file = Filepath.Join dirPath name.
Proof.
  induction d as [name | name entries readDirFails IH] using DirEntry_ind;
    intros path file; cbn [treeFiles].
  - intros ->%list_elem_of_singleton. left. by exists name.
  - destruct (index skippedDirs name) eqn:Hskip; [by intros ?%elem_of_nil |].
    intros (e & He & Hfile)%list_elem_of_In%in_flat_map.
    apply list_elem_of_In in He, Hfile. rewrite Forall_forall in IH. right.
    destruct (IH e He _ _ Hfile)
      as [(n & -> & ->) | (dirPath & listing & n & Hvisits & Hn & ->)].
    + exists path, entries, n. split; [by apply visits_here | done].
    + exists dirPath, listing, n. split; [by eapply visits_below | done].
Qed.

(** The index holds the path of an entry of a listing exactly when the
    listing holds a file of that name. *)
Lemma file_of_listing root tree dirPath listing name :
  root ≠ "" → wellFormed tree → visits root tree dirPath listing →
  simpleName name →
  Filepath.Join dirPath name ∈ treeFiles root tree ↔ FileEntry name ∈ listing.
Proof.
  intros Hroot Hwf Hvisits Hname. split; [| by apply visits_files].
  intros [(n & -> & _) | (dirPath' & listing' & name' & Hvisits' & Hentry & Heq)]
    %treeFiles_visits; [by inversion Hvisits |].
  destruct (visits_wellFormed _ _ _ _ Hvisits' Hwf) as (Hnames' & _ & _).
  rewrite Forall_forall in Hnames'. specialize (Hnames' _ Hentry). cbn in Hnames'.
  apply (f_equal cleanStack) in Heq.
  rewrite !cleanStack_Join in Heq by (first [done | by eapply visits_nonempty]).
  injection Heq as -> Hstack.
  by rewrite (visits_unique _ _ _ _ Hvisits _ _ Hvisits' Hroot Hwf Hstack).
Qed.

Section ArtifactsOfWorkspace.

Variable json_Unmarshal : string → option npmLockfile.
Variable rangeOrder : string → gmap string npmPackage → list (string * npmPackage).

(** X19.  In a workspace whose listings hold simple names, each once, a
    scan under a context that is never done reports a missing checksum for
    a release artifact of a listing the walk goes through exactly when the
    listing holds neither a file with the name of the artifact plus a
    checksum extension nor a checksum manifest, and a missing signature
    exactly when it holds no file with its name plus a signature
    extension. *)
Theorem artifact_findings_in_workspace fs req tree dirPath listing name found :
  let root := requestedRoot req in
  let mine := filter (λ f, LocationFile f = Filepath.Join dirPath name) found in
  root ≠ "" → Lstat fs root = Some tree → wellFormed tree →
  visits root tree dirPath listing → FileEntry name ∈ listing →
  isReleaseArtifact name = true →
  handleScan json_Unmarshal rangeOrder Background fs req = Response found →
  (filter (λ f, RuleId f = "ARTINT-001") mine = []
   ↔ (∃ ext, ext ∈ checksumExtensions ∧ FileEntry (name +:+ ext) ∈ listing)
     ∨ (∃ csName, csName ∈ checksumFileNames ∧ FileEntry csName ∈ listing))
  ∧ (filter (λ f, RuleId f = "ARTINT-002") mine = []
     ↔ ∃ ext, ext ∈ signatureExtensions ∧ FileEntry (name +:+ ext) ∈ listing).
Proof.
  intros root mine Hroot Htree Hwf Hvisits Hentry Hart Hscan. subst root mine.
  destruct (visits_wellFormed _ _ _ _ Hvisits Hwf) as (Hnames & _ & _).
  rewrite Forall_forall in Hnames. pose proof (Hnames _ Hentry) as Hname.
  cbn in Hname.
  pose proof (visits_nonempty _ _ _ _ Hvisits Hroot) as Hdir.
  destruct (scan_findings_by_file json_Unmarshal rangeOrder fs req tree found
              Hroot Htree Hwf Hscan) as [_ Hmine].
  assert (∀ n, simpleName n →
               Filepath.Join dirPath n
               ∈ (list_to_set (workspaceFiles fs (requestedRoot req)) : gset string)
               ↔ FileEntry n ∈ listing) as Hindex.
  { intros n Hn. rewrite elem_of_list_to_set. unfold workspaceFiles.
    rewrite Htree. by apply file_of_listing. }
  rewrite Hmine
    by (unfold workspaceFiles; rewrite Htree; by eapply visits_files).
  destruct (artifact_neighbours_aux json_Unmarshal rangeOrder fs
              (list_to_set (workspaceFiles fs (requestedRoot req)))
              dirPath name Hdir Hname Hart) as [-> ->].
  split.
  - split.
    + intros [(ext & Hext & Hin) | (csName & Hcs & Hin)].
      * left. exists ext. split; [done |]. apply Hindex; [| done].
        apply companion_simple; [done |]. apply elem_of_app. by left.
      * right. exists csName. split; [done |].
        apply Hindex; [by apply manifest_simple | done].
    + intros [(ext & Hext & Hin) | (csName & Hcs & Hin)].
      * left. exists ext. split; [done |]. apply Hindex; [| done].
        apply companion_simple; [done |]. apply elem_of_app. by left.
      * right. exists csName. split; [done |].
        apply Hindex; [by apply manifest_simple | done].
  - split; intros (ext & Hext & Hin); exists ext; (split; [done |]);
      (apply Hindex; [| done]); (apply companion_simple; [done |]);
      apply elem_of_app; by right.
Qed.

End ArtifactsOfWorkspace.

(** ** Manifests and lockfiles of a workspace *)






Section ChecksOfWorkspace.

Variable json_Unmarshal : string → option npmLockfile.
Variable rangeOrder : string → gmap string npmPackage → list (string * npmPackage).


End ChecksOfWorkspace.

(** ** No finding twice *)

Lemma inLineOrder_NoDup lo hi (found : list Finding) :
  inLineOrder lo hi found → NoDup found.
Proof.
  intros [Hsorted _]. apply NoDup_alt. intros i j f Hi Hj.
  destruct (Nat.lt_trichotomy i j) as [Hlt | [Heq | Hgt]]; [| done |].
  - pose proof (Hsorted i j f f Hlt Hi Hj). lia.
  - pose proof (Hsorted j i f f Hgt Hj Hi). lia.
Qed.

Lemma NoDup_flat_map {A B} (f : A → list B) (key : B → A) (l : list A) :
  NoDup l → (∀ x y, y ∈ f x → key y = x) → (∀ x, x ∈ l → NoDup (f x)) →
  NoDup (flat_map f l).
Proof.
  intros Hnodup Hkey Heach. induction l as [| x l IH]; [apply NoDup_nil_2 |].
  apply NoDup_cons in Hnodup as [Hx Hnodup]. cbn [flat_map].
  apply NoDup_app. split; [| split].
  - apply Heach. by left.
  - intros y Hy (x' & Hx' & Hy')%list_elem_of_In%in_flat_map.
    apply list_elem_of_In in Hx', Hy'.
    apply Hkey in Hy, Hy'. apply Hx. congruence.
  - apply IH; [done |]. intros x' Hx'. apply Heach. by right.
Qed.

Lemma npmLoop_NoDup filePath entries :
  NoDup (map fst entries) →
  NoDup (flat_map (npmEntry filePath []) entries).
Proof.
  rewrite npmLoop_lacksIntegrity.
  induction entries as [| [pkgPath pkg] entries IH]; intros Hnodup;
    [apply NoDup_nil_2 |].
  cbn [map fst] in Hnodup. apply NoDup_cons in Hnodup as [Hfresh Hnodup].
  cbn [List.filter]. destruct (lacksIntegrity (pkgPath, pkg)); [| by apply IH].
  cbn [map]. apply NoDup_cons. split; [| by apply IH].
  intros ([pkgPath' pkg'] & Heq & Hin)%list_elem_of_In%in_map_iff.
  apply filter_In in Hin as [Hin _]. apply Hfresh.
  apply (f_equal (λ f, Metadata f !! "package")) in Heq.
  rewrite !missingIntegrity_package in Heq. injection Heq as <-.
  apply list_elem_of_In, in_map_iff. by exists (pkgPath', pkg').
Qed.

Lemma artifact_checks_NoDup path name dir (fileSet : gset string) :
  NoDup (checkMissingChecksum [] path name dir fileSet
         ++ checkUnsignedArtifact [] path name dir fileSet).
Proof.
  unfold checkMissingChecksum, checkUnsignedArtifact.
  repeat match goal with |- context [if ?b then _ else _] => destruct b end;
    rewrite ?Done_chain2; cbn [app];
    repeat (apply NoDup_cons; split; [| try apply NoDup_nil_2]);
    try apply NoDup_nil_2; rewrite ?elem_of_nil; try tauto.
  by intros [= ]%list_elem_of_singleton.
Qed.

Section NoFindingTwice.

Variable json_Unmarshal : string → option npmLockfile.
Variable rangeOrder : string → gmap string npmPackage → list (string * npmPackage).
Hypothesis rangeOrder_entries : ∀ path m, rangeOrder path m ≡ₚ map_to_list m.

Lemma analyzeFile_NoDup fs (fileSet : gset string) path :
  NoDup (analyzeFile json_Unmarshal rangeOrder fs fileSet [] path).
Proof.
  rewrite analyzeFile_by_class. cbn zeta.
  destruct (isReleaseArtifact _); [apply artifact_checks_NoDup |].
  destruct (index checksumFileNames _).
  { unfold checkChecksumMismatches.
    destruct (ReadFile fs path) as [content |]; [| apply NoDup_nil_2].
    eapply inLineOrder_NoDup, checksumLoop_inLineOrder. }
  destruct (index lockfileNames _); [| apply NoDup_nil_2].
  unfold checkLockfileIntegrity, checkNPMLockfileIntegrity, checkGoSumIntegrity.
  destruct (bool_decide _).
  - destruct (ReadFile fs path) as [data |]; [| apply NoDup_nil_2].
    destruct (json_Unmarshal data) as [lockfile |]; [| apply NoDup_nil_2].
    rewrite npmLoop_emits. cbn [app]. apply npmLoop_NoDup.
    rewrite (rangeOrder_entries path (Packages lockfile)).
    apply NoDup_fst_map_to_list.
  - destruct (bool_decide _); [| apply NoDup_nil_2].
    destruct (ReadFile fs path) as [content |]; [| apply NoDup_nil_2].
    eapply inLineOrder_NoDup, goSumLoop_inLineOrder.
Qed.

(** X21.  In a workspace whose listings hold simple names, each once, and
    with [range] visiting every entry of a map once, no finding occurs
    twice in a response, whatever the context. *)
Theorem no_finding_twice ctx fs req tree found :
  requestedRoot req ≠ "" →
  Lstat fs (requestedRoot req) = Some tree → wellFormed tree →
  handleScan json_Unmarshal rangeOrder ctx fs req = Response found →
  NoDup found.
Proof.
  intros Hroot Htree Hwf Hscan.
  destruct (handleScan_cases json_Unmarshal rangeOrder ctx fs req)
    as [[_ Hnone] | [(_ & Herr & _ & Hrun) | (_ & _ & Hstop)]].
  - rewrite Hnone in Hscan. injection Hscan as <-. apply NoDup_nil_2.
  - rewrite Hrun in Hscan. injection Hscan as <-.
    rewrite analyzeFiles_take.
    apply (NoDup_flat_map _ LocationFile).
    + destruct (WalkDir_walked ctx fs (requestedRoot req) (mkWalkState [] ∅ 0))
        as (_ & got & _ & [Hfiles _] & Hfull).
      rewrite (Hfull Herr) in Hfiles. cbn in Hfiles. rewrite Hfiles.
      eapply sublist_NoDup; [| apply sublist_take].
      unfold workspaceFiles. rewrite Htree. by apply treeFiles_NoDup.
    + intros path f Hf. by eapply analyzeFile_located.
    + intros path _. apply analyzeFile_NoDup.
  - rewrite Hstop in Hscan. destruct (cause ctx); [| done].
    injection Hscan as <-. apply NoDup_nil_2.
Qed.

End NoFindingTwice.


(** ** The further properties at the example workspaces *)


(** The one finding of the go.sum of the example is at its third and last
    line. *)
Lemma findings_in_line_order_witness :
  ReadFile demoFS "demo/go.sum" = Some demoGoSum
  ∧ inLineOrder 0 3 (checkGoSumIntegrity demoFS [] "demo/go.sum").
Proof.
  split; [reflexivity |].
  apply (findings_in_line_order demoFS "demo/go.sum" "demo" demoGoSum eq_refl).
Defined.



(** The checksum companion of the archive of the example is not taken for
    an artifact. *)
Lemma companion_not_artifact_witness :
  ".sha256" ∈ checksumExtensions ++ signatureExtensions
  ∧ isReleaseArtifact "myapp.tar.gz.sha256" = false.
Proof.
  assert (".sha256" ∈ checksumExtensions ++ signatureExtensions) as Hext by by left.
  split; [exact Hext |].
  apply (companion_not_artifact "myapp.tar.gz" ".sha256" Hext).
Defined.

(** The two findings of the lockfile of the example. *)
Lemma npm_findings_exact_witness :
  ReadFile demoFS "demo/package-lock.json" = Some "{..}"
  ∧ demoDecoder "{..}" = Some demoLockfile
  ∧ length (checkNPMLockfileIntegrity demoDecoder listOrder demoFS []
              "demo/package-lock.json") = 2.
Proof.
  split; [reflexivity |]. split; [reflexivity |].
  rewrite (npm_findings_exact demoDecoder listOrder demoFS "demo/package-lock.json"
             "{..}" demoLockfile eq_refl eq_refl (reflexivity _)).
  reflexivity.
Defined.

(** Against the empty index the archive of the example lacks checksum and
    signature; against the index of the workspace only the signature. *)
Lemma more_files_fewer_findings_witness :
  (∅ : gset string) ⊆ demoFileSet
  ∧ analyzeFile demoDecoder listOrder demoFS demoFileSet []
      "demo/release/myapp.tar.gz"
    `sublist_of` analyzeFile demoDecoder listOrder demoFS ∅ []
                   "demo/release/myapp.tar.gz".
Proof.
  assert ((∅ : gset string) ⊆ demoFileSet) as Hsub by apply empty_subseteq.
  split; [exact Hsub |].
  apply (more_files_fewer_findings demoDecoder listOrder demoFS ∅ demoFileSet
           "demo/release/myapp.tar.gz" Hsub).
Defined.

(** The conflicting duplicate of a go.sum goes unnoticed behind a first
    line of 64 KiB. *)
Lemma long_line_ends_check_witness :
  ReadFile (singleFile "go.sum" longGoSum) "go.sum"
  = Some ("" +:+ longLine +:+ newline +:+ demoGoSum)
  ∧ checkGoSumIntegrity (singleFile "go.sum" longGoSum) [] "go.sum" = []
  ∧ checkGoSumIntegrity (singleFile "go.sum" demoGoSum) [] "go.sum" ≠ [].
Proof.
  assert (ReadFile (singleFile "go.sum" longGoSum) "go.sum"
          = Some ("" +:+ longLine +:+ newline +:+ demoGoSum)) as Hread
    by reflexivity.
  split; [exact Hread |]. split; [| done].
  refine (proj2 (long_line_ends_check (singleFile "go.sum" longGoSum) "go.sum" "."
                   "" longLine (newline +:+ demoGoSum) Hread (or_introl eq_refl) _ _)).
  - vm_compute. reflexivity.
  - apply Nat.leb_le. vm_compute. reflexivity.
Defined.

(** The archive of the third example has its checksum companion in the
    index and no signature. *)
Lemma artifact_neighbours_witness :
  simpleName "myapp.tar.gz"
  ∧ isReleaseArtifact "myapp.tar.gz" = true
  ∧ filter (λ f, RuleId f = "ARTINT-001")
      (analyzeFile demoDecoder listOrder distFS
         (list_to_set (workspaceFiles distFS "dist")) []
         (Filepath.Join "dist" "myapp.tar.gz")) = [].
Proof.
  assert (simpleName "myapp.tar.gz") as Hname by by repeat split.
  split; [exact Hname |]. split; [reflexivity |].
  apply (artifact_neighbours demoDecoder listOrder distFS
           (list_to_set (workspaceFiles distFS "dist")) "dist" "myapp.tar.gz"
           ltac:(done) Hname eq_refl).
  left. exists ".sha256". split; [by left |].
  apply elem_of_list_to_set. by right; left.
Defined.

(** The one finding of the scan of the third example, at the archive, is
    not a missing checksum. *)
Lemma companions_in_workspace_witness :
  let f := mkFinding "ARTINT-002" SeverityMedium ConfidenceMedium
             "Release artifact myapp.tar.gz has no signature file (.sig, .asc)"
             "dist/myapp.tar.gz" 0 0
             (<["type" := "unsigned_artifact"]> (<["artifact" := "myapp.tar.gz"]> ∅)) in
  handleScan demoDecoder listOrder Background distFS (scanRequest "dist")
  = Response [f]
  ∧ LocationFile f = Filepath.Join "dist" "myapp.tar.gz"
  ∧ RuleId f ≠ "ARTINT-001".
Proof.
  intros f.
  assert (handleScan demoDecoder listOrder Background distFS (scanRequest "dist")
          = Response [f]) as Hscan by reflexivity.
  split; [exact Hscan |]. split; [reflexivity |].
  refine (proj1 (companions_in_workspace demoDecoder listOrder Background distFS
                   (scanRequest "dist") distTree "dist"
                   [FileEntry "myapp.tar.gz"; FileEntry "myapp.tar.gz.sha256"]
                   "myapp.tar.gz" [f] f _ eq_refl _ _ Hscan _ eq_refl) _).
  - done.
  - by apply visits_here.
  - by repeat split.
  - by left.
  - left. exists ".sha256". split; [by left | by right; left].
Defined.


(** The third example is well formed: its two files are met once each. *)
Lemma findings_of_each_file_witness :
  let f := mkFinding "ARTINT-002" SeverityMedium ConfidenceMedium
             "Release artifact myapp.tar.gz has no signature file (.sig, .asc)"
             "dist/myapp.tar.gz" 0 0
             (<["type" := "unsigned_artifact"]> (<["artifact" := "myapp.tar.gz"]> ∅)) in
  handleScan demoDecoder listOrder Background distFS (scanRequest "dist")
  = Response [f]
  ∧ wellFormed distTree
  ∧ NoDup (workspaceFiles distFS "dist").
Proof.
  intros f.
  assert (handleScan demoDecoder listOrder Background distFS (scanRequest "dist")
          = Response [f]) as Hscan by reflexivity.
  assert (wellFormed distTree) as Hwf.
  { constructor.
    - by repeat constructor.
    - apply NoDup_cons. split; [by intros [= ]%list_elem_of_singleton |].
      apply NoDup_singleton.
    - repeat constructor. }
  split; [exact Hscan |]. split; [exact Hwf |].
  refine (proj1 (findings_of_each_file demoDecoder listOrder distFS
                   (scanRequest "dist") distTree [f] _ eq_refl Hwf Hscan)).
  done.
Defined.

(** In the third example the archive has its checksum companion next to
    it: the scan reports no missing checksum for it. *)
Lemma artifact_findings_in_workspace_witness :
  let f := mkFinding "ARTINT-002" SeverityMedium ConfidenceMedium
             "Release artifact myapp.tar.gz has no signature file (.sig, .asc)"
             "dist/myapp.tar.gz" 0 0
             (<["type" := "unsigned_artifact"]> (<["artifact" := "myapp.tar.gz"]> ∅)) in
  handleScan demoDecoder listOrder Background distFS (scanRequest "dist")
  = Response [f]
  ∧ visits "dist" distTree "dist"
      [FileEntry "myapp.tar.gz"; FileEntry "myapp.tar.gz.sha256"]
  ∧ filter (λ f, RuleId f = "ARTINT-001")
      (filter (λ f, LocationFile f = Filepath.Join "dist" "myapp.tar.gz") [f]) = [].
Proof.
  intros f.
  assert (handleScan demoDecoder listOrder Background distFS (scanRequest "dist")
          = Response [f]) as Hscan by reflexivity.
  assert (visits "dist" distTree "dist"
            [FileEntry "myapp.tar.gz"; FileEntry "myapp.tar.gz.sha256"]) as Hvisits
    by by apply visits_here.
  assert (wellFormed distTree) as Hwf.
  { constructor.
    - by repeat constructor.
    - apply NoDup_cons. split; [by intros [= ]%list_elem_of_singleton |].
      apply NoDup_singleton.
    - repeat constructor. }
  split; [exact Hscan |]. split; [exact Hvisits |].
  refine (proj2 (proj1 (artifact_findings_in_workspace demoDecoder listOrder distFS
                          (scanRequest "dist") distTree "dist" _ "myapp.tar.gz" [f]
                          _ eq_refl Hwf Hvisits _ eq_refl Hscan)) _).
  - done.
  - by left.
  - left. exists ".sha256". split; [by left | by right; left].
Defined.


(** The findings of the cancelled scan of the example: its workspace is
    well formed. *)
Lemma no_finding_twice_witness :
  (∀ path m, listOrder path m ≡ₚ map_to_list m)
  ∧ wellFormed demoTree
  ∧ ∃ found,
      handleScan demoDecoder listOrder (mkContext (Some 12) Canceled) demoFS
        (scanRequest "demo") = Response found
      ∧ NoDup found.
Proof.
  assert (∀ path m, listOrder path m ≡ₚ map_to_list m) as Horder by done.
  assert (wellFormed demoTree) as Hwf.
  { repeat first
      [ apply wellFormed_file
      | apply wellFormed_directory
      | apply Forall_nil_2
      | apply Forall_cons_2
      | apply NoDup_nil_2
      | apply NoDup_cons_2
      | by repeat split
      | by apply (bool_decide_eq_true_1 _) ]. }
  split; [exact Horder |]. split; [exact Hwf |].
  exists [conflictFinding "demo/go.sum" 3 "example.com/m" "v1.0.0"].
  assert (handleScan demoDecoder listOrder (mkContext (Some 12) Canceled) demoFS
            (scanRequest "demo")
          = Response [conflictFinding "demo/go.sum" 3 "example.com/m" "v1.0.0"])
    as Hscan by reflexivity.
  split; [exact Hscan |].
  apply (no_finding_twice demoDecoder listOrder Horder
           (mkContext (Some 12) Canceled) demoFS (scanRequest "demo") demoTree _
           ltac:(done) eq_refl Hwf Hscan).
Defined.
